(** * A shallow embedding of the chess engine core (threaded SDL3 + Clay version)

    The C functions of the engine (position, attack/legality oracle, move
    generator, make/unmake, material evaluation, minimax, choice of the move,
    move notation, game-end tests) are written as Rocq functions over an
    explicit [ChessState] record, and so are the engine's run, the poll that
    plays its move and the handling of a click on a square, each as the
    sequential code it is.

    - A C [int] is a [Z].  The squares, depths and scores the engine works
      with are small, so no wrap-around is involved in them; the node counter
      of the search is the one [int] that can run over, and it is kept in the
      32-bit range with its wrap-around written out ([wrap32]).
    - [PieceType board[8][8]] is a list of 64 pieces in row-major order.  Every
      access goes through [rd]/[wr], which check both indices against the
      8x8 bounds: an access outside the array is undefined behaviour in C and
      shows up here as the result [OutOfBounds].
    - Loops whose bounds are not syntactically fixed carry a fuel argument;
      running out of it is the result [OutOfFuel]. *)

From Stdlib Require Import ZArith Lia Bool List.
From stdpp Require Import base decidable option list strings.
Import ListNotations.

Local Open Scope Z_scope.

(** ** Results of evaluating C code *)

Inductive res (A : Type) : Type :=
| Ok (a : A)
| OutOfBounds
| OutOfFuel.
Arguments Ok {A} a.
Arguments OutOfBounds {A}.
Arguments OutOfFuel {A}.

Definition bind {A B : Type} (m : res A) (k : A -> res B) : res B :=
  match m with
  | Ok a => k a
  | OutOfBounds => OutOfBounds
  | OutOfFuel => OutOfFuel
  end.

Notation "'let*' x ':=' c1 'in' c2" := (bind c1 (fun x => c2))
  (at level 10, x binder, c1 at level 100, c2 at level 200).

(** C's short-circuit [a && b] where evaluating [b] reads memory. *)
Definition andM (a : bool) (b : res bool) : res bool :=
  if a then b else Ok false.

(** Loop over a list carrying a state, as the engine's [for] loops over rows,
    columns and move lists do. *)
Fixpoint foldM {A S : Type} (f : S -> A -> res S) (l : list A) (s : S) : res S :=
  match l with
  | [] => Ok s
  | x :: l' => let* s' := f s x in foldM f l' s'
  end.

(** Loop over a list that returns [true] from the function at the first
    element for which the body says so, and [false] after the last one. *)
Fixpoint anyM {A : Type} (f : A -> res bool) (l : list A) : res bool :=
  match l with
  | [] => Ok false
  | x :: l' => let* b := f x in if (b : bool) then Ok true else anyM f l'
  end.

(** ** Pieces *)

Inductive PieceType : Type :=
| EMPTY
| WHITE_PAWN | WHITE_KNIGHT | WHITE_BISHOP | WHITE_ROOK | WHITE_QUEEN | WHITE_KING
| BLACK_PAWN | BLACK_KNIGHT | BLACK_BISHOP | BLACK_ROOK | BLACK_QUEEN | BLACK_KING.

#[global] Instance PieceType_eq_dec : EqDecision PieceType.
Proof. solve_decision. Defined.

(** The value of the enumerator. *)
Definition code (p : PieceType) : Z :=
  match p with
  | EMPTY => 0
  | WHITE_PAWN => 1 | WHITE_KNIGHT => 2 | WHITE_BISHOP => 3
  | WHITE_ROOK => 4 | WHITE_QUEEN => 5 | WHITE_KING => 6
  | BLACK_PAWN => 7 | BLACK_KNIGHT => 8 | BLACK_BISHOP => 9
  | BLACK_ROOK => 10 | BLACK_QUEEN => 11 | BLACK_KING => 12
  end.

Definition PIECE_VALUES (p : PieceType) : Z :=
  match p with
  | EMPTY => 0
  | WHITE_PAWN => 1 | WHITE_KNIGHT => 3 | WHITE_BISHOP => 4
  | WHITE_ROOK => 5 | WHITE_QUEEN => 9 | WHITE_KING => 0
  | BLACK_PAWN => 1 | BLACK_KNIGHT => 3 | BLACK_BISHOP => 4
  | BLACK_ROOK => 5 | BLACK_QUEEN => 9 | BLACK_KING => 0
  end.

Definition isWhite (p : PieceType) : bool :=
  (code WHITE_PAWN <=? code p) && (code p <=? code WHITE_KING).
Definition isBlack (p : PieceType) : bool :=
  (code BLACK_PAWN <=? code p) && (code p <=? code BLACK_KING).
Definition sameColor (a b : PieceType) : bool :=
  (isWhite a && isWhite b) || (isBlack a && isBlack b).

(** [p == q] on enumerators. *)
Definition peq (p q : PieceType) : bool := bool_decide (p = q).

(** ** Moves, positions, undo records *)

Record Move : Type := mkMove {
  fromRow : Z; fromCol : Z;
  toRow : Z; toCol : Z;
  captured : PieceType;
  isPromotion : bool;
  isEnPassant : bool;
  isCastling : bool
}.

(** [Move empty = {0}]. *)
Definition zeroMove : Move := mkMove 0 0 0 0 EMPTY false false false.

(** The game fields of [ChessState].  The two-element [bool] arrays
    [hasCastledWhite] and [hasCastledBlack] are pairs (index 0 kingside,
    index 1 queenside).  The texture handles are left out. *)
Record ChessState : Type := mkChess {
  board : list PieceType;
  whiteToMove : bool;
  selectedRow : Z;
  selectedCol : Z;
  engineMove : Move;
  engineWhite : bool;
  enginePending : bool;
  hasCastledWhite : bool * bool;
  hasCastledBlack : bool * bool;
  enPassantCol : Z
}.

Record UndoInfo : Type := mkUndo {
  u_hasCastledWhite : bool * bool;
  u_hasCastledBlack : bool * bool;
  u_enPassantCol : Z;
  capturedPiece : PieceType;
  capturedRow : Z;
  capturedCol : Z
}.

(** The progress counters and the hand-off slot of [Engine]; the thread and
    mutex handles are left out. *)
Record Engine : Type := mkEngine {
  nodesSearched : Z;
  depthCompleted : Z;
  searching : Z;
  hasMove : bool;
  resultMove : Move
}.

Definition set_board (b : list PieceType) (s : ChessState) : ChessState :=
  mkChess b (whiteToMove s) (selectedRow s) (selectedCol s) (engineMove s)
    (engineWhite s) (enginePending s) (hasCastledWhite s) (hasCastledBlack s)
    (enPassantCol s).
Definition set_whiteToMove (w : bool) (s : ChessState) : ChessState :=
  mkChess (board s) w (selectedRow s) (selectedCol s) (engineMove s)
    (engineWhite s) (enginePending s) (hasCastledWhite s) (hasCastledBlack s)
    (enPassantCol s).
Definition set_hasCastledWhite (f : bool * bool) (s : ChessState) : ChessState :=
  mkChess (board s) (whiteToMove s) (selectedRow s) (selectedCol s) (engineMove s)
    (engineWhite s) (enginePending s) f (hasCastledBlack s) (enPassantCol s).
Definition set_hasCastledBlack (f : bool * bool) (s : ChessState) : ChessState :=
  mkChess (board s) (whiteToMove s) (selectedRow s) (selectedCol s) (engineMove s)
    (engineWhite s) (enginePending s) (hasCastledWhite s) f (enPassantCol s).
Definition set_enPassantCol (e : Z) (s : ChessState) : ChessState :=
  mkChess (board s) (whiteToMove s) (selectedRow s) (selectedCol s) (engineMove s)
    (engineWhite s) (enginePending s) (hasCastledWhite s) (hasCastledBlack s) e.

(** [flags[i]] and [flags[i] = v] for the two-element arrays; [i] is always
    computed as [(tc == 6) ? 0 : 1] by the code. *)
Definition flag_get (f : bool * bool) (i : Z) : bool :=
  if i =? 0 then fst f else snd f.
Definition flag_set (f : bool * bool) (i : Z) (v : bool) : bool * bool :=
  if i =? 0 then (v, snd f) else (fst f, v).

(** ** Board access *)

Definition inBounds (r c : Z) : bool :=
  (0 <=? r) && (r <? 8) && (0 <=? c) && (c <? 8).

Definition idx (r c : Z) : nat := Z.to_nat (8 * r + c).

(** [chess->board[r][c]] read. *)
Definition rd (chess : ChessState) (r c : Z) : res PieceType :=
  if inBounds r c then
    match board chess !! idx r c with
    | Some p => Ok p
    | None => OutOfBounds
    end
  else OutOfBounds.

(** [chess->board[r][c] = p]. *)
Definition wr (chess : ChessState) (r c : Z) (p : PieceType) : res ChessState :=
  if inBounds r c then
    if (idx r c <? length (board chess))%nat
    then Ok (set_board (<[idx r c := p]> (board chess)) chess)
    else OutOfBounds
  else OutOfBounds.

Definition range8 : list Z := [0; 1; 2; 3; 4; 5; 6; 7].

(** The squares in the order of [for (r = 0; r < 8; r++) for (c = 0; c < 8; c++)]. *)
Definition squares : list (Z * Z) :=
  flat_map (fun r => map (fun c => (r, c)) range8) range8.

(** ** Initial position *)

Definition initChessState : ChessState :=
  mkChess
    ([WHITE_ROOK; WHITE_KNIGHT; WHITE_BISHOP; WHITE_QUEEN;
      WHITE_KING; WHITE_BISHOP; WHITE_KNIGHT; WHITE_ROOK]
     ++ replicate 8 WHITE_PAWN
     ++ replicate 32 EMPTY
     ++ replicate 8 BLACK_PAWN
     ++ [BLACK_ROOK; BLACK_KNIGHT; BLACK_BISHOP; BLACK_QUEEN;
         BLACK_KING; BLACK_BISHOP; BLACK_KNIGHT; BLACK_ROOK])
    true (-1) (-1) zeroMove false false (false, false) (false, false) (-1).

(** ** Per-piece move predicates *)

(** The body of the loop of [pathClear]: the walk is at [(r, c)] and stops
    when it reaches [(tr, tc)]. *)
Fixpoint pathClear_loop (fuel : nat) (chess : ChessState)
    (r c dr dc tr tc : Z) : res bool :=
  if negb (r =? tr) || negb (c =? tc) then
    match fuel with
    | O => OutOfFuel
    | S fuel' =>
        let* p := rd chess r c in
        if negb (peq p EMPTY) then Ok false
        else pathClear_loop fuel' chess (r + dr) (c + dc) dr dc tr tc
    end
  else Ok true.

Definition sgn (a b : Z) : Z :=
  (if a >? b then 1 else 0) - (if a <? b then 1 else 0).

(** A walk that stays on the board reads at most 8 squares; see
    [pathClear_fuel_enough]. *)
Definition pathClear (chess : ChessState) (fr fc tr tc : Z) : res bool :=
  let dr := sgn tr fr in
  let dc := sgn tc fc in
  pathClear_loop 9 chess (fr + dr) (fc + dc) dr dc tr tc.

Definition knightMove (chess : ChessState) (fr fc tr tc : Z) : res bool :=
  let dr := Z.abs (tr - fr) in
  let dc := Z.abs (tc - fc) in
  Ok (((dr =? 2) && (dc =? 1)) || ((dr =? 1) && (dc =? 2))).

Definition rookMove (chess : ChessState) (fr fc tr tc : Z) : res bool :=
  if negb (fr =? tr) && negb (fc =? tc) then Ok false
  else pathClear chess fr fc tr tc.

Definition bishopMove (chess : ChessState) (fr fc tr tc : Z) : res bool :=
  if negb (Z.abs (fr - tr) =? Z.abs (fc - tc)) then Ok false
  else pathClear chess fr fc tr tc.

Definition queenMove (chess : ChessState) (fr fc tr tc : Z) : res bool :=
  let* a := rookMove chess fr fc tr tc in
  if (a : bool) then Ok true else bishopMove chess fr fc tr tc.

Definition pawnMove (chess : ChessState) (fr fc tr tc : Z) : res bool :=
  let* p := rd chess fr fc in
  let dir := if isWhite p then 1 else -1 in
  let startRow := if isWhite p then 1 else 6 in
  let* c1 := andM ((fc =? tc) && (tr =? fr + dir))
          (let* t := rd chess tr tc in Ok (peq t EMPTY)) in
  if (c1 : bool) then Ok true else
  let* c2 := andM ((fc =? tc) && (fr =? startRow) && (tr =? fr + 2 * dir))
          (let* m := rd chess (fr + dir) fc in
           andM (peq m EMPTY) (let* t := rd chess tr tc in Ok (peq t EMPTY))) in
  if (c2 : bool) then Ok true else
  let* c3 := andM ((Z.abs (tc - fc) =? 1) && (tr =? fr + dir))
          (let* t := rd chess tr tc in Ok (negb (peq t EMPTY))) in
  if (c3 : bool) then Ok true else Ok false.

(** ** Attack queries *)

Definition canPieceAttackSquare (chess : ChessState) (fr fc tr tc : Z) : res bool :=
  if negb (inBounds tr tc) then Ok false else
  let* p := rd chess fr fc in
  if peq p EMPTY then Ok false else
  match p with
  | WHITE_PAWN | BLACK_PAWN => pawnMove chess fr fc tr tc
  | WHITE_KNIGHT | BLACK_KNIGHT => knightMove chess fr fc tr tc
  | WHITE_BISHOP | BLACK_BISHOP => bishopMove chess fr fc tr tc
  | WHITE_ROOK | BLACK_ROOK => rookMove chess fr fc tr tc
  | WHITE_QUEEN | BLACK_QUEEN => queenMove chess fr fc tr tc
  | WHITE_KING | BLACK_KING =>
      Ok ((Z.abs (fr - tr) <=? 1) && (Z.abs (fc - tc) <=? 1))
  | EMPTY => Ok false
  end.

(** The body of the double loop of [isSquareAttacked] at [(fr, fc)]:
    [true] is the [return true], [false] stands for going on. *)
Definition attackedFrom (chess : ChessState) (r c : Z) (byWhite : bool)
    (sq : Z * Z) : res bool :=
  let '(fr, fc) := sq in
  let* p := rd chess fr fc in
  if peq p EMPTY then Ok false
  else if byWhite && negb (isWhite p) then Ok false
  else if negb byWhite && negb (isBlack p) then Ok false
  else canPieceAttackSquare chess fr fc r c.

Definition isSquareAttacked (chess : ChessState) (r c : Z) (byWhite : bool) : res bool :=
  anyM (attackedFrom chess r c byWhite) squares.

(** The double loop of [isKingInCheck]: the first square holding the king
    decides. *)
Fixpoint isKingInCheck_loop (chess : ChessState) (whiteKing : bool)
    (l : list (Z * Z)) : res bool :=
  match l with
  | [] => Ok false
  | (r, c) :: l' =>
      let* p := rd chess r c in
      if (whiteKing && peq p WHITE_KING) || (negb whiteKing && peq p BLACK_KING)
      then isSquareAttacked chess r c (negb whiteKing)
      else isKingInCheck_loop chess whiteKing l'
  end.

Definition isKingInCheck (chess : ChessState) (whiteKing : bool) : res bool :=
  isKingInCheck_loop chess whiteKing squares.

(** ** Castling *)

(** [for (c = fc + step; c != rookCol; c += step) if (board[fr][c] != EMPTY) return false;]
    [true] means the loop ran to its end. *)
Fixpoint castle_between_loop (fuel : nat) (chess : ChessState)
    (fr c step rookCol : Z) : res bool :=
  if negb (c =? rookCol) then
    match fuel with
    | O => OutOfFuel
    | S fuel' =>
        let* p := rd chess fr c in
        if negb (peq p EMPTY) then Ok false
        else castle_between_loop fuel' chess fr (c + step) step rookCol
    end
  else Ok true.

(** [for (c = fc; c != tc + step; c += step) if (isSquareAttacked(...)) return false;]
    [true] means the loop ran to its end. *)
Fixpoint castle_transit_loop (fuel : nat) (chess : ChessState)
    (fr c step stop : Z) (byWhite : bool) : res bool :=
  if negb (c =? stop) then
    match fuel with
    | O => OutOfFuel
    | S fuel' =>
        let* a := isSquareAttacked chess fr c byWhite in
        if (a : bool) then Ok false
        else castle_transit_loop fuel' chess fr (c + step) step stop byWhite
    end
  else Ok true.

Definition canCastle (chess : ChessState) (fr fc tr tc : Z) : res bool :=
  let* king := rd chess fr fc in
  let white := isWhite king in
  if white && negb (fr =? 0) then Ok false else
  if negb white && negb (fr =? 7) then Ok false else
  if negb (fc =? 4) then Ok false else
  let rookCol := if tc =? 6 then 7 else 0 in
  let step := if tc >? fc then 1 else -1 in
  if white && flag_get (hasCastledWhite chess) (if tc =? 6 then 0 else 1) then Ok false else
  if negb white && flag_get (hasCastledBlack chess) (if tc =? 6 then 0 else 1) then Ok false else
  let* rook := rd chess fr rookCol in
  if negb (peq rook (if white then WHITE_ROOK else BLACK_ROOK)) then Ok false else
  let* clear := castle_between_loop 9 chess fr (fc + step) step rookCol in
  if negb clear then Ok false else
  let* chk := isKingInCheck chess white in
  if (chk : bool) then Ok false else
  castle_transit_loop (S (Z.to_nat (Z.abs (tc - fc)))) chess fr fc step (tc + step)
    (negb white).

Definition kingMove (chess : ChessState) (fr fc tr tc : Z) : res bool :=
  if (Z.abs (fr - tr) <=? 1) && (Z.abs (fc - tc) <=? 1) then Ok true
  else if (fr =? tr) && ((tc =? 6) || (tc =? 2)) then canCastle chess fr fc tr tc
  else Ok false.

(** ** Full legality *)

Definition isLegalMove (chess : ChessState) (fr fc tr tc : Z) : res bool :=
  if negb (inBounds tr tc) then Ok false else
  let* p := rd chess fr fc in
  if peq p EMPTY then Ok false else
  let* target := rd chess tr tc in
  if sameColor p target then Ok false else
  let* ok := match p with
        | WHITE_PAWN | BLACK_PAWN => pawnMove chess fr fc tr tc
        | WHITE_KNIGHT | BLACK_KNIGHT => knightMove chess fr fc tr tc
        | WHITE_BISHOP | BLACK_BISHOP => bishopMove chess fr fc tr tc
        | WHITE_ROOK | BLACK_ROOK => rookMove chess fr fc tr tc
        | WHITE_QUEEN | BLACK_QUEEN => queenMove chess fr fc tr tc
        | WHITE_KING | BLACK_KING => kingMove chess fr fc tr tc
        | EMPTY => Ok false
        end in
  if negb ok then Ok false else
  let copy := chess in
  let* m := rd copy fr fc in
  let* copy := wr copy tr tc m in
  let* copy := wr copy fr fc EMPTY in
  let* q := rd copy tr tc in
  let white := isWhite q in
  let* chk := isKingInCheck copy white in
  Ok (negb chk).

(** ** Move generation *)

(** The body of the innermost loop of [getAllMoves] for the piece [p] on
    [(r, c)] and the destination [(r2, c2)]; the move list is the array
    [moves->moves] up to [moves->count]. *)
Definition genMove (chess : ChessState) (r c : Z) (p : PieceType)
    (moves : list Move) (dst : Z * Z) : res (list Move) :=
  let '(r2, c2) := dst in
  let* ok := isLegalMove chess r c r2 c2 in
  if (ok : bool) then
    if Z.of_nat (length moves) >=? 256 then Ok moves else
    let* t := rd chess r2 c2 in
    let castling := (peq p WHITE_KING || peq p BLACK_KING) && (c =? 4) && (Z.abs (c2 - c) =? 2) in
    let promotion := (peq p WHITE_PAWN && (r2 =? 7)) || (peq p BLACK_PAWN && (r2 =? 0)) in
    let* ep := andM ((peq p WHITE_PAWN || peq p BLACK_PAWN) && negb (c =? c2))
            (let* t' := rd chess r2 c2 in Ok (peq t' EMPTY)) in
    if (ep : bool) then
      let capRow := if isWhite p then r2 - 1 else r2 + 1 in
      let* cap := rd chess capRow c2 in
      Ok (moves ++ [mkMove r c r2 c2 cap promotion true castling])
    else
      Ok (moves ++ [mkMove r c r2 c2 t promotion false castling])
  else Ok moves.

(** The body of the outer double loop of [getAllMoves] at [(r, c)]. *)
Definition genFrom (chess : ChessState) (moves : list Move) (src : Z * Z) : res (list Move) :=
  let '(r, c) := src in
  let* p := rd chess r c in
  if peq p EMPTY then Ok moves
  else if whiteToMove chess && isBlack p then Ok moves
  else if negb (whiteToMove chess) && isWhite p then Ok moves
  else foldM (genMove chess r c p) squares moves.

Definition getAllMoves (chess : ChessState) : res (list Move) :=
  foldM (genFrom chess) squares [].


(** ** Material evaluation *)

(** The body of the double loop of [evaluateMaterial] at one square. *)
Definition evalStep (chess : ChessState) (whitePerspective : bool)
    (value : Z) (sq : Z * Z) : res Z :=
  let '(r, c) := sq in
  let* p := rd chess r c in
  if peq p EMPTY then Ok value else
  let val := PIECE_VALUES p in
  if isWhite p then Ok (value + (if whitePerspective then val else - val))
  else Ok (value + (if whitePerspective then - val else val)).

Definition evaluateMaterial (chess : ChessState) (whitePerspective : bool) : res Z :=
  foldM (evalStep chess whitePerspective) squares 0.

(** ** Making and unmaking a move *)

(** What an [UndoInfo u;] that was never written holds is of no consequence;
    this value stands for it. *)
Definition undoLocal : UndoInfo := mkUndo (false, false) (false, false) 0 EMPTY 0 0.

(** The en-passant file after a move of the piece [moving]:
    [chess->enPassantCol = -1;] and then the file of a pawn that advanced two
    squares. *)
Definition markEnPassant (moving : PieceType) (move : Move) (chess : ChessState)
    : ChessState :=
  let chess := set_enPassantCol (-1) chess in
  if (peq moving WHITE_PAWN || peq moving BLACK_PAWN)
     && (Z.abs (toRow move - fromRow move) =? 2)
  then set_enPassantCol (fromCol move) chess else chess.

(** The [hasCastled] flags after a move of the piece [moving]: the
    [if (moving == WHITE_KING) ... else if (moving == BLACK_ROOK) ...] chain. *)
Definition markRights (moving : PieceType) (move : Move) (chess : ChessState)
    : ChessState :=
  if peq moving WHITE_KING then set_hasCastledWhite (true, true) chess
  else if peq moving BLACK_KING then set_hasCastledBlack (true, true) chess
  else if peq moving WHITE_ROOK then
    let chess :=
      if (fromRow move =? 0) && (fromCol move =? 7)
      then set_hasCastledWhite (flag_set (hasCastledWhite chess) 0 true) chess else chess in
    if (fromRow move =? 0) && (fromCol move =? 0)
    then set_hasCastledWhite (flag_set (hasCastledWhite chess) 1 true) chess else chess
  else if peq moving BLACK_ROOK then
    let chess :=
      if (fromRow move =? 7) && (fromCol move =? 7)
      then set_hasCastledBlack (flag_set (hasCastledBlack chess) 0 true) chess else chess in
    if (fromRow move =? 7) && (fromCol move =? 0)
    then set_hasCastledBlack (flag_set (hasCastledBlack chess) 1 true) chess else chess
  else chess.

(** [makeMove(chess, move, _undo)].  [_undo] is the pointer argument: [None]
    is [NULL], [Some u] points to a record holding [u].  The result carries
    the position and what the pointed-to record holds afterwards. *)
Definition makeMove (chess : ChessState) (move : Move) (_undo : option UndoInfo)
    : res (ChessState * option UndoInfo) :=
  let undo := match _undo with Some u => u | None => undoLocal end in
  let undo := mkUndo (hasCastledWhite chess) (hasCastledBlack chess)
                (enPassantCol chess) (captured move)
                (capturedRow undo) (capturedCol undo) in
  let* moving := rd chess (fromRow move) (fromCol move) in
  let* chess :=
    if isCastling move then
      let rookFromCol := if toCol move =? 6 then 7 else 0 in
      let rookToCol := if toCol move =? 6 then 5 else 3 in
      let* rook := rd chess (fromRow move) rookFromCol in
      let* chess := wr chess (fromRow move) rookToCol rook in
      let* chess := wr chess (fromRow move) rookFromCol EMPTY in
      if peq moving WHITE_KING
      then Ok (set_hasCastledWhite
                 (flag_set (hasCastledWhite chess) (if toCol move =? 6 then 0 else 1) true) chess)
      else Ok (set_hasCastledBlack
                 (flag_set (hasCastledBlack chess) (if toCol move =? 6 then 0 else 1) true) chess)
    else Ok chess in
  let* '(chess, undo) :=
    if isEnPassant move then
      let capRow := if isWhite moving then toRow move - 1 else toRow move + 1 in
      let undo := mkUndo (u_hasCastledWhite undo) (u_hasCastledBlack undo)
                    (u_enPassantCol undo) (capturedPiece undo) capRow (toCol move) in
      let* chess := wr chess capRow (toCol move) EMPTY in
      Ok (chess, undo)
    else Ok (chess, undo) in
  let moving :=
    if isPromotion move then (if isWhite moving then WHITE_QUEEN else BLACK_QUEEN)
    else moving in
  let chess := markEnPassant moving move chess in
  let chess := markRights moving move chess in
  let* chess := wr chess (toRow move) (toCol move) moving in
  let* chess := wr chess (fromRow move) (fromCol move) EMPTY in
  let chess := set_whiteToMove (negb (whiteToMove chess)) chess in
  Ok (chess, match _undo with Some _ => Some undo | None => None end).

(** [unmakeMove(chess, move, _undo)], with the same reading of [_undo]. *)
Definition unmakeMove (chess : ChessState) (move : Move) (_undo : option UndoInfo)
    : res ChessState :=
  match _undo with
  | None => Ok chess
  | Some undo =>
      let chess := set_whiteToMove (negb (whiteToMove chess)) chess in
      let* moving := rd chess (toRow move) (toCol move) in
      let moving :=
        if isPromotion move then (if isWhite moving then WHITE_PAWN else BLACK_PAWN)
        else moving in
      let* chess := wr chess (fromRow move) (fromCol move) moving in
      let* chess := wr chess (toRow move) (toCol move) (capturedPiece undo) in
      let* chess :=
        if isCastling move then
          let rookFromCol := if toCol move =? 6 then 7 else 0 in
          let rookToCol := if toCol move =? 6 then 5 else 3 in
          let* rook := rd chess (fromRow move) rookToCol in
          let* chess := wr chess (fromRow move) rookFromCol rook in
          wr chess (fromRow move) rookToCol EMPTY
        else Ok chess in
      let* chess :=
        if isEnPassant move then
          let* chess := wr chess (capturedRow undo) (capturedCol undo) (capturedPiece undo) in
          wr chess (toRow move) (toCol move) EMPTY
        else Ok chess in
      let chess := set_hasCastledWhite (u_hasCastledWhite undo) chess in
      let chess := set_hasCastledBlack (u_hasCastledBlack undo) chess in
      Ok (set_enPassantCol (u_enPassantCol undo) chess)
  end.

(** ** Search *)

(** A sum brought back into the range of a 32-bit [int], as an atomic add
    does on overflow. *)
Definition wrap32 (z : Z) : Z := (z + 2147483648) mod 4294967296 - 2147483648.

(** [SDL_AddAtomicInt(&engine->progress.nodesSearched, 1)]: the counter is the
    [int] inside an [SDL_AtomicInt]. *)
Definition countNode (engine : Engine) : Engine :=
  mkEngine (wrap32 (nodesSearched engine + 1)) (depthCompleted engine) (searching engine)
    (hasMove engine) (resultMove engine).

(** One iteration of the loop over the moves in [minimax]; [search] is the
    recursive call.  The accumulator is [best], the position (changed in
    place by make/unmake) and the engine counters. *)
Definition minimaxStep
    (search : ChessState -> Engine -> res (Z * ChessState * Engine))
    (better : Z -> Z -> bool)
    (acc : Z * ChessState * Engine) (m : Move) : res (Z * ChessState * Engine) :=
  let '(best, chess, engine) := acc in
  let* '(chess, u) := makeMove chess m (Some undoLocal) in
  let* '(score, chess, engine) := search chess engine in
  let* chess := unmakeMove chess m u in
  Ok (if better score best then score else best, chess, engine).

(** [minimax(chess, depth, whitePerspective, engine)]: the score, with the
    position and the engine as the call leaves them.  [fuel] bounds the depth
    of the recursion. *)
Fixpoint minimax (fuel : nat) (chess : ChessState) (depth : Z)
    (whitePerspective : bool) (engine : Engine) : res (Z * ChessState * Engine) :=
  match fuel with
  | O => OutOfFuel
  | S fuel' =>
      let engine := countNode engine in
      if depth =? 0 then
        let* v := evaluateMaterial chess whitePerspective in Ok (v, chess, engine)
      else
        let* moves := getAllMoves chess in
        if Z.of_nat (length moves) =? 0 then
          let* chk := isKingInCheck chess (whiteToMove chess) in
          if (chk : bool) then Ok (if whitePerspective then -10000 else 10000, chess, engine)
          else Ok (0, chess, engine)
        else if whitePerspective then
          foldM (minimaxStep
                   (fun c e => minimax fuel' c (depth - 1) (negb whitePerspective) e)
                   Z.gtb)
            moves (-10000, chess, engine)
        else
          foldM (minimaxStep
                   (fun c e => minimax fuel' c (depth - 1) (negb whitePerspective) e)
                   Z.ltb)
            moves (10000, chess, engine)
  end.

(** ** Choosing a move *)

(** One iteration of the loop over the moves in [findBestMove]; [search] is
    the call of [minimax].  The accumulator is [bestEval], [bestMove], the
    position and the engine counters. *)
Definition findBestStep
    (search : ChessState -> Engine -> res (Z * ChessState * Engine))
    (better : Z -> Z -> bool)
    (acc : Z * Move * ChessState * Engine) (mv : Move)
    : res (Z * Move * ChessState * Engine) :=
  let '(bestEval, bestMove, chess, engine) := acc in
  let* '(chess, u) := makeMove chess mv (Some undoLocal) in
  let* '(eval, chess, engine) := search chess engine in
  let* chess := unmakeMove chess mv u in
  Ok (if better eval bestEval then (eval, mv, chess, engine)
      else (bestEval, bestMove, chess, engine)).

(** [findBestMove(chess, depth, engine)]: the move, with the position and the
    engine as the call leaves them.  [fuel] bounds the depth of the recursion
    of [minimax]. *)
Definition findBestMove (fuel : nat) (chess : ChessState) (depth : Z)
    (engine : Engine) : res (Move * ChessState * Engine) :=
  let* moves := getAllMoves chess in
  match moves with
  | [] => Ok (zeroMove, chess, engine)
  | first :: _ =>
      let* '(_, bestMove, chess, engine) :=
        if whiteToMove chess then
          foldM (findBestStep (fun c e => minimax fuel c (depth - 1) false e) Z.gtb)
            moves (-10000, first, chess, engine)
        else
          foldM (findBestStep (fun c e => minimax fuel c (depth - 1) true e) Z.ltb)
            moves (10000, first, chess, engine) in
      Ok (bestMove, chess, engine)
  end.

(** ** End of the game *)

Definition isCheckmate (chess : ChessState) : res bool :=
  let* chk := isKingInCheck chess (whiteToMove chess) in
  if negb chk then Ok false else
  let* moves := getAllMoves chess in
  Ok (Z.of_nat (length moves) =? 0).

Definition isStalemate (chess : ChessState) : res bool :=
  let* chk := isKingInCheck chess (whiteToMove chess) in
  if (chk : bool) then Ok false else
  let* moves := getAllMoves chess in
  Ok (Z.of_nat (length moves) =? 0).

(** The lines that the [if (isCheckmate(...)) printf(...) else if ...] chain
    after a move prints, without their final newline. *)
Definition announce (chess : ChessState) : res (list string) :=
  let* mate := isCheckmate chess in
  if (mate : bool) then
    Ok ["CHECKMATE! " +:+ (if whiteToMove chess then "Black" else "White") +:+ " wins!"]
  else
    let* stale := isStalemate chess in
    if (stale : bool) then Ok ["STALEMATE! Draw."]
    else
      let* chk := isKingInCheck chess (whiteToMove chess) in
      if (chk : bool) then Ok ["CHECK!"] else Ok [].

(** ** Move notation *)

(** The one-character text that [%c] prints for the [char] holding [z]. *)
Definition chr (z : Z) : string :=
  String (Ascii.ascii_of_N (Z.to_N (z mod 256))) EmptyString.

(** The C string that starts at a buffer holding the characters [s]: it ends
    before the first NUL. *)
Fixpoint cstring (s : string) : string :=
  match s with
  | EmptyString => EmptyString
  | String a s' =>
      if Ascii.eqb a Ascii.zero then EmptyString else String a (cstring s')
  end.

(** [move2chars(move)]: the string that the returned pointer points to.
    [SDL_snprintf] writes the characters of the format into the static
    buffer, which is long enough for all of them, and the string ends at the
    first NUL among them; a file or rank is NUL only for a square far outside
    the board.  The files and ranks are computed in a [char]; for the
    squares of the board they are the letters a to h and the digits 1 to
    8. *)
Definition move2chars (move : Move) : string :=
  let fromFile := chr (97 + fromCol move) in
  let fromRank := chr (49 + fromRow move) in
  let toFile := chr (97 + toCol move) in
  let toRank := chr (49 + toRow move) in
  cstring
    (if isCastling move then
       if toCol move =? 6 then "O-O" else "O-O-O"
     else if isPromotion move then
       fromFile +:+ fromRank +:+ "-" +:+ toFile +:+ toRank +:+ "=Q"
     else if isEnPassant move then
       fromFile +:+ fromRank +:+ " x " +:+ toFile +:+ toRank +:+ " e.p."
     else if negb (peq (captured move) EMPTY) then
       fromFile +:+ fromRank +:+ " x " +:+ toFile +:+ toRank
     else
       fromFile +:+ fromRank +:+ "-" +:+ toFile +:+ toRank).

(** ** The engine's run and the hand-off *)

Definition set_nodesSearched (n : Z) (e : Engine) : Engine :=
  mkEngine n (depthCompleted e) (searching e) (hasMove e) (resultMove e).

Definition set_depthCompleted (d : Z) (e : Engine) : Engine :=
  mkEngine (nodesSearched e) d (searching e) (hasMove e) (resultMove e).

Definition set_searching (s : Z) (e : Engine) : Engine :=
  mkEngine (nodesSearched e) (depthCompleted e) s (hasMove e) (resultMove e).

Definition set_hasMove (h : bool) (e : Engine) : Engine :=
  mkEngine (nodesSearched e) (depthCompleted e) (searching e) h (resultMove e).

Definition set_resultMove (m : Move) (e : Engine) : Engine :=
  mkEngine (nodesSearched e) (depthCompleted e) (searching e) (hasMove e) m.

(** One round of the deepening loop of [engine_thread_func]. *)
Definition deepenStep (fuel : nat) (acc : Move * ChessState * Engine) (d : Z)
    : res (Move * ChessState * Engine) :=
  let '(_, snapshot, engine) := acc in
  let* '(best, snapshot, engine) := findBestMove fuel snapshot d engine in
  Ok (best, snapshot, set_depthCompleted d engine).

(** [engine_thread_func] as it runs when nothing else writes the engine
    fields meanwhile: the body between the two locked sections works on its
    own copy of the position, and the locks themselves change no data.
    [chess] is [state->chess] at the time of the copy; the result is the
    engine record at the end. *)
Definition engine_thread_func (fuel : nat) (chess : ChessState) (engine : Engine)
    : res Engine :=
  let engine := set_nodesSearched 0 engine in
  let engine := set_depthCompleted 0 engine in
  let engine := set_searching 1 engine in
  let snapshot := chess in
  let* '(best, _, engine) :=
    foldM (deepenStep fuel) [1; 2; 3; 4; 5] (zeroMove, snapshot, engine) in
  let engine := set_resultMove best engine in
  let engine := set_hasMove true engine in
  Ok (set_searching 0 engine).

(** The part of [SDL_AppIterate] after the drawing: the poll of the hand-off
    slot and, if a move is there, its application (the join of the finished
    thread is left out).  The result carries the lines printed, without
    their final newline. *)
Definition pollEngine (chess : ChessState) (engine : Engine)
    : res (ChessState * Engine * list string) :=
  if hasMove engine then
    let engineMoveLocal := resultMove engine in
    let engine := set_hasMove false engine in
    let* '(chess, _) := makeMove chess engineMoveLocal (Some undoLocal) in
    let* lines := announce chess in
    Ok (chess, engine, ("Engine move: " +:+ move2chars engineMoveLocal) :: lines)
  else Ok (chess, engine, []).

(** ** Clicks on the board *)

Definition set_selected (r c : Z) (s : ChessState) : ChessState :=
  mkChess (board s) (whiteToMove s) r c (engineMove s)
    (engineWhite s) (enginePending s) (hasCastledWhite s) (hasCastledBlack s)
    (enPassantCol s).

(** The test [clickedPiece != EMPTY && ((whiteToMove && !isBlack(clickedPiece))
    || (!whiteToMove && isBlack(clickedPiece)))]. *)
Definition selectable (chess : ChessState) (clickedPiece : PieceType) : bool :=
  negb (peq clickedPiece EMPTY)
  && ((whiteToMove chess && negb (isBlack clickedPiece))
      || (negb (whiteToMove chess) && isBlack clickedPiece)).

(** The left-click branch of [SDL_AppEvent] for the square [(row, col)] that
    the pointer is over.  The result carries the position, whether a move
    was played (the engine thread is then started if none is running) and
    the lines printed. *)
Definition clickSquare (chess : ChessState) (row col : Z)
    : res (ChessState * bool * list string) :=
  if eqb (whiteToMove chess) (engineWhite chess) then Ok (chess, false, []) else
  let* clickedPiece := rd chess row col in
  let selR := selectedRow chess in
  let selC := selectedCol chess in
  let hasSelection := (selR >=? 0) && (selC >=? 0) in
  if hasSelection then
    if (selR =? row) && (selC =? col) then Ok (set_selected (-1) (-1) chess, false, [])
    else
      let* legal := isLegalMove chess selR selC row col in
      if (legal : bool) then
        let* moving := rd chess selR selC in
        let* target := rd chess row col in
        let castling :=
          (peq moving WHITE_KING || peq moving BLACK_KING) && (selC =? 4)
          && (Z.abs (col - selC) =? 2) in
        let promotion :=
          (peq moving WHITE_PAWN && (row =? 7)) || (peq moving BLACK_PAWN && (row =? 0)) in
        let* ep := andM ((peq moving WHITE_PAWN || peq moving BLACK_PAWN)
                         && negb (selC =? col))
                     (let* t := rd chess row col in Ok (peq t EMPTY)) in
        let* move :=
          if (ep : bool) then
            let capRow := if isWhite moving then row - 1 else row + 1 in
            let* cap := rd chess capRow col in
            Ok (mkMove selR selC row col cap promotion true castling)
          else Ok (mkMove selR selC row col target promotion false castling) in
        let* '(chess, _) := makeMove chess move (Some undoLocal) in
        let chess := set_selected (-1) (-1) chess in
        let* lines := announce chess in
        Ok (chess, true, lines)
      else if selectable chess clickedPiece
           then Ok (set_selected row col chess, false, [])
           else Ok (set_selected (-1) (-1) chess, false, [])
  else if selectable chess clickedPiece
       then Ok (set_selected row col chess, false, [])
       else Ok (chess, false, []).


(** ** Well-formed positions and pure reads *)

(** The board array has its 64 cells. *)
Definition wf (chess : ChessState) : Prop := length (board chess) = 64%nat.

(** The piece on an in-range square, as a total function. *)
Definition get (chess : ChessState) (r c : Z) : PieceType :=
  default EMPTY (board chess !! idx r c).

(** The position with [board[r][c]] replaced. *)
Definition upd (chess : ChessState) (r c : Z) (p : PieceType) : ChessState :=
  set_board (<[idx r c := p]> (board chess)) chess.

(** [(r, c)] is a square of the board. *)
Definition onBoard (r c : Z) : Prop := 0 <= r < 8 /\ 0 <= c < 8.

(** Exactly one king of each colour stands on the board. *)
Definition oneKingEach (chess : ChessState) : Prop :=
  length (filter (fun p => p = WHITE_KING) (board chess)) = 1%nat /\
  length (filter (fun p => p = BLACK_KING) (board chess)) = 1%nat.

(** ** Definitions used to state and prove the properties *)

(** Two squares on a common row, column or diagonal. *)
Definition aligned (fr fc tr tc : Z) : Prop :=
  fr = tr \/ fc = tc \/ Z.abs (fr - tr) = Z.abs (fc - tc).

(** The number of king steps between two squares. *)
Definition dist (fr fc tr tc : Z) : Z := Z.max (Z.abs (tr - fr)) (Z.abs (tc - fc)).

(** What [pawnMove] computes, read off the board. *)
Definition pawnMove_val (chess : ChessState) (fr fc tr tc : Z) : bool :=
  let p := get chess fr fc in
  let dir := if isWhite p then 1 else -1 in
  let startRow := if isWhite p then 1 else 6 in
  ((fc =? tc) && (tr =? fr + dir) && peq (get chess tr tc) EMPTY)
  || ((fc =? tc) && (fr =? startRow) && (tr =? fr + 2 * dir)
      && peq (get chess (fr + dir) fc) EMPTY && peq (get chess tr tc) EMPTY)
  || ((Z.abs (tc - fc) =? 1) && (tr =? fr + dir) && negb (peq (get chess tr tc) EMPTY)).

(** The conditions under which [canCastle] accepts. *)
Definition castleOK (chess : ChessState) (fr fc tc : Z) : Prop :=
  let white := isWhite (get chess fr fc) in
  let rookCol := if tc =? 6 then 7 else 0 in
  fr = (if white then 0 else 7) /\ fc = 4 /\
  flag_get (if white then hasCastledWhite chess else hasCastledBlack chess)
    (if tc =? 6 then 0 else 1) = false /\
  get chess fr rookCol = (if white then WHITE_ROOK else BLACK_ROOK) /\
  (forall c, Z.min fc rookCol < c < Z.max fc rookCol -> get chess fr c = EMPTY) /\
  isKingInCheck chess white = Ok false /\
  (forall c, Z.min fc tc <= c <= Z.max fc tc ->
     isSquareAttacked chess fr c (negb white) = Ok false).

(** The [switch] of [isLegalMove]. *)
Definition pieceMove (chess : ChessState) (p : PieceType) (fr fc tr tc : Z) : res bool :=
  match p with
  | WHITE_PAWN | BLACK_PAWN => pawnMove chess fr fc tr tc
  | WHITE_KNIGHT | BLACK_KNIGHT => knightMove chess fr fc tr tc
  | WHITE_BISHOP | BLACK_BISHOP => bishopMove chess fr fc tr tc
  | WHITE_ROOK | BLACK_ROOK => rookMove chess fr fc tr tc
  | WHITE_QUEEN | BLACK_QUEEN => queenMove chess fr fc tr tc
  | WHITE_KING | BLACK_KING => kingMove chess fr fc tr tc
  | EMPTY => Ok false
  end.

(** The scratch copy on which [isLegalMove] tries the move out. *)
Definition scratch (chess : ChessState) (fr fc tr tc : Z) : ChessState :=
  upd (upd chess tr tc (get chess fr fc)) fr fc EMPTY.

(** The move [getAllMoves] records for an accepted pair of squares. *)
Definition plainMove (chess : ChessState) (r c r2 c2 : Z) : Move :=
  let p := get chess r c in
  mkMove r c r2 c2 (get chess r2 c2)
    ((peq p WHITE_PAWN && (r2 =? 7)) || (peq p BLACK_PAWN && (r2 =? 0)))
    false
    ((peq p WHITE_KING || peq p BLACK_KING) && (c =? 4) && (Z.abs (c2 - c) =? 2)).

(** [m] is a move of the side to move that [isLegalMove] accepts. *)
Definition generated (chess : ChessState) (m : Move) : Prop :=
  exists r c r2 c2,
    onBoard r c /\ onBoard r2 c2 /\
    isWhite (get chess r c) = whiteToMove chess /\
    isLegalMove chess r c r2 c2 = Ok true /\
    m = plainMove chess r c r2 c2.

(** Two positions that differ at most in castling flags and en-passant file. *)
Definition sameButRights (s1 s2 : ChessState) : Prop :=
  board s1 = board s2 /\ whiteToMove s1 = whiteToMove s2 /\
  selectedRow s1 = selectedRow s2 /\ selectedCol s1 = selectedCol s2 /\
  engineMove s1 = engineMove s2 /\ engineWhite s1 = engineWhite s2 /\
  enginePending s1 = enginePending s2.

(** The piece that [makeMove] puts on the destination square. *)
Definition promoted (move : Move) (moving : PieceType) : PieceType :=
  if isPromotion move then (if isWhite moving then WHITE_QUEEN else BLACK_QUEEN)
  else moving.

(** What [makeMove] writes into an undo record that held [u0], for a move
    that is not en passant. *)
Definition undoOf (chess : ChessState) (move : Move) (u0 : UndoInfo) : UndoInfo :=
  mkUndo (hasCastledWhite chess) (hasCastledBlack chess) (enPassantCol chess)
    (captured move) (capturedRow u0) (capturedCol u0).

(** The position after a move that is neither castling nor en passant. *)
Definition afterPlain (chess : ChessState) (move : Move) : ChessState :=
  let moving := promoted move (get chess (fromRow move) (fromCol move)) in
  let marked := markRights moving move (markEnPassant moving move chess) in
  let moved := upd (upd marked (toRow move) (toCol move) moving)
                 (fromRow move) (fromCol move) EMPTY in
  set_whiteToMove (negb (whiteToMove moved)) moved.

(** What the record behind [_undo] holds after [makeMove]. *)
Definition undoOut (chess : ChessState) (move : Move) (_undo : option UndoInfo)
    : option UndoInfo :=
  match _undo with
  | Some u0 => Some (undoOf chess move u0)
  | None => None
  end.

(** The fields of the user interface and of the engine hand-off. *)
Definition meta (s : ChessState) : Z * Z * Move * bool * bool :=
  (selectedRow s, selectedCol s, engineMove s, engineWhite s, enginePending s).

(** The corner file the rook leaves and the file it lands on in castling. *)
Definition rookFromCol (m : Move) : Z := if toCol m =? 6 then 7 else 0.

Definition rookToCol (m : Move) : Z := if toCol m =? 6 then 5 else 3.

(** The flag that the castling branch of [makeMove] sets. *)
Definition castleFlag (moving : PieceType) (m : Move) (s : ChessState) : ChessState :=
  if peq moving WHITE_KING
  then set_hasCastledWhite
         (flag_set (hasCastledWhite s) (if toCol m =? 6 then 0 else 1) true) s
  else set_hasCastledBlack
         (flag_set (hasCastledBlack s) (if toCol m =? 6 then 0 else 1) true) s.

(** The position after a castling move. *)
Definition afterCastle (chess : ChessState) (m : Move) : ChessState :=
  let moving := get chess (fromRow m) (fromCol m) in
  let rook := get chess (fromRow m) (rookFromCol m) in
  let rooked := upd (upd chess (fromRow m) (rookToCol m) rook)
                  (fromRow m) (rookFromCol m) EMPTY in
  let flagged := castleFlag moving m rooked in
  let moving := promoted m moving in
  let marked := markRights moving m (markEnPassant moving m flagged) in
  let moved := upd (upd marked (toRow m) (toCol m) moving)
                 (fromRow m) (fromCol m) EMPTY in
  set_whiteToMove (negb (whiteToMove moved)) moved.

(** [p] passes the colour filter of [isSquareAttacked]. *)
Definition attacker (byWhite : bool) (p : PieceType) : Prop :=
  p <> EMPTY /\ (if byWhite then isWhite p else isBlack p) = true.

(** [(r, c)] lies strictly between some board square and [(kr, kc)] on a
    common line. *)
Definition blocks (r c kr kc : Z) : Prop :=
  exists fr fc k,
    onBoard fr fc /\ aligned fr fc kr kc /\ 0 < k < dist fr fc kr kc /\
    r = fr + k * sgn kr fr /\ c = fc + k * sgn kc fc.

(** The king [isKingInCheck] looks for. *)
Definition kingOf (white : bool) : PieceType :=
  if white then WHITE_KING else BLACK_KING.

(** The facts about a generated move that make/unmake rely on. *)
Record genFacts (chess : ChessState) (m : Move) : Prop := {
  gf_from : onBoard (fromRow m) (fromCol m);
  gf_to : onBoard (toRow m) (toCol m);
  gf_distinct : fromRow m <> toRow m \/ fromCol m <> toCol m;
  gf_piece : get chess (fromRow m) (fromCol m) <> EMPTY;
  gf_colour : isWhite (get chess (fromRow m) (fromCol m)) = whiteToMove chess;
  gf_ep : isEnPassant m = false;
  gf_captured : captured m = get chess (toRow m) (toCol m);
  gf_promotion :
    isPromotion m = true ->
    get chess (fromRow m) (fromCol m) = WHITE_PAWN \/
    get chess (fromRow m) (fromCol m) = BLACK_PAWN;
  gf_safe :
    isKingInCheck (scratch chess (fromRow m) (fromCol m) (toRow m) (toCol m))
      (isWhite (get chess (fromRow m) (fromCol m))) = Ok false;
  gf_castling :
    isCastling m = true ->
    isPromotion m = false /\ fromCol m = 4 /\ toRow m = fromRow m /\
    (toCol m = 6 \/ toCol m = 2) /\ (fromRow m = 0 \/ fromRow m = 7) /\
    get chess (fromRow m) (fromCol m)
      = kingOf (isWhite (get chess (fromRow m) (fromCol m))) /\
    get chess (fromRow m) (rookFromCol m)
      = (if isWhite (get chess (fromRow m) (fromCol m))
         then WHITE_ROOK else BLACK_ROOK) /\
    get chess (fromRow m) (rookToCol m) = EMPTY /\
    get chess (toRow m) (toCol m) = EMPTY
}.

(** A move onto an empty square with no flag set. *)
Definition quiet (r c r2 c2 : Z) : Move := mkMove r c r2 c2 EMPTY false false false.

(** [board[r][c] = p] on a bare list, for building example positions. *)
Definition place (b : list PieceType) (x : Z * Z * PieceType) : list PieceType :=
  let '(r, c, p) := x in <[idx r c := p]> b.

(** A position with the pieces given as (row, column, piece), White or Black
    to move, no castling flag set and no en-passant file. *)
Definition position (pieces : list (Z * Z * PieceType)) (white : bool) : ChessState :=
  mkChess (fold_left place pieces (replicate 64 EMPTY))
    white (-1) (-1) zeroMove false false (false, false) (false, false) (-1).

(** White king g1 behind its pawns f2 g2 h2, black rook a1, black king e8:
    White to move is mated on the back rank. *)
Definition backRankMate : ChessState :=
  position [(0, 6, WHITE_KING); (1, 5, WHITE_PAWN); (1, 6, WHITE_PAWN);
            (1, 7, WHITE_PAWN); (0, 0, BLACK_ROOK); (7, 4, BLACK_KING)] true.

(** White king h1, black queen g3, black king e8: White to move has no move
    and is not in check. *)
Definition cornerStalemate : ChessState :=
  position [(0, 7, WHITE_KING); (2, 6, BLACK_QUEEN); (7, 4, BLACK_KING)] true.

(** An idle engine with its counters at zero. *)
Definition engine0 : Engine := mkEngine 0 0 0 false zeroMove.

(** The two kings on their home squares and a white pawn on a2. *)
Definition lonePawn : ChessState :=
  position [(0, 4, WHITE_KING); (7, 4, BLACK_KING); (1, 0, WHITE_PAWN)] true.

(** The same without the pawn. *)
Definition bareKings : ChessState :=
  position [(0, 4, WHITE_KING); (7, 4, BLACK_KING)] true.

(** White king e1 and rook h1, black king e8, black pawn e2: the pawn covers
    d1 and f1. *)
Definition pawnCoversF1 : ChessState :=
  position [(0, 4, WHITE_KING); (0, 7, WHITE_ROOK); (7, 4, BLACK_KING);
            (1, 4, BLACK_PAWN)] true.

(** White king e1 and rook h1, black king e8, black pawn h2: the pawn covers
    g1. *)
Definition pawnCoversG1 : ChessState :=
  position [(0, 4, WHITE_KING); (0, 7, WHITE_ROOK); (7, 4, BLACK_KING);
            (1, 7, BLACK_PAWN)] true.

(** The pawn attack of the specification (diagonal-capture geometry): a pawn
    of the colour [byWhite] stands on [(fr, fc)] and [(r, c)] is one diagonal
    step ahead of it, whatever stands on [(r, c)]. *)
Definition pawnAttacks (chess : ChessState) (byWhite : bool) (fr fc r c : Z) : bool :=
  peq (get chess fr fc) (if byWhite then WHITE_PAWN else BLACK_PAWN)
  && (Z.abs (c - fc) =? 1) && (r =? fr + (if byWhite then 1 else -1)).

(** White king e1, black king e8, white pawn e2, black pawn d4, White to
    move. *)
Definition beforePush : ChessState :=
  position [(0, 4, WHITE_KING); (7, 4, BLACK_KING); (1, 4, WHITE_PAWN);
            (3, 3, BLACK_PAWN)] true.

(** The position after [makeMove] has played e2-e4 in [beforePush]. *)
Definition afterPush : ChessState :=
  mkChess (board (position [(0, 4, WHITE_KING); (7, 4, BLACK_KING);
                            (3, 4, WHITE_PAWN); (3, 3, BLACK_PAWN)] false))
    false (-1) (-1) zeroMove false false (false, false) (false, false) 4.

(** A result other than running out of fuel. *)
Definition fuelled {A : Type} (m : res A) : Prop := m <> OutOfFuel.

(** The row of the pawn that an en-passant move removes. *)
Definition victimRow (chess : ChessState) (m : Move) : Z :=
  if isWhite (get chess (fromRow m) (fromCol m)) then toRow m - 1 else toRow m + 1.

(** The position after [makeMove], whatever the flags of the move. *)
Definition afterMove (chess : ChessState) (m : Move) : ChessState :=
  let moving := get chess (fromRow m) (fromCol m) in
  let castled :=
    if isCastling m then
      castleFlag moving m
        (upd (upd chess (fromRow m) (rookToCol m) (get chess (fromRow m) (rookFromCol m)))
           (fromRow m) (rookFromCol m) EMPTY)
    else chess in
  let taken :=
    if isEnPassant m then upd castled (victimRow chess m) (toCol m) EMPTY
    else castled in
  let moving := promoted m moving in
  let marked := markRights moving m (markEnPassant moving m taken) in
  let moved := upd (upd marked (toRow m) (toCol m) moving)
                 (fromRow m) (fromCol m) EMPTY in
  set_whiteToMove (negb (whiteToMove moved)) moved.

(** What the record behind [_undo] holds after [makeMove], whatever the
    flags of the move. *)
Definition undoAfter (chess : ChessState) (m : Move) (_undo : option UndoInfo)
    : option UndoInfo :=
  match _undo with
  | Some u0 =>
      Some (mkUndo (hasCastledWhite chess) (hasCastledBlack chess)
              (enPassantCol chess) (captured m)
              (if isEnPassant m then victimRow chess m else capturedRow u0)
              (if isEnPassant m then toCol m else capturedCol u0))
  | None => None
  end.

(** The squares [makeMove] touches are on the board. *)
Definition playable (chess : ChessState) (m : Move) : Prop :=
  onBoard (fromRow m) (fromCol m) /\ onBoard (toRow m) (toCol m) /\
  (isEnPassant m = true -> onBoard (victimRow chess m) (toCol m)).

(** The engine fields that the search does not write. *)
Definition engineRest (e : Engine) : Z * Z * bool * Move :=
  (depthCompleted e, searching e, hasMove e, resultMove e).

(** What a search call does to the position and the engine, apart from the
    score: position restored, and the engine fields other than the node
    counter as they were. *)
Definition searchOK (search : ChessState -> Engine -> res (Z * ChessState * Engine))
    : Prop :=
  forall c e, wf c ->
    exists v e', search c e = Ok (v, c, e') /\
      -10000 <= v <= 10000 /\ engineRest e' = engineRest e.

(** The search call that [findBestMove] makes at the root, by the side to
    move. *)
Definition rootSearch (fuel : nat) (depth : Z) (chess : ChessState)
    : ChessState -> Engine -> res (Z * ChessState * Engine) :=
  fun c e => minimax fuel c (depth - 1) (negb (whiteToMove chess)) e.

(** The comparison that replaces the best score at the root. *)
Definition rootBetter (chess : ChessState) : Z -> Z -> bool :=
  if whiteToMove chess then Z.gtb else Z.ltb.

(** [search] run on [c] can return the score [v], leaving [c] as it was. *)
Definition seen (search : ChessState -> Engine -> res (Z * ChessState * Engine))
    (c : ChessState) (v : Z) : Prop :=
  exists e e', search c e = Ok (v, c, e').

(** The state of the loop of [findBestMove] after the moves [P]. *)
Definition bestSoFar (search : ChessState -> Engine -> res (Z * ChessState * Engine))
    (better : Z -> Z -> bool) (chess : ChessState) (e0 : Engine)
    (P : list Move) (acc : Z * Move * ChessState * Engine) : Prop :=
  let '(bestEval, bestMove, c, e) := acc in
  c = chess /\ engineRest e = engineRest e0 /\
  In bestMove P /\ seen search (afterMove chess bestMove) bestEval /\
  forall x, In x P ->
    exists v, seen search (afterMove chess x) v /\ better v bestEval = false.

(** [isLegalMove] as a boolean: true when it returns true. *)
Definition legal (chess : ChessState) (r c r2 c2 : Z) : bool :=
  match isLegalMove chess r c r2 c2 with Ok b => b | _ => false end.

(** The colour filter of [getAllMoves]: [p] is a piece of the side to move. *)
Definition mover (chess : ChessState) (p : PieceType) : bool :=
  negb (peq p EMPTY) && negb (whiteToMove chess && isBlack p)
  && negb (negb (whiteToMove chess) && isWhite p).

(** The move from [(r, c)] to [dst], if [isLegalMove] accepts it. *)
Definition candidatesTo (chess : ChessState) (r c : Z) (dst : Z * Z) : list Move :=
  if legal chess r c (fst dst) (snd dst)
  then [plainMove chess r c (fst dst) (snd dst)] else [].

(** The accepted moves of the piece on [src], in the order of the scan, when
    that piece belongs to the side to move. *)
Definition candidatesFrom (chess : ChessState) (src : Z * Z) : list Move :=
  if mover chess (get chess (fst src) (snd src))
  then flat_map (candidatesTo chess (fst src) (snd src)) squares else [].

(** The accepted moves of the side to move, in the order of the scan. *)
Definition candidates (chess : ChessState) : list Move :=
  flat_map (candidatesFrom chess) squares.

(** Both squares of the move are on the board. *)
Definition onBoardMove (m : Move) : Prop :=
  onBoard (fromRow m) (fromCol m) /\ onBoard (toRow m) (toCol m).

(** The selection of the user interface is empty, or it is a square of the
    board that holds a piece of the side to move. *)
Definition selOK (chess : ChessState) : Prop :=
  (selectedRow chess = -1 /\ selectedCol chess = -1) \/
  (onBoard (selectedRow chess) (selectedCol chess) /\
   get chess (selectedRow chess) (selectedCol chess) <> EMPTY /\
   isWhite (get chess (selectedRow chess) (selectedCol chess)) = whiteToMove chess).

(** White king e1, black king e8, white pawn e5, black pawn d5, White to
    move. *)
Definition pawnsAbreast : ChessState :=
  position [(0, 4, WHITE_KING); (7, 4, BLACK_KING); (4, 4, WHITE_PAWN);
            (4, 3, BLACK_PAWN)] true.

(** Every flag set in [f] is set in [g]. *)
Definition flagsLe (f g : bool * bool) : Prop :=
  (fst f = true -> fst g = true) /\ (snd f = true -> snd g = true).

(** * Lemmas *)

Lemma inBounds_true r c : inBounds r c = true <-> onBoard r c.
Proof. unfold inBounds, onBoard. rewrite !andb_true_iff. lia. Qed.

Lemma inBounds_false r c : inBounds r c = false <-> ~ onBoard r c.
Proof. rewrite <- inBounds_true. destruct (inBounds r c); intuition congruence. Qed.

Lemma onBoard_inBounds r c : onBoard r c -> inBounds r c = true.
Proof. apply inBounds_true. Qed.

Lemma idx_lt r c : onBoard r c -> (idx r c < 64)%nat.
Proof. unfold onBoard, idx. lia. Qed.

Lemma idx_inj r c r' c' :
  onBoard r c -> onBoard r' c' -> idx r c = idx r' c' -> r = r' /\ c = c'.
Proof. unfold onBoard, idx. lia. Qed.

Lemma rd_get chess r c : wf chess -> onBoard r c -> rd chess r c = Ok (get chess r c).
Proof.
  intros Hwf Hb. unfold rd, get. rewrite (onBoard_inBounds _ _ Hb).
  destruct (lookup_lt_is_Some_2 (board chess) (idx r c)) as [p Hp].
  - rewrite Hwf. now apply idx_lt.
  - now rewrite Hp.
Qed.

Lemma rd_Ok chess r c p : rd chess r c = Ok p -> onBoard r c /\ get chess r c = p.
Proof.
  unfold rd, get. destruct (inBounds r c) eqn:Hb; [|discriminate].
  apply inBounds_true in Hb. destruct (board chess !! idx r c); [|discriminate].
  intros [= ->]. auto.
Qed.

Lemma wr_upd chess r c p : wf chess -> onBoard r c -> wr chess r c p = Ok (upd chess r c p).
Proof.
  intros Hwf Hb. unfold wr, upd. rewrite (onBoard_inBounds _ _ Hb).
  apply idx_lt in Hb. rewrite Hwf.
  destruct (Nat.ltb_spec (idx r c) 64); [reflexivity | lia].
Qed.

Lemma wf_upd chess r c p : wf chess -> wf (upd chess r c p).
Proof. unfold wf, upd. simpl. now rewrite length_insert. Qed.

Lemma get_upd_same chess r c p : wf chess -> onBoard r c -> get (upd chess r c p) r c = p.
Proof.
  intros Hwf Hb. unfold get, upd. simpl.
  rewrite list_lookup_insert_eq; [reflexivity|].
  rewrite Hwf. now apply idx_lt.
Qed.

Lemma get_upd_other chess r c p r' c' :
  onBoard r c -> onBoard r' c' -> (r <> r' \/ c <> c') ->
  get (upd chess r c p) r' c' = get chess r' c'.
Proof.
  intros Hb Hb' Hne. unfold get, upd. simpl.
  rewrite list_lookup_insert_ne; [reflexivity|].
  intros E. apply idx_inj in E; auto. lia.
Qed.

Lemma get_upd chess r c p r' c' :
  wf chess -> onBoard r c -> onBoard r' c' ->
  get (upd chess r c p) r' c' =
    if bool_decide (r = r' /\ c = c') then p else get chess r' c'.
Proof.
  intros Hwf Hb Hb'. case_bool_decide as E.
  - destruct E as [<- <-]. now apply get_upd_same.
  - apply get_upd_other; auto. lia.
Qed.

(** Two well-formed boards that agree on every square are equal. *)
Lemma board_ext c1 c2 :
  wf c1 -> wf c2 ->
  (forall r c, onBoard r c -> get c1 r c = get c2 r c) ->
  board c1 = board c2.
Proof.
  intros H1 H2 H. apply list_eq. intros i.
  destruct (Nat.lt_ge_cases i 64) as [Hi|Hi].
  - specialize (H (Z.of_nat i / 8) (Z.of_nat i mod 8)).
    assert (Hb : onBoard (Z.of_nat i / 8) (Z.of_nat i mod 8)).
    { unfold onBoard. split.
      - split; [apply Z.div_pos; lia | apply Z.div_lt_upper_bound; lia].
      - apply Z.mod_pos_bound. lia. }
    specialize (H Hb). unfold get in H.
    assert (E : idx (Z.of_nat i / 8) (Z.of_nat i mod 8) = i).
    { unfold idx. rewrite <- Z.div_mod by lia. apply Nat2Z.id. }
    rewrite E in H.
    destruct (lookup_lt_is_Some_2 (board c1) i) as [p1 Hp1]; [rewrite H1; lia|].
    destruct (lookup_lt_is_Some_2 (board c2) i) as [p2 Hp2]; [rewrite H2; lia|].
    rewrite Hp1, Hp2 in *. simpl in H. now subst.
  - rewrite !(proj2 (lookup_ge_None _ _)); auto; [rewrite H2 | rewrite H1]; lia.
Qed.

Lemma in_range8 x : In x range8 <-> 0 <= x < 8.
Proof. unfold range8. simpl. lia. Qed.

Lemma in_squares r c : In (r, c) squares <-> onBoard r c.
Proof.
  unfold squares, onBoard. rewrite in_flat_map. split.
  - intros (x & Hx & Hin). apply in_map_iff in Hin as (y & [= <- <-] & Hy).
    apply in_range8 in Hx, Hy. auto.
  - intros [Hr Hc]. exists r. split; [now apply in_range8|].
    apply in_map_iff. exists c. split; [reflexivity | now apply in_range8].
Qed.

Ltac onb := first [assumption | unfold onBoard in *; lia].

Lemma peq_true p q : peq p q = true <-> p = q.
Proof. unfold peq. apply bool_decide_eq_true. Qed.

Lemma peq_false p q : peq p q = false <-> p <> q.
Proof. unfold peq. apply bool_decide_eq_false. Qed.

Lemma sgn_cases a b :
  (a > b /\ sgn a b = 1) \/ (a = b /\ sgn a b = 0) \/ (a < b /\ sgn a b = -1).
Proof.
  unfold sgn. destruct (Z.gtb_spec a b), (Z.ltb_spec a b); lia.
Qed.

(** *** [pathClear] *)

Lemma pathClear_loop_spec chess dr dc tr tc :
  wf chess -> (dr <> 0 \/ dc <> 0) -> -1 <= dr <= 1 -> -1 <= dc <= 1 ->
  forall (n fuel : nat) r c,
    (n <= fuel)%nat ->
    tr = r + Z.of_nat n * dr -> tc = c + Z.of_nat n * dc ->
    (forall k, 0 <= k < Z.of_nat n -> onBoard (r + k * dr) (c + k * dc)) ->
    exists b, pathClear_loop fuel chess r c dr dc tr tc = Ok b /\
      (b = true <->
       forall k, 0 <= k < Z.of_nat n -> get chess (r + k * dr) (c + k * dc) = EMPTY).
Proof.
  intros Hwf Hd Hdr Hdc. induction n as [|n IH]; intros fuel r c Hf Hr Hc Hon.
  - exists true. split.
    + replace tr with r by lia. replace tc with c by lia.
      destruct fuel; simpl; now rewrite !Z.eqb_refl.
    + split; auto. intros _ k Hk. lia.
  - destruct fuel as [|fuel]; [lia|]. simpl.
    assert (Hne : negb (r =? tr) || negb (c =? tc) = true).
    { apply orb_true_iff. rewrite !negb_true_iff, !Z.eqb_neq. nia. }
    rewrite Hne.
    assert (H0 : onBoard r c).
    { specialize (Hon 0). rewrite !Z.mul_0_l, !Z.add_0_r in Hon. apply Hon. lia. }
    rewrite (rd_get _ _ _ Hwf H0). simpl.
    destruct (peq (get chess r c) EMPTY) eqn:E; simpl.
    + destruct (IH fuel (r + dr) (c + dc)) as (b & Hb & Hiff).
      * lia.
      * lia.
      * lia.
      * intros k Hk. specialize (Hon (k + 1)).
        replace (r + dr + k * dr) with (r + (k + 1) * dr) by lia.
        replace (c + dc + k * dc) with (c + (k + 1) * dc) by lia.
        apply Hon. lia.
      * exists b. split; [exact Hb|]. rewrite Hiff. apply peq_true in E. split.
        -- intros H k Hk. destruct (Z.eq_dec k 0) as [->|Hk0].
           ++ now rewrite !Z.mul_0_l, !Z.add_0_r.
           ++ specialize (H (k - 1)).
              replace (r + dr + (k - 1) * dr) with (r + k * dr) in H by lia.
              replace (c + dc + (k - 1) * dc) with (c + k * dc) in H by lia.
              apply H. lia.
        -- intros H k Hk. specialize (H (k + 1)).
           replace (r + (k + 1) * dr) with (r + dr + k * dr) in H by lia.
           replace (c + (k + 1) * dc) with (c + dc + k * dc) in H by lia.
           apply H. lia.
    + exists false. split; [reflexivity|]. split; [discriminate|].
      intros H. specialize (H 0). rewrite !Z.mul_0_l, !Z.add_0_r in H.
      apply peq_false in E. exfalso. apply E, H. lia.
Qed.

(** On aligned squares [pathClear] returns, and says whether every square
    strictly between the two is empty. *)
Lemma pathClear_spec chess fr fc tr tc :
  wf chess -> onBoard fr fc -> onBoard tr tc -> aligned fr fc tr tc ->
  exists b, pathClear chess fr fc tr tc = Ok b /\
    (b = true <->
     forall k, 0 < k < dist fr fc tr tc ->
       get chess (fr + k * sgn tr fr) (fc + k * sgn tc fc) = EMPTY).
Proof.
  intros Hwf Hf Ht Hal. unfold pathClear.
  destruct (Z.eq_dec (dist fr fc tr tc) 0) as [Hz|Hnz].
  - exists true. split.
    + assert (fr = tr /\ fc = tc) as [-> ->] by (unfold dist in Hz; lia).
      unfold sgn. rewrite !Z.gtb_ltb, !Z.ltb_irrefl. simpl.
      now rewrite !Z.add_0_r, !Z.eqb_refl.
    + split; auto. intros _ k Hk. lia.
  - set (dr := sgn tr fr). set (dc := sgn tc fc).
    set (n := Z.to_nat (dist fr fc tr tc - 1)).
    assert (Hn : Z.of_nat n = dist fr fc tr tc - 1).
    { unfold n. rewrite Z2Nat.id; [reflexivity|]. unfold dist in *. lia. }
    destruct (pathClear_loop_spec chess dr dc tr tc Hwf) with
      (n := n) (fuel := 9%nat) (r := fr + dr) (c := fc + dc)
      as (b & Hb & Hiff).
    + unfold dr, dc, dist in *.
      destruct (sgn_cases tr fr) as [[? ->]|[[? ->]|[? ->]]],
               (sgn_cases tc fc) as [[? ->]|[[? ->]|[? ->]]]; lia.
    + unfold dr. destruct (sgn_cases tr fr) as [[? ->]|[[? ->]|[? ->]]]; lia.
    + unfold dc. destruct (sgn_cases tc fc) as [[? ->]|[[? ->]|[? ->]]]; lia.
    + unfold n, dist in *. unfold onBoard in *. lia.
    + rewrite Hn. unfold dr, dist, aligned in *.
      destruct (sgn_cases tr fr) as [[? ->]|[[? ->]|[? ->]]]; lia.
    + rewrite Hn. unfold dc, dist, aligned in *.
      destruct (sgn_cases tc fc) as [[? ->]|[[? ->]|[? ->]]]; lia.
    + rewrite Hn. intros k Hk. unfold dr, dc, dist, aligned, onBoard in *.
      destruct (sgn_cases tr fr) as [[? ->]|[[? ->]|[? ->]]],
               (sgn_cases tc fc) as [[? ->]|[[? ->]|[? ->]]]; lia.
    + exists b. split; [exact Hb|]. rewrite Hiff, Hn. split.
      * intros H k Hk. specialize (H (k - 1)).
        replace (fr + dr + (k - 1) * dr) with (fr + k * dr) in H by lia.
        replace (fc + dc + (k - 1) * dc) with (fc + k * dc) in H by lia.
        apply H. lia.
      * intros H k Hk. specialize (H (k + 1)).
        replace (fr + (k + 1) * dr) with (fr + dr + k * dr) in H by lia.
        replace (fc + (k + 1) * dc) with (fc + dc + k * dc) in H by lia.
        apply H. lia.
Qed.

(** *** The piece predicates on board squares *)

Lemma pawnMove_get chess fr fc tr tc :
  wf chess -> onBoard fr fc -> onBoard tr tc ->
  pawnMove chess fr fc tr tc = Ok (pawnMove_val chess fr fc tr tc).
Proof.
  intros Hwf Hf Ht. unfold pawnMove, pawnMove_val.
  rewrite (rd_get _ fr fc) by auto. cbn [bind].
  rewrite (rd_get _ tr tc) by auto. cbn [bind].
  destruct (isWhite (get chess fr fc)).
  - destruct (fr =? 1) eqn:E3.
    + apply Z.eqb_eq in E3. rewrite (rd_get _ (fr + 1) fc) by onb. cbn [bind].
      destruct (fc =? tc), (tr =? fr + 1), (tr =? fr + 2 * 1),
        (Z.abs (tc - fc) =? 1), (peq (get chess tr tc) EMPTY),
        (peq (get chess (fr + 1) fc) EMPTY); reflexivity.
    + destruct (fc =? tc), (tr =? fr + 1), (tr =? fr + 2 * 1),
        (Z.abs (tc - fc) =? 1), (peq (get chess tr tc) EMPTY); reflexivity.
  - destruct (fr =? 6) eqn:E3.
    + apply Z.eqb_eq in E3. rewrite (rd_get _ (fr + -1) fc) by onb. cbn [bind].
      destruct (fc =? tc), (tr =? fr + -1), (tr =? fr + 2 * -1),
        (Z.abs (tc - fc) =? 1), (peq (get chess tr tc) EMPTY),
        (peq (get chess (fr + -1) fc) EMPTY); reflexivity.
    + destruct (fc =? tc), (tr =? fr + -1), (tr =? fr + 2 * -1),
        (Z.abs (tc - fc) =? 1), (peq (get chess tr tc) EMPTY); reflexivity.
Qed.

Lemma rookMove_total chess fr fc tr tc :
  wf chess -> onBoard fr fc -> onBoard tr tc ->
  exists b, rookMove chess fr fc tr tc = Ok b.
Proof.
  intros Hwf Hf Ht. unfold rookMove.
  destruct (negb (fr =? tr) && negb (fc =? tc)) eqn:E; [eauto|].
  destruct (pathClear_spec chess fr fc tr tc) as (b & Hb & _); eauto.
  unfold aligned. apply andb_false_iff in E.
  rewrite !negb_false_iff, !Z.eqb_eq in E. lia.
Qed.

Lemma bishopMove_total chess fr fc tr tc :
  wf chess -> onBoard fr fc -> onBoard tr tc ->
  exists b, bishopMove chess fr fc tr tc = Ok b.
Proof.
  intros Hwf Hf Ht. unfold bishopMove.
  destruct (negb (Z.abs (fr - tr) =? Z.abs (fc - tc))) eqn:E; [eauto|].
  destruct (pathClear_spec chess fr fc tr tc) as (b & Hb & _); eauto.
  unfold aligned. rewrite negb_false_iff, Z.eqb_eq in E. lia.
Qed.

Lemma queenMove_total chess fr fc tr tc :
  wf chess -> onBoard fr fc -> onBoard tr tc ->
  exists b, queenMove chess fr fc tr tc = Ok b.
Proof.
  intros Hwf Hf Ht. unfold queenMove.
  destruct (rookMove_total chess fr fc tr tc) as (a & ->); auto. cbn [bind].
  destruct a; [eauto|]. now apply bishopMove_total.
Qed.

Lemma canPieceAttackSquare_total chess fr fc tr tc :
  wf chess -> onBoard fr fc ->
  exists b, canPieceAttackSquare chess fr fc tr tc = Ok b.
Proof.
  intros Hwf Hf. unfold canPieceAttackSquare.
  destruct (inBounds tr tc) eqn:Hb; cbn [negb]; [|eauto].
  apply inBounds_true in Hb. rewrite (rd_get _ fr fc) by auto. cbn [bind].
  destruct (peq (get chess fr fc) EMPTY); [eauto|].
  destruct (get chess fr fc); eauto using rookMove_total, bishopMove_total,
    queenMove_total; try (rewrite pawnMove_get by auto; eauto);
    unfold knightMove; eauto.
Qed.

Lemma attackedFrom_total chess r c byWhite sq :
  wf chess -> In sq squares ->
  exists b, attackedFrom chess r c byWhite sq = Ok b.
Proof.
  intros Hwf Hin. destruct sq as [fr fc]. apply in_squares in Hin.
  unfold attackedFrom. rewrite (rd_get _ fr fc) by auto. cbn [bind].
  destruct (peq _ _); [eauto|].
  destruct (byWhite && _); [eauto|].
  destruct (negb byWhite && _); [eauto|].
  now apply canPieceAttackSquare_total.
Qed.

Lemma anyM_total {A} (f : A -> res bool) l :
  (forall x, In x l -> exists b, f x = Ok b) -> exists b, anyM f l = Ok b.
Proof.
  induction l as [|x l IH]; intros H; simpl; [eauto|].
  destruct (H x) as (b & ->); [now left|]. cbn [bind].
  destruct b; [eauto|]. apply IH. intros y Hy. apply H. now right.
Qed.

(** [anyM] returns [true] exactly when the body does at some element. *)
Lemma anyM_true {A} (f : A -> res bool) l :
  (forall x, In x l -> exists b, f x = Ok b) ->
  anyM f l = Ok true <-> exists x, In x l /\ f x = Ok true.
Proof.
  induction l as [|x l IH]; intros H; simpl.
  - split; [discriminate | intros (x & [] & _)].
  - destruct (H x) as (b & Hb); [now left|]. rewrite Hb. cbn [bind].
    destruct b.
    + split; auto. intros _. exists x. auto.
    + rewrite IH by (intros y Hy; apply H; now right). split.
      * intros (y & Hy & Hfy). eauto.
      * intros (y & [<-|Hy] & Hfy); [congruence | eauto].
Qed.

Lemma isSquareAttacked_total chess r c byWhite :
  wf chess -> exists b, isSquareAttacked chess r c byWhite = Ok b.
Proof.
  intros Hwf. apply anyM_total. intros sq Hin. now apply attackedFrom_total.
Qed.

Lemma isKingInCheck_loop_total chess whiteKing l :
  wf chess -> (forall sq, In sq l -> In sq squares) ->
  exists b, isKingInCheck_loop chess whiteKing l = Ok b.
Proof.
  intros Hwf. induction l as [|[r c] l IH]; intros Hl; simpl; [eauto|].
  assert (Hb : onBoard r c) by (apply in_squares, Hl; now left).
  rewrite (rd_get _ r c) by auto. cbn [bind].
  destruct (_ || _).
  - now apply isSquareAttacked_total.
  - apply IH. intros sq Hsq. apply Hl. now right.
Qed.

Lemma isKingInCheck_total chess whiteKing :
  wf chess -> exists b, isKingInCheck chess whiteKing = Ok b.
Proof. intros Hwf. apply isKingInCheck_loop_total; auto. Qed.

(** *** Castling *)

Lemma castle_between_loop_spec chess fr step rookCol :
  wf chess -> 0 <= fr < 8 -> (step = 1 \/ step = -1) ->
  forall (n fuel : nat) c,
    (n <= fuel)%nat ->
    rookCol = c + Z.of_nat n * step ->
    (forall k, 0 <= k < Z.of_nat n -> 0 <= c + k * step < 8) ->
    exists b, castle_between_loop fuel chess fr c step rookCol = Ok b /\
      (b = true <->
       forall k, 0 <= k < Z.of_nat n -> get chess fr (c + k * step) = EMPTY).
Proof.
  intros Hwf Hfr Hstep. induction n as [|n IH]; intros fuel c Hf Hr Hon.
  - exists true. split.
    + replace rookCol with c by lia. destruct fuel; simpl; now rewrite Z.eqb_refl.
    + split; auto. intros _ k Hk. lia.
  - destruct fuel as [|fuel]; [lia|]. simpl.
    assert (Hne : negb (c =? rookCol) = true).
    { rewrite negb_true_iff, Z.eqb_neq. nia. }
    rewrite Hne.
    assert (H0 : onBoard fr c).
    { specialize (Hon 0). rewrite Z.mul_0_l, Z.add_0_r in Hon. split; [lia|]. apply Hon. lia. }
    rewrite (rd_get _ _ _ Hwf H0). cbn [bind].
    destruct (peq (get chess fr c) EMPTY) eqn:E; cbn [negb].
    + destruct (IH fuel (c + step)) as (b & Hb & Hiff).
      * lia.
      * lia.
      * intros k Hk. specialize (Hon (k + 1)).
        replace (c + step + k * step) with (c + (k + 1) * step) by lia.
        apply Hon. lia.
      * exists b. split; [exact Hb|]. rewrite Hiff. apply peq_true in E. split.
        -- intros H k Hk. destruct (Z.eq_dec k 0) as [->|Hk0].
           ++ now rewrite Z.mul_0_l, Z.add_0_r.
           ++ specialize (H (k - 1)).
              replace (c + step + (k - 1) * step) with (c + k * step) in H by lia.
              apply H. lia.
        -- intros H k Hk. specialize (H (k + 1)).
           replace (c + (k + 1) * step) with (c + step + k * step) in H by lia.
           apply H. lia.
    + exists false. split; [reflexivity|]. split; [discriminate|].
      intros H. specialize (H 0). rewrite Z.mul_0_l, Z.add_0_r in H.
      apply peq_false in E. exfalso. apply E, H. lia.
Qed.

Lemma castle_transit_loop_spec chess fr step stop byWhite :
  wf chess -> (step = 1 \/ step = -1) ->
  forall (n fuel : nat) c,
    (n <= fuel)%nat ->
    stop = c + Z.of_nat n * step ->
    exists b, castle_transit_loop fuel chess fr c step stop byWhite = Ok b /\
      (b = true <->
       forall k, 0 <= k < Z.of_nat n ->
         isSquareAttacked chess fr (c + k * step) byWhite = Ok false).
Proof.
  intros Hwf Hstep. induction n as [|n IH]; intros fuel c Hf Hr.
  - exists true. split.
    + replace stop with c by lia. destruct fuel; simpl; now rewrite Z.eqb_refl.
    + split; auto. intros _ k Hk. lia.
  - destruct fuel as [|fuel]; [lia|]. simpl.
    assert (Hne : negb (c =? stop) = true).
    { rewrite negb_true_iff, Z.eqb_neq. nia. }
    rewrite Hne.
    destruct (isSquareAttacked_total chess fr c byWhite Hwf) as (a & Ha).
    rewrite Ha. cbn [bind]. destruct a.
    + exists false. split; [reflexivity|]. split; [discriminate|].
      intros H. specialize (H 0). rewrite Z.mul_0_l, Z.add_0_r in H.
      rewrite Ha in H. discriminate H. lia.
    + destruct (IH fuel (c + step)) as (b & Hb & Hiff); [lia | lia |].
      exists b. split; [exact Hb|]. rewrite Hiff. split.
      * intros H k Hk. destruct (Z.eq_dec k 0) as [->|Hk0].
        -- now rewrite Z.mul_0_l, Z.add_0_r.
        -- specialize (H (k - 1)).
           replace (c + step + (k - 1) * step) with (c + k * step) in H by lia.
           apply H. lia.
      * intros H k Hk. specialize (H (k + 1)).
        replace (c + (k + 1) * step) with (c + step + k * step) in H by lia.
        apply H. lia.
Qed.

Ltac reject :=
  exists false; split; [reflexivity|]; split; [discriminate|];
  intros (?&?&?&?&?&?&?); try congruence; try lia.

Lemma canCastle_spec chess fr fc tr tc :
  wf chess -> onBoard fr fc -> tc = 6 \/ tc = 2 ->
  exists b, canCastle chess fr fc tr tc = Ok b /\ (b = true <-> castleOK chess fr fc tc).
Proof.
  intros Hwf Hf Htc. unfold canCastle, castleOK.
  rewrite (rd_get _ fr fc) by onb. cbn [bind].
  set (white := isWhite (get chess fr fc)). clearbody white.
  destruct white; cbn [andb negb].
  all: match goal with
       | |- context [negb (?x =? ?h)] =>
           destruct (Z.eqb_spec x h) as [Hfr|Hfr]; cbn [negb andb]; [subst x|reject]
       end.
  all: destruct (Z.eqb_spec fc 4) as [Hfc|Hfc]; cbn [negb]; [subst fc|reject].
  all: destruct Htc as [Htc|Htc]; subst tc.
  all: change (6 =? 6) with true; change (2 =? 6) with false;
       change (6 >? 4) with true; change (2 >? 4) with false; cbv iota.
  all: match goal with
       | |- context [flag_get ?f ?i] =>
           destruct (flag_get f i) eqn:Hflag; [reject|]
       end.
  all: match goal with
       | |- context [rd ?ch ?r ?c] => rewrite (rd_get ch r c) by onb; cbn [bind]
       end.
  all: match goal with
       | |- context [peq ?p ?q] =>
           destruct (peq p q) eqn:Hrook; cbn [negb];
           [apply peq_true in Hrook | apply peq_false in Hrook; reject]
       end.
  all: match goal with
       | |- context [castle_between_loop ?fuel ?ch ?fr ?c ?step ?rc] =>
           let n := eval vm_compute in (Z.to_nat (Z.abs (rc - c))) in
           destruct (castle_between_loop_spec ch fr step rc ltac:(assumption)
                       ltac:(lia) ltac:(lia) n fuel c ltac:(lia) ltac:(lia)
                       ltac:(intros; lia)) as (clr & Hclr & Hbetween);
           rewrite Hclr; cbn [bind]; destruct clr; cbn [negb]
       end.
  all: try (exists false; split; [reflexivity|]; split; [discriminate|];
            intros (_ & _ & _ & _ & Hb & _);
            enough (false = true) by discriminate;
            apply Hbetween; intros k Hk; apply Hb; lia).
  all: match goal with
       | |- context [isKingInCheck ?ch ?w] =>
           destruct (isKingInCheck_total ch w ltac:(assumption)) as (chk & Hchk);
           rewrite Hchk; cbn [bind]; destruct chk; [reject|]
       end.
  all: match goal with
       | |- context [castle_transit_loop ?fuel ?ch ?fr ?c ?step ?stop ?w] =>
           destruct (castle_transit_loop_spec ch fr step stop w ltac:(assumption)
                       ltac:(lia) 3%nat fuel c ltac:(vm_compute; lia) ltac:(lia))
             as (b & Hb & Htransit);
           exists b; split; [exact Hb|]; rewrite Htransit;
           pose proof (proj1 Hbetween eq_refl) as Hbw
       end.
  all: split;
    [ intros H; repeat split; auto;
      [ intros c Hc;
        match type of Hbw with
        | forall k, _ -> get _ _ (?c0 + k * ?st) = _ =>
            replace c with (c0 + ((c - c0) * st) * st) by lia
        end;
        apply Hbw; lia
      | intros c Hc;
        match type of H with
        | forall k, _ -> isSquareAttacked _ _ (?c0 + k * ?st) _ = _ =>
            replace c with (c0 + ((c - c0) * st) * st) by lia
        end;
        apply H; lia ]
    | intros (_ & _ & _ & _ & _ & _ & Ht) k Hk; apply Ht; lia ].
Qed.

(** *** Legality *)

Lemma kingMove_total chess fr fc tr tc :
  wf chess -> onBoard fr fc -> exists b, kingMove chess fr fc tr tc = Ok b.
Proof.
  intros Hwf Hf. unfold kingMove.
  destruct (_ && _); [eauto|].
  destruct ((fr =? tr) && ((tc =? 6) || (tc =? 2))) eqn:E; [|eauto].
  destruct (canCastle_spec chess fr fc tr tc) as (b & Hb & _); eauto.
  rewrite andb_true_iff, orb_true_iff, !Z.eqb_eq in E. tauto.
Qed.

Lemma pieceMove_total chess p fr fc tr tc :
  wf chess -> onBoard fr fc -> onBoard tr tc ->
  exists b, pieceMove chess p fr fc tr tc = Ok b.
Proof.
  intros Hwf Hf Ht.
  destruct p; simpl; eauto using rookMove_total, bishopMove_total,
    queenMove_total, kingMove_total; try (rewrite pawnMove_get by auto; eauto);
    unfold knightMove; eauto.
Qed.

Lemma isLegalMove_unfold chess fr fc tr tc :
  wf chess -> onBoard fr fc -> onBoard tr tc ->
  isLegalMove chess fr fc tr tc =
    let p := get chess fr fc in
    if peq p EMPTY then Ok false else
    if sameColor p (get chess tr tc) then Ok false else
    let* ok := pieceMove chess p fr fc tr tc in
    if negb ok then Ok false else
    let copy := scratch chess fr fc tr tc in
    let* chk := isKingInCheck copy (isWhite (get copy tr tc)) in
    Ok (negb chk).
Proof.
  intros Hwf Hf Ht. unfold isLegalMove, scratch.
  rewrite (onBoard_inBounds _ _ Ht). cbn [negb].
  rewrite (rd_get _ fr fc) by auto. cbn [bind].
  destruct (peq (get chess fr fc) EMPTY); [reflexivity|].
  rewrite (rd_get _ tr tc) by auto. cbn [bind].
  destruct (sameColor _ _); [reflexivity|]. cbv zeta.
  change (match get chess fr fc with
          | EMPTY => Ok false
          | WHITE_PAWN | BLACK_PAWN => pawnMove chess fr fc tr tc
          | WHITE_KNIGHT | BLACK_KNIGHT => knightMove chess fr fc tr tc
          | WHITE_BISHOP | BLACK_BISHOP => bishopMove chess fr fc tr tc
          | WHITE_ROOK | BLACK_ROOK => rookMove chess fr fc tr tc
          | WHITE_QUEEN | BLACK_QUEEN => queenMove chess fr fc tr tc
          | WHITE_KING | BLACK_KING => kingMove chess fr fc tr tc
          end) with (pieceMove chess (get chess fr fc) fr fc tr tc).
  destruct (pieceMove chess (get chess fr fc) fr fc tr tc) as [ok| |]; try reflexivity.
  cbn [bind]. destruct ok; cbn [negb]; [|reflexivity].
  rewrite (wr_upd _ tr tc) by auto. cbn [bind].
  rewrite (wr_upd _ fr fc) by auto using wf_upd. cbn [bind].
  rewrite (rd_get _ tr tc) by auto using wf_upd. cbn [bind].
  reflexivity.
Qed.

Lemma wf_scratch chess fr fc tr tc : wf chess -> wf (scratch chess fr fc tr tc).
Proof. intros. unfold scratch. auto using wf_upd. Qed.

Lemma isLegalMove_total chess fr fc tr tc :
  wf chess -> onBoard fr fc -> exists b, isLegalMove chess fr fc tr tc = Ok b.
Proof.
  intros Hwf Hf. destruct (inBounds tr tc) eqn:Hb.
  - apply inBounds_true in Hb. rewrite isLegalMove_unfold by auto. cbv zeta.
    destruct (peq _ _); [eauto|]. destruct (sameColor _ _); [eauto|].
    destruct (pieceMove_total chess (get chess fr fc) fr fc tr tc) as (ok & ->); auto.
    cbn [bind]. destruct ok; cbn [negb]; [|eauto].
    destruct (isKingInCheck_total (scratch chess fr fc tr tc)
                (isWhite (get (scratch chess fr fc tr tc) tr tc))) as (chk & ->).
    + now apply wf_scratch.
    + cbn [bind]. eauto.
  - unfold isLegalMove. rewrite Hb. cbn [negb]. eauto.
Qed.

Lemma sameColor_refl p : p <> EMPTY -> sameColor p p = true.
Proof. destruct p; intros; try reflexivity. congruence. Qed.

(** What an accepted move satisfies. *)
Lemma isLegalMove_true chess fr fc tr tc :
  wf chess -> onBoard fr fc -> onBoard tr tc ->
  isLegalMove chess fr fc tr tc = Ok true ->
  get chess fr fc <> EMPTY /\
  sameColor (get chess fr fc) (get chess tr tc) = false /\
  (fr <> tr \/ fc <> tc) /\
  pieceMove chess (get chess fr fc) fr fc tr tc = Ok true /\
  isKingInCheck (scratch chess fr fc tr tc) (isWhite (get chess fr fc)) = Ok false.
Proof.
  intros Hwf Hf Ht. rewrite isLegalMove_unfold by auto. cbv zeta.
  destruct (peq _ _) eqn:Ep; [discriminate|]. apply peq_false in Ep.
  destruct (sameColor _ _) eqn:Es; [discriminate|].
  assert (Hne : fr <> tr \/ fc <> tc).
  { destruct (Z.eq_dec fr tr) as [->|]; [|auto].
    destruct (Z.eq_dec fc tc) as [->|]; [|auto].
    rewrite sameColor_refl in Es by auto. discriminate. }
  destruct (pieceMove _ _ _ _ _ _) as [ok| |]; try discriminate.
  cbn [bind]. destruct ok; cbn [negb]; [|discriminate].
  assert (Hq : get (scratch chess fr fc tr tc) tr tc = get chess fr fc).
  { unfold scratch. rewrite get_upd_other by auto. now apply get_upd_same. }
  rewrite Hq.
  destruct (isKingInCheck _ _) as [chk| |]; try discriminate.
  cbn [bind]. destruct chk; [discriminate|]. auto.
Qed.

(** *** Move generation *)

Lemma foldM_inv {A S} (f : S -> A -> res S) (P : S -> Prop) l :
  (forall s x, In x l -> P s -> exists s', f s x = Ok s' /\ P s') ->
  forall s, P s -> exists s', foldM f l s = Ok s' /\ P s'.
Proof.
  induction l as [|x l IH]; intros Hf s Hs; simpl; [eauto|].
  destruct (Hf s x) as (s1 & -> & H1); [now left | assumption |]. cbn [bind].
  apply IH; auto. intros s2 y Hy. apply Hf. now right.
Qed.

Lemma pawn_capture_needs_target chess r c r2 c2 :
  wf chess -> onBoard r c -> onBoard r2 c2 ->
  pawnMove chess r c r2 c2 = Ok true -> c <> c2 -> get chess r2 c2 <> EMPTY.
Proof.
  intros Hwf Hf Ht. rewrite pawnMove_get by auto. intros [= H] Hne.
  unfold pawnMove_val in H.
  destruct (Z.eqb_spec c c2); [lia|]. cbn [andb orb] in H.
  rewrite !andb_true_iff, negb_true_iff, peq_false in H. tauto.
Qed.

Lemma genMove_spec chess r c moves r2 c2 :
  wf chess -> onBoard r c -> onBoard r2 c2 ->
  isWhite (get chess r c) = whiteToMove chess ->
  (forall m, In m moves -> generated chess m) ->
  exists moves', genMove chess r c (get chess r c) moves (r2, c2) = Ok moves' /\
    forall m, In m moves' -> generated chess m.
Proof.
  intros Hwf Hf Ht Hcol Hinv. unfold genMove.
  destruct (isLegalMove_total chess r c r2 c2) as (ok & Hok); auto.
  rewrite Hok. cbn [bind]. destruct ok; [|eauto].
  destruct (_ >=? _); [eauto|].
  rewrite (rd_get _ r2 c2) by auto. cbn [bind].
  assert (Hep : andM ((peq (get chess r c) WHITE_PAWN || peq (get chess r c) BLACK_PAWN)
                      && negb (c =? c2))
                 (Ok (peq (get chess r2 c2) EMPTY)) = Ok false).
  { destruct (_ && _) eqn:E; [|reflexivity]. cbn [andM]. f_equal.
    apply peq_false.
    apply andb_true_iff in E as [Epawn Ecol].
    apply negb_true_iff, Z.eqb_neq in Ecol.
    apply (pawn_capture_needs_target chess r c r2 c2); auto.
    apply isLegalMove_true in Hok as (_ & _ & _ & Hpm & _); auto.
    apply orb_true_iff in Epawn. rewrite !peq_true in Epawn.
    destruct Epawn as [E|E]; rewrite E in Hpm; exact Hpm. }
  rewrite Hep. cbn [bind]. eexists. split; [reflexivity|].
  intros m Hm. apply in_app_or in Hm as [Hm|[<-|[]]]; [auto|].
  exists r, c, r2, c2. auto.
Qed.

Lemma color_of_mover chess p :
  peq p EMPTY = false ->
  whiteToMove chess && isBlack p = false ->
  negb (whiteToMove chess) && isWhite p = false ->
  isWhite p = whiteToMove chess.
Proof.
  intros He H1 H2. apply peq_false in He.
  destruct (whiteToMove chess), p; cbv in H1, H2 |- *; congruence.
Qed.

Lemma genFrom_spec chess moves r c :
  wf chess -> onBoard r c ->
  (forall m, In m moves -> generated chess m) ->
  exists moves', genFrom chess moves (r, c) = Ok moves' /\
    forall m, In m moves' -> generated chess m.
Proof.
  intros Hwf Hf Hinv. unfold genFrom.
  rewrite (rd_get _ r c) by auto. cbn [bind].
  destruct (peq _ _) eqn:E1; [eauto|].
  destruct (whiteToMove chess && _) eqn:E2; [eauto|].
  destruct (negb (whiteToMove chess) && _) eqn:E3; [eauto|].
  pose proof (color_of_mover _ _ E1 E2 E3) as Hcol.
  apply (foldM_inv _ (fun ms => forall m, In m ms -> generated chess m)); auto.
  intros s [r2 c2] Hin Hs. apply in_squares in Hin.
  now apply genMove_spec.
Qed.

(** [getAllMoves] returns on every well-formed position, and everything it
    returns is a move of the side to move that [isLegalMove] accepts. *)
Lemma getAllMoves_spec chess :
  wf chess ->
  exists moves, getAllMoves chess = Ok moves /\
    forall m, In m moves -> generated chess m.
Proof.
  intros Hwf. unfold getAllMoves.
  apply (foldM_inv _ (fun ms => forall m, In m ms -> generated chess m)).
  - intros s [r c] Hin Hs. apply in_squares in Hin. now apply genFrom_spec.
  - intros m [].
Qed.

(** *** Frame lemmas for the field updates *)

Lemma chess_eq s1 s2 :
  board s1 = board s2 -> whiteToMove s1 = whiteToMove s2 ->
  selectedRow s1 = selectedRow s2 -> selectedCol s1 = selectedCol s2 ->
  engineMove s1 = engineMove s2 -> engineWhite s1 = engineWhite s2 ->
  enginePending s1 = enginePending s2 ->
  hasCastledWhite s1 = hasCastledWhite s2 ->
  hasCastledBlack s1 = hasCastledBlack s2 ->
  enPassantCol s1 = enPassantCol s2 ->
  s1 = s2.
Proof. destruct s1, s2. simpl. intros. congruence. Qed.

Lemma sameButRights_refl s : sameButRights s s.
Proof. unfold sameButRights. tauto. Qed.

Lemma sameButRights_trans s1 s2 s3 :
  sameButRights s1 s2 -> sameButRights s2 s3 -> sameButRights s1 s3.
Proof. unfold sameButRights. intuition congruence. Qed.

Lemma markEnPassant_same moving move s : sameButRights (markEnPassant moving move s) s.
Proof. unfold markEnPassant, sameButRights. destruct (_ && _); simpl; tauto. Qed.

Lemma markRights_same moving move s : sameButRights (markRights moving move s) s.
Proof.
  unfold markRights.
  repeat match goal with
         | |- context [if ?b then _ else _] => destruct b
         end; unfold sameButRights; simpl; tauto.
Qed.

Lemma marks_same moving move s :
  sameButRights (markRights moving move (markEnPassant moving move s)) s.
Proof.
  eapply sameButRights_trans; [apply markRights_same | apply markEnPassant_same].
Qed.

Lemma sameButRights_get s1 s2 r c : sameButRights s1 s2 -> get s1 r c = get s2 r c.
Proof. intros (H & _). unfold get. now rewrite H. Qed.

Lemma sameButRights_wf s1 s2 : sameButRights s1 s2 -> wf s2 -> wf s1.
Proof. intros (H & _). unfold wf. now rewrite H. Qed.

Lemma sameButRights_upd s1 s2 r c p :
  sameButRights s1 s2 -> sameButRights (upd s1 r c p) (upd s2 r c p).
Proof. unfold sameButRights, upd. simpl. intuition congruence. Qed.

Lemma wf_set_whiteToMove w s : wf s -> wf (set_whiteToMove w s).
Proof. exact id. Qed.
Lemma wf_set_hasCastledWhite f s : wf s -> wf (set_hasCastledWhite f s).
Proof. exact id. Qed.
Lemma wf_set_hasCastledBlack f s : wf s -> wf (set_hasCastledBlack f s).
Proof. exact id. Qed.
Lemma wf_set_enPassantCol e s : wf s -> wf (set_enPassantCol e s).
Proof. exact id. Qed.
Lemma wf_marks moving move s :
  wf s -> wf (markRights moving move (markEnPassant moving move s)).
Proof. apply sameButRights_wf, marks_same. Qed.

Create HintDb wfdb.
#[global] Hint Extern 1 (wf (upd _ _ _ _)) => apply wf_upd : wfdb.
#[global] Hint Extern 1 (wf (set_whiteToMove _ _)) => apply wf_set_whiteToMove : wfdb.
#[global] Hint Extern 1 (wf (set_hasCastledWhite _ _)) => apply wf_set_hasCastledWhite : wfdb.
#[global] Hint Extern 1 (wf (set_hasCastledBlack _ _)) => apply wf_set_hasCastledBlack : wfdb.
#[global] Hint Extern 1 (wf (set_enPassantCol _ _)) => apply wf_set_enPassantCol : wfdb.
#[global] Hint Extern 1 (wf (markRights _ _ (markEnPassant _ _ _))) => apply wf_marks : wfdb.

Lemma get_set_whiteToMove w s r c : get (set_whiteToMove w s) r c = get s r c.
Proof. reflexivity. Qed.
Lemma get_set_hasCastledWhite f s r c : get (set_hasCastledWhite f s) r c = get s r c.
Proof. reflexivity. Qed.
Lemma get_set_hasCastledBlack f s r c : get (set_hasCastledBlack f s) r c = get s r c.
Proof. reflexivity. Qed.
Lemma get_set_enPassantCol e s r c : get (set_enPassantCol e s) r c = get s r c.
Proof. reflexivity. Qed.
Lemma get_marks moving move s r c :
  get (markRights moving move (markEnPassant moving move s)) r c = get s r c.
Proof. apply sameButRights_get, marks_same. Qed.

Create Rewrite HintDb getdb.
#[global] Hint Rewrite get_set_whiteToMove get_set_hasCastledWhite
  get_set_hasCastledBlack get_set_enPassantCol get_marks : getdb.

(** Rewrite the next board access of the goal into its pure form. *)
Ltac mstep :=
  match goal with
  | |- context [rd ?s ?r ?c] =>
      rewrite (rd_get s r c) by (first [solve [auto 10 with wfdb] | onb])
  | |- context [wr ?s ?r ?c ?p] =>
      rewrite (wr_upd s r c p) by (first [solve [auto 10 with wfdb] | onb])
  end; cbn [bind].

(** *** Closed forms of [makeMove] *)

Lemma makeMove_plain chess m _undo :
  wf chess -> onBoard (fromRow m) (fromCol m) -> onBoard (toRow m) (toCol m) ->
  isCastling m = false -> isEnPassant m = false ->
  makeMove chess m _undo = Ok (afterPlain chess m, undoOut chess m _undo).
Proof.
  intros Hwf Hf Ht Hc He. unfold makeMove, afterPlain, promoted, undoOut, undoOf.
  rewrite Hc, He. mstep. cbv zeta. mstep. mstep. destruct _undo; reflexivity.
Qed.

Lemma afterPlain_wf chess m : wf chess -> wf (afterPlain chess m).
Proof. intros. unfold afterPlain. cbv zeta. auto 10 with wfdb. Qed.
#[global] Hint Extern 1 (wf (afterPlain _ _)) => apply afterPlain_wf : wfdb.

Lemma afterPlain_get chess m r c :
  wf chess -> onBoard (fromRow m) (fromCol m) -> onBoard (toRow m) (toCol m) ->
  onBoard r c ->
  get (afterPlain chess m) r c =
    if bool_decide (fromRow m = r /\ fromCol m = c) then EMPTY
    else if bool_decide (toRow m = r /\ toCol m = c)
         then promoted m (get chess (fromRow m) (fromCol m))
         else get chess r c.
Proof.
  intros Hwf Hf Ht Hb. unfold afterPlain. cbv zeta.
  rewrite get_set_whiteToMove.
  rewrite !get_upd by auto 10 with wfdb.
  now rewrite get_marks.
Qed.

(** *** Fields that make and unmake never touch *)

Lemma chess_eq_meta s1 s2 :
  board s1 = board s2 -> whiteToMove s1 = whiteToMove s2 -> meta s1 = meta s2 ->
  hasCastledWhite s1 = hasCastledWhite s2 ->
  hasCastledBlack s1 = hasCastledBlack s2 ->
  enPassantCol s1 = enPassantCol s2 ->
  s1 = s2.
Proof. unfold meta. intros ? ? [= ? ? ? ? ?] ? ? ?. now apply chess_eq. Qed.

Lemma sameButRights_meta s1 s2 : sameButRights s1 s2 -> meta s1 = meta s2.
Proof. unfold sameButRights, meta. intros (_ & _ & -> & -> & -> & -> & ->). reflexivity. Qed.

Lemma sameButRights_whiteToMove s1 s2 :
  sameButRights s1 s2 -> whiteToMove s1 = whiteToMove s2.
Proof. unfold sameButRights. tauto. Qed.

Lemma meta_upd s r c p : meta (upd s r c p) = meta s.
Proof. reflexivity. Qed.
Lemma meta_set_whiteToMove w s : meta (set_whiteToMove w s) = meta s.
Proof. reflexivity. Qed.
Lemma meta_set_hasCastledWhite f s : meta (set_hasCastledWhite f s) = meta s.
Proof. reflexivity. Qed.
Lemma meta_set_hasCastledBlack f s : meta (set_hasCastledBlack f s) = meta s.
Proof. reflexivity. Qed.
Lemma meta_set_enPassantCol e s : meta (set_enPassantCol e s) = meta s.
Proof. reflexivity. Qed.
Lemma meta_marks moving move s :
  meta (markRights moving move (markEnPassant moving move s)) = meta s.
Proof. apply sameButRights_meta, marks_same. Qed.

Lemma whiteToMove_upd s r c p : whiteToMove (upd s r c p) = whiteToMove s.
Proof. reflexivity. Qed.
Lemma whiteToMove_set_whiteToMove w s : whiteToMove (set_whiteToMove w s) = w.
Proof. reflexivity. Qed.
Lemma whiteToMove_set_hasCastledWhite f s :
  whiteToMove (set_hasCastledWhite f s) = whiteToMove s.
Proof. reflexivity. Qed.
Lemma whiteToMove_set_hasCastledBlack f s :
  whiteToMove (set_hasCastledBlack f s) = whiteToMove s.
Proof. reflexivity. Qed.
Lemma whiteToMove_set_enPassantCol e s :
  whiteToMove (set_enPassantCol e s) = whiteToMove s.
Proof. reflexivity. Qed.
Lemma whiteToMove_marks moving move s :
  whiteToMove (markRights moving move (markEnPassant moving move s)) = whiteToMove s.
Proof. apply sameButRights_whiteToMove, marks_same. Qed.

Lemma board_set_whiteToMove w s : board (set_whiteToMove w s) = board s.
Proof. reflexivity. Qed.
Lemma board_set_hasCastledWhite f s : board (set_hasCastledWhite f s) = board s.
Proof. reflexivity. Qed.
Lemma board_set_hasCastledBlack f s : board (set_hasCastledBlack f s) = board s.
Proof. reflexivity. Qed.
Lemma board_set_enPassantCol e s : board (set_enPassantCol e s) = board s.
Proof. reflexivity. Qed.

Lemma hasCastledWhite_set_enPassantCol e s :
  hasCastledWhite (set_enPassantCol e s) = hasCastledWhite s.
Proof. reflexivity. Qed.
Lemma hasCastledWhite_set_hasCastledBlack f s :
  hasCastledWhite (set_hasCastledBlack f s) = hasCastledWhite s.
Proof. reflexivity. Qed.
Lemma hasCastledWhite_set_hasCastledWhite f s :
  hasCastledWhite (set_hasCastledWhite f s) = f.
Proof. reflexivity. Qed.
Lemma hasCastledBlack_set_enPassantCol e s :
  hasCastledBlack (set_enPassantCol e s) = hasCastledBlack s.
Proof. reflexivity. Qed.
Lemma hasCastledBlack_set_hasCastledBlack f s :
  hasCastledBlack (set_hasCastledBlack f s) = f.
Proof. reflexivity. Qed.
Lemma enPassantCol_set_enPassantCol e s : enPassantCol (set_enPassantCol e s) = e.
Proof. reflexivity. Qed.

Create Rewrite HintDb framedb.
#[global] Hint Rewrite meta_upd meta_set_whiteToMove meta_set_hasCastledWhite
  meta_set_hasCastledBlack meta_set_enPassantCol meta_marks
  whiteToMove_upd whiteToMove_set_whiteToMove whiteToMove_set_hasCastledWhite
  whiteToMove_set_hasCastledBlack whiteToMove_set_enPassantCol whiteToMove_marks
  board_set_whiteToMove board_set_hasCastledWhite board_set_hasCastledBlack
  board_set_enPassantCol
  hasCastledWhite_set_enPassantCol hasCastledWhite_set_hasCastledBlack
  hasCastledWhite_set_hasCastledWhite hasCastledBlack_set_enPassantCol
  hasCastledBlack_set_hasCastledBlack enPassantCol_set_enPassantCol : framedb.

Lemma afterPlain_whiteToMove chess m :
  whiteToMove (afterPlain chess m) = negb (whiteToMove chess).
Proof. unfold afterPlain. cbv zeta. now autorewrite with framedb. Qed.

Lemma afterPlain_meta chess m : meta (afterPlain chess m) = meta chess.
Proof. unfold afterPlain. cbv zeta. now autorewrite with framedb. Qed.

(** *** Round trip of make and unmake *)

Lemma roundtrip_plain chess m u0 :
  wf chess -> onBoard (fromRow m) (fromCol m) -> onBoard (toRow m) (toCol m) ->
  (fromRow m <> toRow m \/ fromCol m <> toCol m) ->
  isCastling m = false -> isEnPassant m = false ->
  captured m = get chess (toRow m) (toCol m) ->
  (isPromotion m = true ->
   get chess (fromRow m) (fromCol m) = WHITE_PAWN \/
   get chess (fromRow m) (fromCol m) = BLACK_PAWN) ->
  exists chess' u',
    makeMove chess m (Some u0) = Ok (chess', Some u') /\
    unmakeMove chess' m (Some u') = Ok chess.
Proof.
  intros Hwf Hf Ht Hne Hc He Hcap Hpro.
  exists (afterPlain chess m), (undoOf chess m u0).
  split; [now apply (makeMove_plain chess m (Some u0))|].
  pose proof (afterPlain_wf chess m Hwf) as Hwf'.
  unfold unmakeMove. rewrite Hc, He. cbv zeta.
  mstep. rewrite get_set_whiteToMove.
  rewrite afterPlain_get by auto.
  rewrite bool_decide_eq_false_2 by lia.
  rewrite bool_decide_eq_true_2 by auto.
  mstep. mstep. f_equal.
  set (p := get chess (fromRow m) (fromCol m)) in *.
  set (back := if isPromotion m
               then if isWhite (promoted m p) then WHITE_PAWN else BLACK_PAWN
               else promoted m p).
  assert (Hback : back = p).
  { unfold back, promoted. destruct (isPromotion m); [|reflexivity].
    destruct Hpro as [-> | ->]; reflexivity. }
  rewrite Hback. clear back Hback.
  apply chess_eq_meta; autorewrite with framedb.
  - apply board_ext; [auto 10 with wfdb | assumption |].
    intros r c Hb. rewrite !get_upd by auto 10 with wfdb.
    rewrite get_set_whiteToMove, afterPlain_get by auto.
    unfold undoOf. cbn [capturedPiece]. rewrite Hcap.
    repeat case_bool_decide; try reflexivity; try lia.
    + destruct H as [<- <-]. reflexivity.
    + destruct H0 as [<- <-]. reflexivity.
  - rewrite afterPlain_whiteToMove. apply negb_involutive.
  - apply afterPlain_meta.
  - reflexivity.
  - reflexivity.
  - reflexivity.
Qed.

(** *** Castling moves *)

Lemma castleFlag_same moving m s : sameButRights (castleFlag moving m s) s.
Proof. unfold castleFlag, sameButRights. destruct (peq _ _); simpl; tauto. Qed.

Lemma wf_castleFlag moving m s : wf s -> wf (castleFlag moving m s).
Proof. apply sameButRights_wf, castleFlag_same. Qed.
#[global] Hint Extern 1 (wf (castleFlag _ _ _)) => apply wf_castleFlag : wfdb.

Lemma get_castleFlag moving m s r c : get (castleFlag moving m s) r c = get s r c.
Proof. apply sameButRights_get, castleFlag_same. Qed.
#[global] Hint Rewrite get_castleFlag : getdb.

Lemma rook_cols_onBoard m r :
  0 <= r < 8 -> onBoard r (rookFromCol m) /\ onBoard r (rookToCol m).
Proof. unfold rookFromCol, rookToCol, onBoard. destruct (toCol m =? 6); lia. Qed.

Lemma makeMove_castle chess m _undo :
  wf chess -> onBoard (fromRow m) (fromCol m) -> onBoard (toRow m) (toCol m) ->
  isCastling m = true -> isEnPassant m = false ->
  makeMove chess m _undo = Ok (afterCastle chess m, undoOut chess m _undo).
Proof.
  intros Hwf Hf Ht Hc He.
  destruct (rook_cols_onBoard m (fromRow m)) as [Hrf Hrt]; [onb|].
  unfold makeMove, afterCastle, undoOut, undoOf, castleFlag.
  fold (rookFromCol m) (rookToCol m).
  rewrite Hc, He. mstep. cbv zeta. mstep. mstep. mstep.
  destruct (peq (get chess (fromRow m) (fromCol m)) WHITE_KING); cbn [bind];
    mstep; mstep; destruct _undo; reflexivity.
Qed.

Lemma afterCastle_wf chess m : wf chess -> wf (afterCastle chess m).
Proof. intros. unfold afterCastle. cbv zeta. auto 12 with wfdb. Qed.
#[global] Hint Extern 1 (wf (afterCastle _ _)) => apply afterCastle_wf : wfdb.

Lemma afterCastle_get chess m r c :
  wf chess -> onBoard (fromRow m) (fromCol m) -> onBoard (toRow m) (toCol m) ->
  onBoard r c ->
  get (afterCastle chess m) r c =
    if bool_decide (fromRow m = r /\ fromCol m = c) then EMPTY
    else if bool_decide (toRow m = r /\ toCol m = c)
         then promoted m (get chess (fromRow m) (fromCol m))
    else if bool_decide (fromRow m = r /\ rookFromCol m = c) then EMPTY
    else if bool_decide (fromRow m = r /\ rookToCol m = c)
         then get chess (fromRow m) (rookFromCol m)
    else get chess r c.
Proof.
  intros Hwf Hf Ht Hb.
  destruct (rook_cols_onBoard m (fromRow m)) as [Hrf Hrt]; [onb|].
  unfold afterCastle. cbv zeta.
  rewrite get_set_whiteToMove.
  rewrite !get_upd by auto 12 with wfdb.
  rewrite get_marks, get_castleFlag.
  now rewrite !get_upd by auto 12 with wfdb.
Qed.

Lemma meta_castleFlag moving m s : meta (castleFlag moving m s) = meta s.
Proof. apply sameButRights_meta, castleFlag_same. Qed.
Lemma whiteToMove_castleFlag moving m s :
  whiteToMove (castleFlag moving m s) = whiteToMove s.
Proof. apply sameButRights_whiteToMove, castleFlag_same. Qed.
#[global] Hint Rewrite meta_castleFlag whiteToMove_castleFlag : framedb.

Lemma afterCastle_whiteToMove chess m :
  whiteToMove (afterCastle chess m) = negb (whiteToMove chess).
Proof. unfold afterCastle. cbv zeta. now autorewrite with framedb. Qed.

Lemma afterCastle_meta chess m : meta (afterCastle chess m) = meta chess.
Proof. unfold afterCastle. cbv zeta. now autorewrite with framedb. Qed.

Lemma roundtrip_castle chess m u0 :
  wf chess -> onBoard (fromRow m) (fromCol m) -> onBoard (toRow m) (toCol m) ->
  isCastling m = true -> isEnPassant m = false -> isPromotion m = false ->
  fromCol m = 4 -> toRow m = fromRow m -> (toCol m = 6 \/ toCol m = 2) ->
  captured m = get chess (toRow m) (toCol m) ->
  get chess (toRow m) (toCol m) = EMPTY ->
  get chess (fromRow m) (rookToCol m) = EMPTY ->
  exists chess' u',
    makeMove chess m (Some u0) = Ok (chess', Some u') /\
    unmakeMove chess' m (Some u') = Ok chess.
Proof.
  intros Hwf Hf Ht Hc He Hp Hfc Htr Htc Hcap Hto Hrto.
  destruct (rook_cols_onBoard m (fromRow m)) as [Hrf Hrt]; [onb|].
  exists (afterCastle chess m), (undoOf chess m u0).
  split; [now apply (makeMove_castle chess m (Some u0))|].
  pose proof (afterCastle_wf chess m Hwf) as Hwf'.
  unfold unmakeMove. rewrite Hc, He, Hp. cbv zeta.
  fold (rookFromCol m) (rookToCol m).
  mstep. rewrite get_set_whiteToMove.
  rewrite afterCastle_get by auto.
  rewrite bool_decide_eq_false_2 by lia.
  rewrite bool_decide_eq_true_2 by auto.
  unfold promoted. rewrite Hp.
  assert (Hcols : rookToCol m <> 4 /\ rookToCol m <> toCol m /\
                  rookFromCol m <> 4 /\ rookFromCol m <> toCol m /\
                  rookFromCol m <> rookToCol m).
  { unfold rookToCol, rookFromCol. destruct Htc as [-> | ->]; simpl; lia. }
  mstep. mstep.
  match goal with
  | |- context [rd ?s ?r ?c] =>
      assert (Hrk : get s r c = get chess (fromRow m) (rookFromCol m))
  end.
  { rewrite !get_upd by auto 12 with wfdb.
    rewrite get_set_whiteToMove, afterCastle_get by auto.
    repeat case_bool_decide; try reflexivity; lia. }
  mstep. rewrite Hrk. mstep. mstep. f_equal.
  apply chess_eq_meta; autorewrite with framedb.
  - apply board_ext; [auto 12 with wfdb | assumption |].
    intros r c Hb. rewrite !get_upd by auto 12 with wfdb.
    rewrite get_set_whiteToMove, afterCastle_get by auto.
    unfold undoOf. cbn [capturedPiece]. rewrite Hcap, Hto.
    repeat case_bool_decide; try reflexivity; try lia.
    all: repeat match goal with H : _ /\ _ |- _ => destruct H end; subst r c;
         try congruence; try lia.
  - rewrite afterCastle_whiteToMove. apply negb_involutive.
  - apply afterCastle_meta.
  - reflexivity.
  - reflexivity.
  - reflexivity.
Qed.

(** *** Attacks on an occupied square, compared between two boards *)

Lemma attackedFrom_true chess r c byWhite fr fc :
  wf chess -> onBoard fr fc ->
  attackedFrom chess r c byWhite (fr, fc) = Ok true <->
  attacker byWhite (get chess fr fc) /\
  canPieceAttackSquare chess fr fc r c = Ok true.
Proof.
  intros Hwf Hf. unfold attackedFrom, attacker.
  rewrite (rd_get _ fr fc) by auto. cbn [bind].
  destruct (peq _ _) eqn:E.
  - apply peq_true in E. split; [discriminate | tauto].
  - apply peq_false in E. destruct byWhite; cbn [andb negb].
    + destruct (isWhite _); cbn [negb].
      * tauto.
      * split; [discriminate | intros ([_ H] & _); discriminate].
    + destruct (isBlack _); cbn [negb].
      * tauto.
      * split; [discriminate | intros ([_ H] & _); discriminate].
Qed.

Lemma pawnMove_val_occupied chess fr fc tr tc :
  get chess tr tc <> EMPTY ->
  pawnMove_val chess fr fc tr tc =
    (Z.abs (tc - fc) =? 1) &&
    (tr =? fr + (if isWhite (get chess fr fc) then 1 else -1)).
Proof.
  intros H. apply peq_false in H. unfold pawnMove_val. rewrite H.
  cbn [negb]. rewrite !andb_false_r, andb_true_r. reflexivity.
Qed.

Lemma pathClear_mono A S fr fc tr tc :
  wf A -> wf S -> onBoard fr fc -> onBoard tr tc -> aligned fr fc tr tc ->
  (forall r c, onBoard r c -> get A r c = EMPTY ->
     get S r c = EMPTY \/ ~ blocks r c tr tc) ->
  pathClear A fr fc tr tc = Ok true -> pathClear S fr fc tr tc = Ok true.
Proof.
  intros HA HS Hf Ht Hal HB H.
  destruct (pathClear_spec A fr fc tr tc HA Hf Ht Hal) as (a & Ha & Hia).
  destruct (pathClear_spec S fr fc tr tc HS Hf Ht Hal) as (s & Hs & His).
  rewrite Ha in H. injection H as ->. rewrite Hs. f_equal. apply His.
  intros k Hk. pose proof (proj1 Hia eq_refl k Hk) as He.
  assert (Hon : onBoard (fr + k * sgn tr fr) (fc + k * sgn tc fc)).
  { unfold dist, aligned, onBoard in *.
    destruct (sgn_cases tr fr) as [[? ->]|[[? ->]|[? ->]]],
             (sgn_cases tc fc) as [[? ->]|[[? ->]|[? ->]]]; lia. }
  destruct (HB _ _ Hon He) as [Hemp|Hnb]; [exact Hemp|].
  exfalso. apply Hnb. exists fr, fc, k. auto.
Qed.

Lemma rookMove_mono A S fr fc tr tc :
  wf A -> wf S -> onBoard fr fc -> onBoard tr tc ->
  (forall r c, onBoard r c -> get A r c = EMPTY ->
     get S r c = EMPTY \/ ~ blocks r c tr tc) ->
  rookMove A fr fc tr tc = Ok true -> rookMove S fr fc tr tc = Ok true.
Proof.
  intros HA HS Hf Ht HB. unfold rookMove.
  destruct (negb (fr =? tr) && negb (fc =? tc)) eqn:E; [discriminate|].
  apply pathClear_mono; auto.
  unfold aligned. apply andb_false_iff in E.
  rewrite !negb_false_iff, !Z.eqb_eq in E. lia.
Qed.

Lemma bishopMove_mono A S fr fc tr tc :
  wf A -> wf S -> onBoard fr fc -> onBoard tr tc ->
  (forall r c, onBoard r c -> get A r c = EMPTY ->
     get S r c = EMPTY \/ ~ blocks r c tr tc) ->
  bishopMove A fr fc tr tc = Ok true -> bishopMove S fr fc tr tc = Ok true.
Proof.
  intros HA HS Hf Ht HB. unfold bishopMove.
  destruct (negb (Z.abs (fr - tr) =? Z.abs (fc - tc))) eqn:E; [discriminate|].
  apply pathClear_mono; auto.
  unfold aligned. rewrite negb_false_iff, Z.eqb_eq in E. lia.
Qed.

Lemma queenMove_mono A S fr fc tr tc :
  wf A -> wf S -> onBoard fr fc -> onBoard tr tc ->
  (forall r c, onBoard r c -> get A r c = EMPTY ->
     get S r c = EMPTY \/ ~ blocks r c tr tc) ->
  queenMove A fr fc tr tc = Ok true -> queenMove S fr fc tr tc = Ok true.
Proof.
  intros HA HS Hf Ht HB. unfold queenMove.
  destruct (rookMove_total A fr fc tr tc HA Hf Ht) as (a & Ha).
  destruct (rookMove_total S fr fc tr tc HS Hf Ht) as (s & Hs).
  rewrite Ha, Hs. cbn [bind]. destruct a.
  - intros _. rewrite (rookMove_mono A S) in Hs by auto. now injection Hs as <-.
  - intros H. destruct s; [reflexivity|]. now apply (bishopMove_mono A S).
Qed.

(** An attack on an occupied square in [A] is also one in [S] when [S]
    holds the same attacker and none of the squares that are empty in [A]
    but not in [S] can stand in the way. *)
Lemma canPieceAttackSquare_mono A S fr fc tr tc :
  wf A -> wf S -> onBoard fr fc -> onBoard tr tc ->
  get S fr fc = get A fr fc ->
  get A tr tc <> EMPTY -> get S tr tc <> EMPTY ->
  (forall r c, onBoard r c -> get A r c = EMPTY ->
     get S r c = EMPTY \/ ~ blocks r c tr tc) ->
  canPieceAttackSquare A fr fc tr tc = Ok true ->
  canPieceAttackSquare S fr fc tr tc = Ok true.
Proof.
  intros HA HS Hf Ht Hp HtA HtS HB. unfold canPieceAttackSquare.
  rewrite (onBoard_inBounds _ _ Ht). cbn [negb].
  rewrite !(rd_get _ fr fc) by auto. cbn [bind]. rewrite Hp.
  destruct (peq (get A fr fc) EMPTY); [discriminate|].
  destruct (get A fr fc) eqn:Ep; try discriminate;
    try (now apply rookMove_mono); try (now apply bishopMove_mono);
    try (now apply queenMove_mono); try (unfold knightMove; tauto); try tauto.
  all: rewrite !pawnMove_get by auto;
       rewrite !pawnMove_val_occupied by auto; now rewrite Hp, Ep.
Qed.

Lemma isSquareAttacked_mono A S kr kc byWhite :
  wf A -> wf S -> onBoard kr kc ->
  get A kr kc <> EMPTY -> get S kr kc <> EMPTY ->
  (forall r c, onBoard r c -> attacker byWhite (get A r c) -> get S r c = get A r c) ->
  (forall r c, onBoard r c -> get A r c = EMPTY ->
     get S r c = EMPTY \/ ~ blocks r c kr kc) ->
  isSquareAttacked A kr kc byWhite = Ok true ->
  isSquareAttacked S kr kc byWhite = Ok true.
Proof.
  intros HA HS Hk HkA HkS HE HB. unfold isSquareAttacked.
  rewrite !anyM_true by (intros; now apply attackedFrom_total).
  intros ([fr fc] & Hin & Hat). exists (fr, fc). split; [exact Hin|].
  apply in_squares in Hin.
  apply attackedFrom_true in Hat as [Hatt Hcan]; auto.
  apply attackedFrom_true; auto. rewrite (HE _ _ Hin Hatt). split; [exact Hatt|].
  apply (canPieceAttackSquare_mono A S); auto.
Qed.

Lemma king_test white p :
  (white && peq p WHITE_KING) || (negb white && peq p BLACK_KING) = true <->
  p = kingOf white.
Proof.
  unfold kingOf. destruct white; cbn [andb negb orb].
  - rewrite orb_false_r. apply peq_true.
  - apply peq_true.
Qed.

Lemma isKingInCheck_loop_mono A S white l :
  wf A -> wf S -> (forall sq, In sq l -> In sq squares) ->
  (forall r c, onBoard r c -> get A r c = kingOf white <-> get S r c = kingOf white) ->
  (forall r c, onBoard r c -> attacker (negb white) (get A r c) ->
     get S r c = get A r c) ->
  (forall r c kr kc, onBoard r c -> onBoard kr kc -> get A r c = EMPTY ->
     get S r c = EMPTY \/ ~ blocks r c kr kc) ->
  isKingInCheck_loop A white l = Ok true -> isKingInCheck_loop S white l = Ok true.
Proof.
  intros HA HS Hl HK HE HB. induction l as [|[r c] l IH]; simpl; [discriminate|].
  assert (Hb : onBoard r c) by (apply in_squares, Hl; now left).
  rewrite !(rd_get _ r c) by auto. cbn [bind].
  destruct ((white && peq (get A r c) WHITE_KING) || _) eqn:EA.
  - apply king_test in EA. pose proof (proj1 (HK r c Hb) EA) as ES.
    apply king_test in ES. rewrite ES. apply king_test in ES.
    apply isSquareAttacked_mono; auto.
    + rewrite EA. destruct white; discriminate.
    + rewrite ES. destruct white; discriminate.
  - destruct ((white && peq (get S r c) WHITE_KING) || _) eqn:ES.
    + apply king_test in ES. apply HK in ES; auto. apply king_test in ES. congruence.
    + apply IH. intros sq Hsq. apply Hl. now right.
Qed.

(** If the king of [white] is safe in [S], it is safe in [A]. *)
Lemma isKingInCheck_safe A S white :
  wf A -> wf S ->
  (forall r c, onBoard r c -> get A r c = kingOf white <-> get S r c = kingOf white) ->
  (forall r c, onBoard r c -> attacker (negb white) (get A r c) ->
     get S r c = get A r c) ->
  (forall r c kr kc, onBoard r c -> onBoard kr kc -> get A r c = EMPTY ->
     get S r c = EMPTY \/ ~ blocks r c kr kc) ->
  isKingInCheck S white = Ok false -> isKingInCheck A white = Ok false.
Proof.
  intros HA HS HK HE HB Hs.
  destruct (isKingInCheck_total A white HA) as ([] & Ha); [|exact Ha].
  apply (isKingInCheck_loop_mono A S) in Ha; auto.
  unfold isKingInCheck in Hs. congruence.
Qed.

(** *** The move really made, compared with the scratch copy *)

Lemma corner_never_blocks r c kr kc :
  (r = 0 \/ r = 7) -> (c = 0 \/ c = 7) -> onBoard kr kc -> ~ blocks r c kr kc.
Proof.
  intros Hr Hc Hk (fr & fc & k & Hf & Hal & Hd & Er & Ec).
  unfold dist, aligned, onBoard in *.
  destruct (sgn_cases kr fr) as [[? E1]|[[? E1]|[? E1]]],
           (sgn_cases kc fc) as [[? E2]|[[? E2]|[? E2]]];
    rewrite E1 in Er; rewrite E2 in Ec; lia.
Qed.

Lemma scratch_get chess fr fc tr tc r c :
  wf chess -> onBoard fr fc -> onBoard tr tc -> onBoard r c ->
  get (scratch chess fr fc tr tc) r c =
    if bool_decide (fr = r /\ fc = c) then EMPTY
    else if bool_decide (tr = r /\ tc = c) then get chess fr fc
    else get chess r c.
Proof.
  intros Hwf Hf Ht Hb. unfold scratch.
  now rewrite !get_upd by auto 10 with wfdb.
Qed.

Lemma promoted_not_empty m p : p <> EMPTY -> promoted m p <> EMPTY.
Proof.
  unfold promoted. destruct (isPromotion m); [|auto].
  destruct (isWhite p); discriminate.
Qed.

Lemma not_attacker_own white p :
  p <> EMPTY -> isWhite p = white -> ~ attacker (negb white) p.
Proof.
  intros Hne Hw [_ H]. destruct white, p; cbv in Hw, H; congruence.
Qed.

Lemma plain_keeps_king_safe chess m :
  wf chess -> onBoard (fromRow m) (fromCol m) -> onBoard (toRow m) (toCol m) ->
  get chess (fromRow m) (fromCol m) <> EMPTY ->
  (isPromotion m = true ->
   get chess (fromRow m) (fromCol m) = WHITE_PAWN \/
   get chess (fromRow m) (fromCol m) = BLACK_PAWN) ->
  let white := isWhite (get chess (fromRow m) (fromCol m)) in
  isKingInCheck (scratch chess (fromRow m) (fromCol m) (toRow m) (toCol m)) white
    = Ok false ->
  isKingInCheck (afterPlain chess m) white = Ok false.
Proof.
  intros Hwf Hf Ht Hne Hpro white.
  set (p := get chess (fromRow m) (fromCol m)) in *.
  assert (Hcol : promoted m p <> EMPTY /\ isWhite (promoted m p) = white /\
                 (promoted m p = kingOf white <-> p = kingOf white)).
  { unfold promoted, white. destruct (isPromotion m); [|tauto].
    destruct Hpro as [E | E]; auto; rewrite E; cbv; intuition discriminate. }
  destruct Hcol as (Hpne & Hpw & Hpk).
  intros Hs. revert Hs. apply isKingInCheck_safe.
  - now apply afterPlain_wf.
  - now apply wf_scratch.
  - intros r c Hb. rewrite afterPlain_get, scratch_get by auto. fold p.
    repeat case_bool_decide; tauto.
  - intros r c Hb. rewrite afterPlain_get, scratch_get by auto. fold p.
    repeat case_bool_decide; try reflexivity.
    intros Hatt. exfalso. revert Hatt. now apply not_attacker_own.
  - intros r c kr kc Hb Hk. rewrite afterPlain_get, scratch_get by auto. fold p.
    repeat case_bool_decide; auto.
Qed.

Lemma castle_keeps_king_safe chess m :
  wf chess -> onBoard (fromRow m) (fromCol m) -> onBoard (toRow m) (toCol m) ->
  isPromotion m = false ->
  fromCol m = 4 -> (toCol m = 6 \/ toCol m = 2) -> toRow m = fromRow m ->
  (fromRow m = 0 \/ fromRow m = 7) ->
  let white := isWhite (get chess (fromRow m) (fromCol m)) in
  get chess (fromRow m) (fromCol m) = kingOf white ->
  get chess (fromRow m) (rookFromCol m) = (if white then WHITE_ROOK else BLACK_ROOK) ->
  get chess (fromRow m) (rookToCol m) = EMPTY ->
  isKingInCheck (scratch chess (fromRow m) (fromCol m) (toRow m) (toCol m)) white
    = Ok false ->
  isKingInCheck (afterCastle chess m) white = Ok false.
Proof.
  intros Hwf Hf Ht Hp Hfc Htc Htr Hrow white Hking Hrook Hrto.
  destruct (rook_cols_onBoard m (fromRow m)) as [Hrf Hrt]; [onb|].
  set (p := get chess (fromRow m) (fromCol m)) in *.
  assert (Hprom : promoted m p = p) by (unfold promoted; now rewrite Hp).
  assert (Hcols : rookToCol m <> 4 /\ rookToCol m <> toCol m /\
                  rookFromCol m <> 4 /\ rookFromCol m <> toCol m /\
                  rookFromCol m <> rookToCol m /\
                  (rookFromCol m = 0 \/ rookFromCol m = 7)).
  { unfold rookToCol, rookFromCol. destruct Htc as [-> | ->]; simpl; lia. }
  assert (Hrk : (if white then WHITE_ROOK else BLACK_ROOK) <> kingOf white /\
                (if white then WHITE_ROOK else BLACK_ROOK) <> EMPTY /\
                isWhite (if white then WHITE_ROOK else BLACK_ROOK) = white /\
                EMPTY <> kingOf white).
  { destruct white; cbv; intuition discriminate. }
  destruct Hrk as (Hrk1 & Hrk2 & Hrk3 & Hrk4).
  intros Hs. revert Hs. apply isKingInCheck_safe.
  - now apply afterCastle_wf.
  - now apply wf_scratch.
  - intros r c Hb. rewrite afterCastle_get, scratch_get by auto. fold p.
    rewrite Hprom, Hrook.
    repeat case_bool_decide; try tauto.
    + destruct H1 as [<- <-]. rewrite Hrook. split; intros E; congruence.
    + destruct H2 as [<- <-]. rewrite Hrto. split; intros E; congruence.
  - intros r c Hb. rewrite afterCastle_get, scratch_get by auto. fold p.
    rewrite Hprom, Hrook.
    repeat case_bool_decide; try reflexivity.
    + intros [E _]. congruence.
    + intros Hatt. exfalso. revert Hatt. now apply not_attacker_own.
  - intros r c kr kc Hb Hk. rewrite afterCastle_get, scratch_get by auto. fold p.
    rewrite Hprom, Hrook.
    repeat case_bool_decide; auto.
    intros _. right. destruct H1 as [<- <-]. apply corner_never_blocks; auto; lia.
Qed.

(** *** What the generated moves look like *)

Lemma kingMove_castle chess r c r2 c2 :
  wf chess -> onBoard r c ->
  kingMove chess r c r2 c2 = Ok true -> Z.abs (c2 - c) = 2 ->
  r2 = r /\ (c2 = 6 \/ c2 = 2) /\ castleOK chess r c c2.
Proof.
  intros Hwf Hf. unfold kingMove. intros H Habs.
  destruct (Z.leb_spec (Z.abs (c - c2)) 1); [lia|].
  rewrite andb_false_r in H.
  destruct ((r =? r2) && ((c2 =? 6) || (c2 =? 2))) eqn:E; [|discriminate].
  rewrite andb_true_iff, orb_true_iff, !Z.eqb_eq in E. destruct E as [-> Hc2].
  destruct (canCastle_spec chess r2 c r2 c2 Hwf Hf Hc2) as (b & Hb & Hiff).
  rewrite Hb in H. injection H as ->. split; [reflexivity|]. split; [exact Hc2|].
  now apply Hiff.
Qed.

Lemma generated_facts chess m : wf chess -> generated chess m -> genFacts chess m.
Proof.
  intros Hwf (r & c & r2 & c2 & Hf & Ht & Hcol & Hlegal & ->).
  destruct (isLegalMove_true chess r c r2 c2 Hwf Hf Ht Hlegal)
    as (Hne & Hsame & Hdist & Hpiece & Hsafe).
  unfold plainMove. split; cbn [fromRow fromCol toRow toCol captured isPromotion
                                 isEnPassant isCastling]; auto.
  - rewrite orb_true_iff, !andb_true_iff, !peq_true. tauto.
  - set (p := get chess r c) in *.
    rewrite !andb_true_iff, orb_true_iff, !peq_true, !Z.eqb_eq.
    intros [[Hk ->] Habs].
    assert (Hkm : pieceMove chess p r 4 r2 c2 = kingMove chess r 4 r2 c2).
    { destruct Hk as [-> | ->]; reflexivity. }
    rewrite Hkm in Hpiece.
    destruct (kingMove_castle chess r 4 r2 c2 Hwf Hf Hpiece Habs)
      as (-> & Hc2 & Hok).
    unfold castleOK in Hok. fold p in Hok.
    destruct Hok as (Hrow & _ & _ & Hrook & Hbetween & _).
    unfold rookFromCol, rookToCol. cbn [toCol].
    repeat split; auto.
    + destruct Hk as [-> | ->]; reflexivity.
    + destruct (isWhite p); lia.
    + destruct Hk as [-> | ->]; reflexivity.
    + apply Hbetween. destruct Hc2 as [-> | ->]; simpl; lia.
    + apply Hbetween. destruct Hc2 as [-> | ->]; simpl; lia.
Qed.

(** * Properties of the engine *)

(** ** Make and unmake *)

(** C1.  For every position with one king per side and every move [m] that
    [getAllMoves] returns for it, [makeMove] followed by [unmakeMove] with
    the same undo record gives back the position exactly: the board, the side
    to move, both pairs of castling flags, the en-passant file and the fields
    the two functions never touch.  [getAllMoves] itself returns. *)
Theorem make_unmake_roundtrip (chess : ChessState) :
  wf chess -> oneKingEach chess ->
  exists moves, getAllMoves chess = Ok moves /\
    forall m u, In m moves ->
      exists chess' u',
        makeMove chess m (Some u) = Ok (chess', Some u') /\
        unmakeMove chess' m (Some u') = Ok chess.
Proof.
  intros Hwf _. destruct (getAllMoves_spec chess Hwf) as (moves & Hmoves & Hgen).
  exists moves. split; [exact Hmoves|]. intros m u Hin.
  destruct (generated_facts chess m Hwf (Hgen m Hin))
    as [Hf Ht Hd Hpc Hcol Hep Hcap Hpro Hsafe Hcast].
  destruct (isCastling m) eqn:Hc.
  - destruct (Hcast eq_refl) as (Hp & Hfc & Htr & Htc & _ & _ & _ & Hrto & Hto).
    now apply roundtrip_castle.
  - now apply roundtrip_plain.
Qed.

Lemma make_unmake_roundtrip_witness :
  wf initChessState /\ oneKingEach initChessState /\
  exists moves, getAllMoves initChessState = Ok moves /\
    forall m u, In m moves ->
      exists chess' u',
        makeMove initChessState m (Some u) = Ok (chess', Some u') /\
        unmakeMove chess' m (Some u') = Ok initChessState.
Proof.
  assert (Hwf : wf initChessState) by reflexivity.
  assert (Hk : oneKingEach initChessState) by (split; reflexivity).
  split; [exact Hwf|]. split; [exact Hk|].
  exact (make_unmake_roundtrip initChessState Hwf Hk).
Defined.

(** ** Legality soundness *)

(** C2.  For every position with one king per side and every move [m] that
    [getAllMoves] returns for it, [makeMove] returns (whatever the undo
    pointer) and in the position it leaves, where the turn has passed to the
    other side, [isKingInCheck] says that the king of the side that moved is
    not in check. *)
Theorem generated_move_leaves_king_safe (chess : ChessState) :
  wf chess -> oneKingEach chess ->
  exists moves, getAllMoves chess = Ok moves /\
    forall m _undo, In m moves ->
      exists chess' u',
        makeMove chess m _undo = Ok (chess', u') /\
        whiteToMove chess' = negb (whiteToMove chess) /\
        isKingInCheck chess' (whiteToMove chess) = Ok false.
Proof.
  intros Hwf _. destruct (getAllMoves_spec chess Hwf) as (moves & Hmoves & Hgen).
  exists moves. split; [exact Hmoves|]. intros m _undo Hin.
  destruct (generated_facts chess m Hwf (Hgen m Hin))
    as [Hf Ht Hd Hpc Hcol Hep Hcap Hpro Hsafe Hcast].
  rewrite <- Hcol.
  destruct (isCastling m) eqn:Hc.
  - destruct (Hcast eq_refl)
      as (Hp & Hfc & Htr & Htc & Hrow & Hking & Hrook & Hrto & Hto).
    exists (afterCastle chess m), (undoOut chess m _undo).
    split; [now apply makeMove_castle|].
    split; [rewrite Hcol; apply afterCastle_whiteToMove|].
    now apply castle_keeps_king_safe.
  - exists (afterPlain chess m), (undoOut chess m _undo).
    split; [now apply makeMove_plain|].
    split; [rewrite Hcol; apply afterPlain_whiteToMove|].
    now apply plain_keeps_king_safe.
Qed.

Lemma generated_move_leaves_king_safe_witness :
  wf initChessState /\ oneKingEach initChessState /\
  exists moves, getAllMoves initChessState = Ok moves /\
    forall m _undo, In m moves ->
      exists chess' u',
        makeMove initChessState m _undo = Ok (chess', u') /\
        whiteToMove chess' = negb (whiteToMove initChessState) /\
        isKingInCheck chess' (whiteToMove initChessState) = Ok false.
Proof.
  assert (Hwf : wf initChessState) by reflexivity.
  assert (Hk : oneKingEach initChessState) by (split; reflexivity).
  split; [exact Hwf|]. split; [exact Hk|].
  exact (generated_move_leaves_king_safe initChessState Hwf Hk).
Defined.

(** ** Castling *)

(** What [canCastle] does reject.  With a king on its home square as the
    piece to move and one of the two castling files as destination, it
    returns [false] as soon as one of these holds: the flag of that side and
    wing is set, the rook of that colour is not on its corner, a square
    strictly between king and rook is occupied, [isKingInCheck] answers true
    for that side, or [isSquareAttacked] answers true for the other side on a
    square from the king's file to the destination file (both included). *)
Theorem canCastle_rejects (chess : ChessState) (fr fc tr tc : Z) (king : PieceType) :
  wf chess ->
  rd chess fr fc = Ok king ->
  (king = WHITE_KING /\ fr = 0) \/ (king = BLACK_KING /\ fr = 7) ->
  fc = 4 ->
  tc = 6 \/ tc = 2 ->
  let white := isWhite king in
  let wing := if tc =? 6 then 0 else 1 in
  let rookCol := if tc =? 6 then 7 else 0 in
  flag_get (if white then hasCastledWhite chess else hasCastledBlack chess) wing = true
  \/ rd chess fr rookCol <> Ok (if white then WHITE_ROOK else BLACK_ROOK)
  \/ (exists c p, Z.min fc rookCol < c < Z.max fc rookCol /\
                  rd chess fr c = Ok p /\ p <> EMPTY)
  \/ isKingInCheck chess white = Ok true
  \/ (exists c, Z.min fc tc <= c <= Z.max fc tc /\
                isSquareAttacked chess fr c (negb white) = Ok true) ->
  canCastle chess fr fc tr tc = Ok false.
Proof.
  intros Hwf Hking Hhome Hfc Htc white wing rookCol Hviol.
  apply rd_Ok in Hking as [Hf Hget].
  destruct (canCastle_spec chess fr fc tr tc Hwf Hf Htc) as (b & Hb & Hiff).
  rewrite Hb. f_equal. destruct b; [|reflexivity]. exfalso.
  destruct (proj1 Hiff eq_refl) as (Hrow & _ & Hflag & Hrook & Hbetween & Hchk & Htransit).
  rewrite Hget in *. fold white in Hrow, Hflag, Hrook, Hchk, Htransit.
  fold rookCol in Hrook, Hbetween.
  destruct Hviol as [H | [H | [(c & p & Hc & Hp & Hne) | [H | (c & Hc & H)]]]].
  - unfold wing in H. congruence.
  - apply H. rewrite rd_get; [congruence | assumption |].
    unfold rookCol, onBoard in *. destruct (tc =? 6); lia.
  - apply rd_Ok in Hp as [_ Hp]. rewrite Hbetween in Hp by assumption. congruence.
  - congruence.
  - rewrite Htransit in H by assumption. discriminate.
Qed.

Lemma canCastle_rejects_witness :
  canCastle initChessState 0 4 0 6 = Ok false.
Proof.
  apply (canCastle_rejects initChessState 0 4 0 6 WHITE_KING).
  - reflexivity.
  - reflexivity.
  - left. split; reflexivity.
  - reflexivity.
  - left. reflexivity.
  - right. right. left. exists 5, WHITE_BISHOP.
    split; [simpl; lia|]. split; [reflexivity | discriminate].
Defined.

(** C5 fails on the code.  In [pawnCoversF1] the white king stands on its
    home square e1 with its rook on h1, no flag is set, f1 and g1 are empty
    and the king is not in check.  The black pawn on e2 attacks f1, a square
    the king crosses in castling king side, so by the claim [canCastle]
    returns false; it returns true, because [isSquareAttacked] answers for a
    pawn on an empty square with the geometry of its advances and does not
    report f1.  It is the same in [pawnCoversG1], where the pawn on h2
    attacks the end square g1.  The four other violations are rejected, and
    so is a crossed square that [isSquareAttacked] does report
    ([canCastle_rejects]). *)
Theorem canCastle_accepts_attacked_transit :
  rd pawnCoversF1 0 4 = Ok WHITE_KING /\
  rd pawnCoversF1 0 7 = Ok WHITE_ROOK /\
  pawnAttacks pawnCoversF1 false 1 4 0 5 = true /\
  isKingInCheck pawnCoversF1 true = Ok false /\
  isSquareAttacked pawnCoversF1 0 5 false = Ok false /\
  canCastle pawnCoversF1 0 4 0 6 = Ok true /\
  rd pawnCoversG1 0 4 = Ok WHITE_KING /\
  rd pawnCoversG1 0 7 = Ok WHITE_ROOK /\
  pawnAttacks pawnCoversG1 false 1 7 0 6 = true /\
  isKingInCheck pawnCoversG1 true = Ok false /\
  isSquareAttacked pawnCoversG1 0 6 false = Ok false /\
  canCastle pawnCoversG1 0 4 0 6 = Ok true.
Proof. repeat split; vm_compute; reflexivity. Qed.

(** The flags that [makeMove] leaves set: both flags of a side whose king
    moved, and the flag of the wing whose rook left its corner. *)
Lemma makeMove_rights chess m _undo chess' u' moving :
  makeMove chess m _undo = Ok (chess', u') ->
  rd chess (fromRow m) (fromCol m) = Ok moving ->
  (promoted m moving = WHITE_KING -> hasCastledWhite chess' = (true, true)) /\
  (promoted m moving = BLACK_KING -> hasCastledBlack chess' = (true, true)) /\
  (promoted m moving = WHITE_ROOK -> fromRow m = 0 -> fromCol m = 7 ->
     flag_get (hasCastledWhite chess') 0 = true) /\
  (promoted m moving = WHITE_ROOK -> fromRow m = 0 -> fromCol m = 0 ->
     flag_get (hasCastledWhite chess') 1 = true) /\
  (promoted m moving = BLACK_ROOK -> fromRow m = 7 -> fromCol m = 7 ->
     flag_get (hasCastledBlack chess') 0 = true) /\
  (promoted m moving = BLACK_ROOK -> fromRow m = 7 -> fromCol m = 0 ->
     flag_get (hasCastledBlack chess') 1 = true).
Proof.
  unfold makeMove. intros H Hrd. rewrite Hrd in H. cbn [bind] in H.
  match type of H with
  | bind ?a _ = _ => destruct a as [c1| |]; try discriminate
  end.
  cbn [bind] in H.
  match type of H with
  | bind ?a _ = _ => destruct a as [[c2 u2]| |]; try discriminate
  end.
  cbn [bind] in H. fold (promoted m moving) in H.
  set (marked := markRights (promoted m moving) m
                   (markEnPassant (promoted m moving) m c2)) in H.
  assert (Hflags : hasCastledWhite chess' = hasCastledWhite marked /\
                   hasCastledBlack chess' = hasCastledBlack marked).
  { unfold wr in H.
    destruct (inBounds (toRow m) (toCol m)); [|discriminate].
    destruct (_ <? _)%nat; [|discriminate]. cbn [bind] in H.
    destruct (inBounds (fromRow m) (fromCol m)); [|discriminate].
    destruct (_ <? _)%nat; [|discriminate]. cbn [bind] in H.
    injection H as <- _. split; reflexivity. }
  destruct Hflags as [-> ->]. unfold marked, markRights.
  repeat split; intros E; rewrite E; cbn [peq bool_decide]; try reflexivity.
  all: intros -> ->; reflexivity.
Qed.

(** ** The starting position *)

(** C6.  From the position of [initChessState], [getAllMoves] returns exactly
    20 moves, all for White: the four knight moves, and for each of the eight
    files the single and the double advance of its pawn. *)
Theorem initial_position_moves :
  whiteToMove initChessState = true /\
  getAllMoves initChessState =
    Ok ([quiet 0 1 2 0; quiet 0 1 2 2; quiet 0 6 2 5; quiet 0 6 2 7]
        ++ flat_map (fun c => [quiet 1 c 2 c; quiet 1 c 3 c]) range8) /\
  length ([quiet 0 1 2 0; quiet 0 1 2 2; quiet 0 6 2 5; quiet 0 6 2 7]
          ++ flat_map (fun c => [quiet 1 c 2 c; quiet 1 c 3 c]) range8) = 20%nat /\
  map (rd initChessState 0) [1; 6] = [Ok WHITE_KNIGHT; Ok WHITE_KNIGHT] /\
  map (rd initChessState 1) range8 = replicate 8 (Ok WHITE_PAWN).
Proof. repeat split; vm_compute; reflexivity. Qed.

(** ** Undo with a null record *)

(** C10.  [unmakeMove] with a null undo pointer returns at once and leaves
    the position as it is. *)
Theorem unmakeMove_null_is_noop (chess : ChessState) (m : Move) :
  unmakeMove chess m None = Ok chess.
Proof. reflexivity. Qed.

(** ** Search at the leaves *)

Lemma evaluateMaterial_total chess whitePerspective :
  wf chess -> exists v, evaluateMaterial chess whitePerspective = Ok v.
Proof.
  intros Hwf. unfold evaluateMaterial.
  destruct (foldM_inv (evalStep chess whitePerspective) (fun _ => True) squares)
    with (s := 0) as (v & Hv & _); eauto.
  intros s [r c] Hin _. apply in_squares in Hin. unfold evalStep.
  rewrite (rd_get _ r c) by auto. cbn [bind].
  destruct (peq _ _); [eauto|]. destruct (isWhite _); eauto.
Qed.

(** C8.  At depth 0 [minimax] returns the value of [evaluateMaterial] for the
    same perspective flag (and counts one node, and leaves the position as it
    is).  At depth 1 or more, on a position for which [getAllMoves] returns
    no move, it returns 0 if [isKingInCheck] does not hold for the side to
    move, and otherwise the mate score against the side whose node this is:
    -10000 when the flag is set (a maximizing node, the maximizer is to move
    and mated) and 10000 when it is not (a minimizing node, the minimizer is
    mated). *)
Theorem minimax_terminal :
  (forall fuel chess b engine,
     wf chess ->
     exists v,
       evaluateMaterial chess b = Ok v /\
       minimax (S fuel) chess 0 b engine = Ok (v, chess, countNode engine)) /\
  (forall fuel chess depth b engine,
     wf chess -> 1 <= depth -> getAllMoves chess = Ok [] ->
     exists chk,
       isKingInCheck chess (whiteToMove chess) = Ok chk /\
       minimax (S fuel) chess depth b engine =
         Ok (if chk then (if b then -10000 else 10000) else 0,
             chess, countNode engine)).
Proof.
  split.
  - intros fuel chess b engine Hwf.
    destruct (evaluateMaterial_total chess b Hwf) as (v & Hv).
    exists v. split; [exact Hv|]. cbn [minimax]. rewrite Z.eqb_refl, Hv. reflexivity.
  - intros fuel chess depth b engine Hwf Hd Hnone.
    destruct (isKingInCheck_total chess (whiteToMove chess) Hwf) as (chk & Hchk).
    exists chk. split; [exact Hchk|]. cbn [minimax].
    destruct (Z.eqb_spec depth 0); [lia|].
    rewrite Hnone. cbn [bind length Z.of_nat Z.eqb]. rewrite Hchk. cbn [bind].
    destruct chk; reflexivity.
Qed.

(** In the calls the search makes the flag is set exactly when White is to
    move ([findBestMove] and [minimax] flip both together).  Then the mate
    score is relative to White: -10000 when White is the mated side, 10000
    when Black is. *)
Lemma minimax_mate_score_white_relative fuel chess depth engine :
  wf chess -> 1 <= depth -> getAllMoves chess = Ok [] ->
  isKingInCheck chess (whiteToMove chess) = Ok true ->
  minimax (S fuel) chess depth (whiteToMove chess) engine =
    Ok (if whiteToMove chess then -10000 else 10000, chess, countNode engine).
Proof.
  intros Hwf Hd Hnone Hchk. cbn [minimax].
  destruct (Z.eqb_spec depth 0); [lia|].
  rewrite Hnone. cbn [bind length Z.of_nat Z.eqb]. rewrite Hchk. reflexivity.
Qed.

Lemma minimax_terminal_witness :
  (exists v, evaluateMaterial initChessState true = Ok v /\
     minimax 1 initChessState 0 true engine0 = Ok (v, initChessState, countNode engine0)) /\
  minimax 1 backRankMate 3 true engine0 = Ok (-10000, backRankMate, countNode engine0) /\
  minimax 1 backRankMate 3 false engine0 = Ok (10000, backRankMate, countNode engine0) /\
  minimax 1 cornerStalemate 3 true engine0 = Ok (0, cornerStalemate, countNode engine0).
Proof.
  assert (Hm : getAllMoves backRankMate = Ok []) by (vm_compute; reflexivity).
  assert (Hs : getAllMoves cornerStalemate = Ok []) by (vm_compute; reflexivity).
  assert (Hcm : isKingInCheck backRankMate true = Ok true) by (vm_compute; reflexivity).
  assert (Hcs : isKingInCheck cornerStalemate true = Ok false) by (vm_compute; reflexivity).
  split; [|split; [|split]].
  - apply (proj1 minimax_terminal). reflexivity.
  - destruct (proj2 minimax_terminal 0%nat backRankMate 3 true engine0)
      as (chk & Hchk & Hres); [reflexivity | lia | exact Hm |].
    change (whiteToMove backRankMate) with true in Hchk.
    rewrite Hcm in Hchk. injection Hchk as <-. exact Hres.
  - destruct (proj2 minimax_terminal 0%nat backRankMate 3 false engine0)
      as (chk & Hchk & Hres); [reflexivity | lia | exact Hm |].
    change (whiteToMove backRankMate) with true in Hchk.
    rewrite Hcm in Hchk. injection Hchk as <-. exact Hres.
  - destruct (proj2 minimax_terminal 0%nat cornerStalemate 3 true engine0)
      as (chk & Hchk & Hres); [reflexivity | lia | exact Hs |].
    change (whiteToMove cornerStalemate) with true in Hchk.
    rewrite Hcs in Hchk. injection Hchk as <-. exact Hres.
Defined.

(** ** Pawns in attack queries *)

(** On an empty target square [canPieceAttackSquare] answers for a pawn with
    the geometry of its advances, and never with that of its captures. *)
Lemma pawn_attack_on_empty_square chess fr fc tr tc :
  wf chess -> onBoard fr fc -> onBoard tr tc ->
  get chess fr fc = WHITE_PAWN \/ get chess fr fc = BLACK_PAWN ->
  get chess tr tc = EMPTY ->
  let dir := if isWhite (get chess fr fc) then 1 else -1 in
  let startRow := if isWhite (get chess fr fc) then 1 else 6 in
  canPieceAttackSquare chess fr fc tr tc =
    Ok ((fc =? tc) &&
        ((tr =? fr + dir) ||
         ((fr =? startRow) && (tr =? fr + 2 * dir)
          && peq (get chess (fr + dir) fc) EMPTY))).
Proof.
  intros Hwf Hf Ht Hp He dir startRow. unfold canPieceAttackSquare.
  rewrite (onBoard_inBounds _ _ Ht). cbn [negb].
  rewrite (rd_get _ fr fc) by auto. cbn [bind].
  assert (Hpm : (if peq (get chess fr fc) EMPTY then Ok false
                 else match get chess fr fc with
                      | WHITE_PAWN | BLACK_PAWN => pawnMove chess fr fc tr tc
                      | WHITE_KNIGHT | BLACK_KNIGHT => knightMove chess fr fc tr tc
                      | WHITE_BISHOP | BLACK_BISHOP => bishopMove chess fr fc tr tc
                      | WHITE_ROOK | BLACK_ROOK => rookMove chess fr fc tr tc
                      | WHITE_QUEEN | BLACK_QUEEN => queenMove chess fr fc tr tc
                      | WHITE_KING | BLACK_KING =>
                          Ok ((Z.abs (fr - tr) <=? 1) && (Z.abs (fc - tc) <=? 1))
                      | EMPTY => Ok false
                      end) = pawnMove chess fr fc tr tc).
  { destruct Hp as [-> | ->]; reflexivity. }
  rewrite Hpm, pawnMove_get by auto. f_equal.
  unfold pawnMove_val. fold dir startRow. rewrite He.
  change (peq EMPTY EMPTY) with true. cbn [negb].
  rewrite !andb_true_r, andb_false_r, orb_false_r.
  destruct (fc =? tc), (tr =? fr + dir), (fr =? startRow), (tr =? fr + 2 * dir),
    (peq (get chess (fr + dir) fc) EMPTY); reflexivity.
Qed.

(** C3 fails on the code.  With a white pawn on a2 and nothing else near,
    [isSquareAttacked] reports the empty square a3 straight ahead of the pawn
    (and a4, its double advance) as attacked by White, and does not report
    the empty square b3 that the pawn covers diagonally.  Without the pawn
    none of the three squares is reported. *)
Theorem pawn_push_counts_as_attack :
  rd lonePawn 1 0 = Ok WHITE_PAWN /\
  isSquareAttacked lonePawn 2 0 true = Ok true /\
  isSquareAttacked lonePawn 3 0 true = Ok true /\
  isSquareAttacked lonePawn 2 1 true = Ok false /\
  isSquareAttacked bareKings 2 0 true = Ok false /\
  isSquareAttacked bareKings 3 0 true = Ok false /\
  isSquareAttacked bareKings 2 1 true = Ok false.
Proof. repeat split; vm_compute; reflexivity. Qed.

(** The empty square f1 that the king crosses is covered by the black pawn
    on e2, and yet [canCastle] and [isLegalMove] accept castling king side
    and [getAllMoves] returns it. *)
Lemma castling_across_pawn_cover_accepted :
  isSquareAttacked pawnCoversF1 0 5 false = Ok false /\
  canCastle pawnCoversF1 0 4 0 6 = Ok true /\
  isLegalMove pawnCoversF1 0 4 0 6 = Ok true /\
  exists moves, getAllMoves pawnCoversF1 = Ok moves /\
    In (mkMove 0 4 0 6 EMPTY false false true) moves.
Proof.
  repeat split; try (vm_compute; reflexivity).
  eexists. split; [vm_compute; reflexivity|]. simpl. tauto.
Qed.

(** ** En passant *)

(** No move that [getAllMoves] returns carries the en-passant flag. *)
Lemma getAllMoves_never_en_passant chess :
  wf chess ->
  exists moves, getAllMoves chess = Ok moves /\
    forall m, In m moves -> isEnPassant m = false.
Proof.
  intros Hwf. destruct (getAllMoves_spec chess Hwf) as (moves & Hmoves & Hgen).
  exists moves. split; [exact Hmoves|]. intros m Hin.
  now destruct (generated_facts chess m Hwf (Hgen m Hin)).
Qed.

(** C4 fails on the code.  After the double advance e2-e4 next to a black
    pawn on d4, [makeMove] records file 4 in [enPassantCol], but
    [isLegalMove] rejects the capture d4 x e3 and [getAllMoves] returns no
    move from d4 to e3: the black pawn's only move is d4-d3. *)
Theorem en_passant_capture_is_not_generated :
  (exists moves, getAllMoves beforePush = Ok moves /\ In (quiet 1 4 3 4) moves) /\
  makeMove beforePush (quiet 1 4 3 4) None = Ok (afterPush, None) /\
  enPassantCol afterPush = 4 /\
  rd afterPush 3 4 = Ok WHITE_PAWN /\
  rd afterPush 3 3 = Ok BLACK_PAWN /\
  rd afterPush 2 4 = Ok EMPTY /\
  isLegalMove afterPush 3 3 2 4 = Ok false /\
  (exists moves, getAllMoves afterPush = Ok moves /\
     filter (fun m => fromRow m = 3 /\ fromCol m = 3) moves = [quiet 3 3 2 3]).
Proof.
  split.
  - eexists. split; [vm_compute; reflexivity|]. simpl. tauto.
  - repeat split; try (vm_compute; reflexivity).
    eexists. split; vm_compute; reflexivity.
Qed.

(** What [makeMove] does leave in [enPassantCol]: the file of the moved
    piece if that is a pawn moving two rows, and -1 otherwise. *)
Lemma makeMove_enPassantCol chess m _undo chess' u' :
  makeMove chess m _undo = Ok (chess', u') ->
  exists moving,
    rd chess (fromRow m) (fromCol m) = Ok moving /\
    enPassantCol chess' =
      if (peq (promoted m moving) WHITE_PAWN || peq (promoted m moving) BLACK_PAWN)
         && (Z.abs (toRow m - fromRow m) =? 2)
      then fromCol m else -1.
Proof.
  unfold makeMove.
  destruct (rd chess (fromRow m) (fromCol m)) as [moving| |]; try discriminate.
  cbn [bind]. intros H. exists moving. split; [reflexivity|].
  match type of H with
  | bind ?a _ = _ => destruct a as [c1| |]; try discriminate
  end.
  cbn [bind] in H.
  match type of H with
  | bind ?a _ = _ => destruct a as [[c2 u2]| |]; try discriminate
  end.
  cbn [bind] in H. fold (promoted m moving) in H.
  set (marked := markRights (promoted m moving) m
                   (markEnPassant (promoted m moving) m c2)) in H.
  assert (Hep : enPassantCol marked =
                if (peq (promoted m moving) WHITE_PAWN || peq (promoted m moving) BLACK_PAWN)
                   && (Z.abs (toRow m - fromRow m) =? 2)
                then fromCol m else -1).
  { unfold marked, markRights, markEnPassant.
    repeat match goal with
           | |- context [if ?b then _ else _] => destruct b
           end; reflexivity. }
  unfold wr in H.
  destruct (inBounds (toRow m) (toCol m)); [|discriminate].
  destruct (_ <? _)%nat; [|discriminate]. cbn [bind] in H.
  destruct (inBounds (fromRow m) (fromCol m)); [|discriminate].
  destruct (_ <? _)%nat; [|discriminate]. cbn [bind] in H.
  injection H as <- _. exact Hep.
Qed.

(** ** Bounds *)

(** C7 fails on the code.  With the from-square (-1, -1) that the renderer
    passes while nothing is selected, [isLegalMove] gets past its bounds
    check, which looks at the destination only, and reads [board[-1][-1]]. *)
Theorem isLegalMove_unselected_reads_outside (chess : ChessState) (tr tc : Z) :
  onBoard tr tc ->
  isLegalMove chess (-1) (-1) tr tc = OutOfBounds.
Proof.
  intros Ht. unfold isLegalMove. rewrite (onBoard_inBounds _ _ Ht). reflexivity.
Qed.

Lemma isLegalMove_unselected_reads_outside_witness :
  isLegalMove initChessState (selectedRow initChessState) (selectedCol initChessState)
    0 0 = OutOfBounds.
Proof.
  apply (isLegalMove_unselected_reads_outside initChessState 0 0).
  unfold onBoard. lia.
Defined.

(** ** The fuel of the inner loops is never used up

    The loops of [pathClear] and [canCastle] stop by themselves or leave the
    board before their fuel runs out, on every input: [OutOfFuel] is not a
    result of the oracle or of the move generator. *)

Lemma fuelled_Ok {A} (a : A) : fuelled (Ok a).
Proof. discriminate. Qed.

Lemma fuelled_OutOfBounds {A} : fuelled (@OutOfBounds A).
Proof. discriminate. Qed.

Lemma fuelled_bind {A B} (m : res A) (k : A -> res B) :
  fuelled m -> (forall a, m = Ok a -> fuelled (k a)) -> fuelled (bind m k).
Proof.
  unfold fuelled. destruct m; cbn [bind]; intros Hm Hk; auto.
Qed.

Lemma fuelled_rd chess r c : fuelled (rd chess r c).
Proof.
  unfold rd. destruct (inBounds r c); [|discriminate].
  destruct (_ !! _); discriminate.
Qed.

Lemma fuelled_wr chess r c p : fuelled (wr chess r c p).
Proof.
  unfold wr. destruct (inBounds r c); [|discriminate].
  destruct (_ <? _)%nat; discriminate.
Qed.

Lemma fuelled_andM a b : fuelled b -> fuelled (andM a b).
Proof. destruct a; cbn [andM]; [auto | discriminate]. Qed.

Lemma fuelled_anyM {A} (f : A -> res bool) l :
  (forall x, fuelled (f x)) -> fuelled (anyM f l).
Proof.
  intros Hf. induction l as [|x l IH]; cbn [anyM]; [discriminate|].
  apply fuelled_bind; [apply Hf|]. intros [] _; [discriminate | exact IH].
Qed.

Lemma fuelled_foldM {A S} (f : S -> A -> res S) l :
  (forall s x, fuelled (f s x)) -> forall s, fuelled (foldM f l s).
Proof.
  intros Hf. induction l as [|x l IH]; intros s; cbn [foldM]; [discriminate|].
  apply fuelled_bind; [apply Hf|]. intros s' _. apply IH.
Qed.

Lemma pathClear_loop_exhausted chess dr dc tr tc :
  forall (fuel : nat) r c,
    pathClear_loop fuel chess r c dr dc tr tc = OutOfFuel ->
    forall k, 0 <= k < Z.of_nat fuel -> onBoard (r + k * dr) (c + k * dc).
Proof.
  induction fuel as [|fuel IH]; intros r c H k Hk; [lia|].
  cbn [pathClear_loop] in H.
  destruct (negb (r =? tr) || negb (c =? tc)); [|discriminate].
  destruct (rd chess r c) as [p| |] eqn:Hrd; cbn [bind] in H; try discriminate;
    [|now apply fuelled_rd in Hrd].
  apply rd_Ok in Hrd as [Hb _].
  destruct (negb (peq p EMPTY)); [discriminate|].
  destruct (Z.eq_dec k 0) as [->|Hk0].
  - now rewrite !Z.mul_0_l, !Z.add_0_r.
  - specialize (IH _ _ H (k - 1)).
    replace (r + dr + (k - 1) * dr) with (r + k * dr) in IH by lia.
    replace (c + dc + (k - 1) * dc) with (c + k * dc) in IH by lia.
    apply IH. lia.
Qed.

Lemma pathClear_fuel_enough chess fr fc tr tc : fuelled (pathClear chess fr fc tr tc).
Proof.
  unfold fuelled, pathClear. intros H.
  pose proof (pathClear_loop_exhausted _ _ _ _ _ _ _ _ H 0 ltac:(lia)) as H0.
  pose proof (pathClear_loop_exhausted _ _ _ _ _ _ _ _ H 8 ltac:(lia)) as H8.
  assert (tr = fr /\ tc = fc) as [-> ->].
  { unfold onBoard in *.
    destruct (sgn_cases tr fr) as [[? E1]|[[? E1]|[? E1]]],
             (sgn_cases tc fc) as [[? E2]|[[? E2]|[? E2]]];
      rewrite E1, E2 in *; lia. }
  revert H. unfold sgn. rewrite !Z.gtb_ltb, !Z.ltb_irrefl.
  cbn [pathClear_loop]. rewrite !Z.add_0_r, !Z.eqb_refl. discriminate.
Qed.

Lemma castle_between_loop_exhausted chess fr step rookCol :
  forall (fuel : nat) c,
    castle_between_loop fuel chess fr c step rookCol = OutOfFuel ->
    forall k, 0 <= k < Z.of_nat fuel -> onBoard fr (c + k * step).
Proof.
  induction fuel as [|fuel IH]; intros c H k Hk; [lia|].
  cbn [castle_between_loop] in H.
  destruct (negb (c =? rookCol)); [|discriminate].
  destruct (rd chess fr c) as [p| |] eqn:Hrd; cbn [bind] in H; try discriminate;
    [|now apply fuelled_rd in Hrd].
  apply rd_Ok in Hrd as [Hb _].
  destruct (negb (peq p EMPTY)); [discriminate|].
  destruct (Z.eq_dec k 0) as [->|Hk0].
  - now rewrite Z.mul_0_l, Z.add_0_r.
  - specialize (IH _ H (k - 1)).
    replace (c + step + (k - 1) * step) with (c + k * step) in IH by lia.
    apply IH. lia.
Qed.

Lemma fuelled_rookMove chess fr fc tr tc : fuelled (rookMove chess fr fc tr tc).
Proof.
  unfold rookMove. destruct (_ && _); [discriminate | apply pathClear_fuel_enough].
Qed.

Lemma fuelled_bishopMove chess fr fc tr tc : fuelled (bishopMove chess fr fc tr tc).
Proof.
  unfold bishopMove. destruct (negb _); [discriminate | apply pathClear_fuel_enough].
Qed.

Lemma fuelled_queenMove chess fr fc tr tc : fuelled (queenMove chess fr fc tr tc).
Proof.
  unfold queenMove. apply fuelled_bind; [apply fuelled_rookMove|].
  intros [] _; [discriminate | apply fuelled_bishopMove].
Qed.

Lemma fuelled_pawnMove chess fr fc tr tc : fuelled (pawnMove chess fr fc tr tc).
Proof.
  unfold pawnMove.
  repeat first
    [ apply fuelled_rd | apply fuelled_Ok | apply fuelled_andM
    | apply fuelled_bind; [|intros ? _]
    | match goal with |- fuelled (if ?b then _ else _) => destruct b end ].
Qed.

Lemma fuelled_canPieceAttackSquare chess fr fc tr tc :
  fuelled (canPieceAttackSquare chess fr fc tr tc).
Proof.
  unfold canPieceAttackSquare. destruct (negb _); [discriminate|].
  apply fuelled_bind; [apply fuelled_rd|]. intros p _.
  destruct (peq p EMPTY); [discriminate|].
  destruct p; first [ discriminate | apply fuelled_pawnMove | apply fuelled_rookMove
                    | apply fuelled_bishopMove | apply fuelled_queenMove ].
Qed.

Lemma fuelled_isSquareAttacked chess r c byWhite :
  fuelled (isSquareAttacked chess r c byWhite).
Proof.
  unfold isSquareAttacked. apply fuelled_anyM. intros [fr fc]. unfold attackedFrom.
  apply fuelled_bind; [apply fuelled_rd|]. intros p _.
  repeat match goal with |- fuelled (if ?b then _ else _) => destruct b end;
    first [discriminate | apply fuelled_canPieceAttackSquare].
Qed.

Lemma fuelled_isKingInCheck chess whiteKing : fuelled (isKingInCheck chess whiteKing).
Proof.
  unfold isKingInCheck. induction squares as [|[r c] l IH];
    cbn [isKingInCheck_loop]; [discriminate|].
  apply fuelled_bind; [apply fuelled_rd|]. intros p _.
  destruct (_ || _); [apply fuelled_isSquareAttacked | exact IH].
Qed.

Lemma castle_transit_loop_fuelled chess fr step stop byWhite :
  step = 1 \/ step = -1 ->
  forall (fuel : nat) c,
    0 <= (stop - c) * step <= Z.of_nat fuel ->
    fuelled (castle_transit_loop fuel chess fr c step stop byWhite).
Proof.
  intros Hstep. induction fuel as [|fuel IH]; intros c Hc.
  - assert (c = stop) as -> by lia. cbn [castle_transit_loop].
    rewrite Z.eqb_refl. discriminate.
  - cbn [castle_transit_loop]. destruct (Z.eqb_spec c stop); [discriminate|].
    cbn [negb]. apply fuelled_bind; [apply fuelled_isSquareAttacked|].
    intros [] _; [discriminate|]. apply IH. lia.
Qed.

Lemma fuelled_canCastle chess fr fc tr tc : fuelled (canCastle chess fr fc tr tc).
Proof.
  unfold canCastle. apply fuelled_bind; [apply fuelled_rd|]. intros king _.
  destruct (_ && _); [discriminate|]. destruct (_ && _); [discriminate|].
  destruct (Z.eqb_spec fc 4) as [->|]; [|discriminate]. cbn [negb].
  destruct (_ && _); [discriminate|]. destruct (_ && _); [discriminate|].
  apply fuelled_bind; [apply fuelled_rd|]. intros rook _.
  destruct (negb _); [discriminate|].
  apply fuelled_bind.
  - intros H.
    pose proof (castle_between_loop_exhausted _ _ _ _ _ _ H 0 ltac:(lia)) as H0.
    pose proof (castle_between_loop_exhausted _ _ _ _ _ _ H 8 ltac:(lia)) as H8.
    unfold onBoard in *. destruct (tc >? 4); lia.
  - intros clear _. destruct (negb clear); [discriminate|].
    apply fuelled_bind; [apply fuelled_isKingInCheck|].
    intros [] _; [discriminate|].
    apply castle_transit_loop_fuelled.
    + destruct (tc >? 4); auto.
    + destruct (Z.gtb_spec tc 4); lia.
Qed.

Lemma fuelled_isLegalMove chess fr fc tr tc : fuelled (isLegalMove chess fr fc tr tc).
Proof.
  unfold isLegalMove. destruct (negb _); [discriminate|].
  apply fuelled_bind; [apply fuelled_rd|]. intros p _.
  destruct (peq p EMPTY); [discriminate|].
  apply fuelled_bind; [apply fuelled_rd|]. intros target _.
  destruct (sameColor p target); [discriminate|].
  apply fuelled_bind.
  - destruct p; first [ discriminate | apply fuelled_pawnMove | apply fuelled_rookMove
                      | apply fuelled_bishopMove | apply fuelled_queenMove | idtac ].
    all: unfold kingMove; destruct (_ && _); [discriminate|];
         destruct (_ && _); [apply fuelled_canCastle | discriminate].
  - intros ok _. destruct (negb ok); [discriminate|].
    apply fuelled_bind; [apply fuelled_rd|]. intros m _.
    apply fuelled_bind; [apply fuelled_wr|]. intros c1 _.
    apply fuelled_bind; [apply fuelled_wr|]. intros c2 _.
    apply fuelled_bind; [apply fuelled_rd|]. intros q _.
    apply fuelled_bind; [apply fuelled_isKingInCheck|]. intros chk _. discriminate.
Qed.

Lemma fuelled_getAllMoves chess : fuelled (getAllMoves chess).
Proof.
  unfold getAllMoves. apply fuelled_foldM. intros moves [r c]. unfold genFrom.
  apply fuelled_bind; [apply fuelled_rd|]. intros p _.
  destruct (peq p EMPTY); [discriminate|].
  destruct (_ && _); [discriminate|]. destruct (_ && _); [discriminate|].
  apply fuelled_foldM. intros ms [r2 c2]. unfold genMove.
  apply fuelled_bind; [apply fuelled_isLegalMove|]. intros [] _; [|discriminate].
  destruct (_ >=? _); [discriminate|].
  apply fuelled_bind; [apply fuelled_rd|]. intros t _.
  apply fuelled_bind.
  - apply fuelled_andM. apply fuelled_bind; [apply fuelled_rd|]. discriminate.
  - intros [] _; [|discriminate].
    apply fuelled_bind; [apply fuelled_rd|]. discriminate.
Qed.

(** * Further properties *)

(** ** [makeMove] on an arbitrary move *)

Lemma wr_Ok chess r c p chess' :
  wr chess r c p = Ok chess' -> onBoard r c /\ chess' = upd chess r c p.
Proof.
  unfold wr, upd. destruct (inBounds r c) eqn:Hb; [|discriminate].
  apply inBounds_true in Hb. destruct (_ <? _)%nat; [|discriminate].
  intros [= <-]. auto.
Qed.

Lemma wr_off_board chess r c p : ~ onBoard r c -> wr chess r c p = OutOfBounds.
Proof. intros H. apply inBounds_false in H. unfold wr. now rewrite H. Qed.

Lemma rd_off_board chess r c : ~ onBoard r c -> rd chess r c = OutOfBounds.
Proof. intros H. apply inBounds_false in H. unfold rd. now rewrite H. Qed.

Lemma onBoard_dec r c : {onBoard r c} + {~ onBoard r c}.
Proof.
  unfold onBoard.
  destruct (Z_le_dec 0 r), (Z_lt_dec r 8), (Z_le_dec 0 c), (Z_lt_dec c 8);
    (left; lia) || (right; lia).
Qed.

Lemma makeMove_closed chess m _undo :
  wf chess -> playable chess m ->
  makeMove chess m _undo = Ok (afterMove chess m, undoAfter chess m _undo).
Proof.
  intros Hwf (Hf & Ht & Hv).
  destruct (rook_cols_onBoard m (fromRow m)) as [Hrf Hrt]; [onb|].
  unfold makeMove, afterMove, undoAfter, castleFlag, victimRow in *.
  fold (rookFromCol m) (rookToCol m). mstep. cbv zeta.
  destruct (isCastling m), (isEnPassant m);
    try specialize (Hv eq_refl);
    repeat mstep;
    try (destruct (peq (get chess (fromRow m) (fromCol m)) WHITE_KING); cbn [bind]);
    repeat mstep; destruct _undo; reflexivity.
Qed.

Lemma makeMove_Ok_playable chess m _undo r :
  makeMove chess m _undo = Ok r -> playable chess m.
Proof.
  unfold makeMove, playable, victimRow. intros H.
  destruct (rd chess (fromRow m) (fromCol m)) as [moving| |] eqn:Hrd;
    cbn [bind] in H; try discriminate.
  apply rd_Ok in Hrd as [Hf Hget]. rewrite Hget.
  match type of H with
  | bind ?a _ = _ => destruct a as [c1| |]; cbn [bind] in H; try discriminate
  end.
  destruct (isEnPassant m) eqn:He.
  - destruct (wr c1 _ (toCol m) EMPTY) as [c2| |] eqn:Hw; cbn [bind] in H;
      try discriminate.
    apply wr_Ok in Hw as [Hv _].
    match type of H with
    | bind ?a _ = _ => destruct a as [c3| |] eqn:Hw3; cbn [bind] in H; try discriminate
    end.
    apply wr_Ok in Hw3 as [Ht _]. auto.
  - cbn [bind] in H.
    match type of H with
    | bind ?a _ = _ => destruct a as [c3| |] eqn:Hw3; cbn [bind] in H; try discriminate
    end.
    apply wr_Ok in Hw3 as [Ht _].
    split; [exact Hf|]. split; [exact Ht|]. intros; discriminate.
Qed.

Lemma fuelled_makeMove chess m _undo : fuelled (makeMove chess m _undo).
Proof.
  unfold makeMove.
  apply fuelled_bind; [apply fuelled_rd|]. intros moving _.
  apply fuelled_bind.
  - destruct (isCastling m); [|discriminate].
    apply fuelled_bind; [apply fuelled_rd|]. intros rook _.
    apply fuelled_bind; [apply fuelled_wr|]. intros c1 _.
    apply fuelled_bind; [apply fuelled_wr|]. intros c2 _.
    destruct (peq moving WHITE_KING); discriminate.
  - intros c1 _. apply fuelled_bind.
    + destruct (isEnPassant m); [|discriminate].
      apply fuelled_bind; [apply fuelled_wr|]. discriminate.
    + intros [c2 u2] _.
      apply fuelled_bind; [apply fuelled_wr|]. intros c3 _.
      apply fuelled_bind; [apply fuelled_wr|]. discriminate.
Qed.

Lemma afterMove_wf chess m : wf chess -> wf (afterMove chess m).
Proof.
  intros. unfold afterMove. cbv zeta.
  destruct (isCastling m), (isEnPassant m); auto 12 with wfdb.
Qed.

Lemma afterMove_whiteToMove chess m :
  whiteToMove (afterMove chess m) = negb (whiteToMove chess).
Proof.
  unfold afterMove. cbv zeta.
  destruct (isCastling m), (isEnPassant m); now autorewrite with framedb.
Qed.

Lemma afterMove_meta chess m : meta (afterMove chess m) = meta chess.
Proof.
  unfold afterMove. cbv zeta.
  destruct (isCastling m), (isEnPassant m); now autorewrite with framedb.
Qed.

Lemma makeMove_Ok_after chess m _undo chess' u' :
  wf chess -> makeMove chess m _undo = Ok (chess', u') ->
  chess' = afterMove chess m /\ u' = undoAfter chess m _undo.
Proof.
  intros Hwf H. pose proof (makeMove_Ok_playable _ _ _ _ H) as Hp.
  rewrite (makeMove_closed chess m _undo Hwf Hp) in H. injection H as <- <-. auto.
Qed.

(** X1.  On a position with its 64 cells [makeMove] returns exactly when the
    from-square, the to-square and, for a move flagged en passant, the square
    of the pawn to remove are on the board; otherwise it accesses the board
    outside its bounds. *)
Theorem makeMove_returns_iff_on_board (chess : ChessState) (m : Move)
    (_undo : option UndoInfo) :
  wf chess ->
  (playable chess m ->
   makeMove chess m _undo = Ok (afterMove chess m, undoAfter chess m _undo)) /\
  (~ playable chess m -> makeMove chess m _undo = OutOfBounds).
Proof.
  intros Hwf. split; [now apply makeMove_closed|].
  intros Hn. destruct (makeMove chess m _undo) as [r| |] eqn:H.
  - exfalso. apply Hn. eapply makeMove_Ok_playable. exact H.
  - reflexivity.
  - now apply fuelled_makeMove in H.
Qed.

Lemma makeMove_returns_iff_on_board_witness :
  makeMove initChessState (quiet 1 4 3 4) None
    = Ok (afterMove initChessState (quiet 1 4 3 4), None) /\
  makeMove initChessState (quiet 6 4 8 4) None = OutOfBounds.
Proof.
  destruct (makeMove_returns_iff_on_board initChessState (quiet 1 4 3 4) None)
    as [H1 _]; [reflexivity|].
  destruct (makeMove_returns_iff_on_board initChessState (quiet 6 4 8 4) None)
    as [_ H2]; [reflexivity|].
  split.
  - apply H1. unfold playable, onBoard. simpl. repeat split; lia.
  - apply H2. unfold playable, onBoard. simpl. lia.
Defined.

(** X2.  Whatever the move, when [makeMove] returns it has passed the turn to
    the other side, left the selection and the engine fields of the position
    alone and kept the board at 64 cells; and the position it produces does
    not depend on whether an undo record was passed. *)
Theorem makeMove_frame (chess : ChessState) (m : Move) (_undo : option UndoInfo)
    (chess' : ChessState) (u' : option UndoInfo) :
  wf chess ->
  makeMove chess m _undo = Ok (chess', u') ->
  wf chess' /\
  whiteToMove chess' = negb (whiteToMove chess) /\
  meta chess' = meta chess /\
  makeMove chess m None = Ok (chess', None).
Proof.
  intros Hwf H. pose proof (makeMove_Ok_playable _ _ _ _ H) as Hp.
  rewrite (makeMove_closed chess m _undo Hwf Hp) in H. injection H as <- <-.
  split; [now apply afterMove_wf|].
  split; [apply afterMove_whiteToMove|].
  split; [apply afterMove_meta|].
  now apply makeMove_closed.
Qed.

Lemma makeMove_frame_witness :
  wf (afterMove initChessState (quiet 1 4 3 4)) /\
  whiteToMove (afterMove initChessState (quiet 1 4 3 4))
    = negb (whiteToMove initChessState) /\
  meta (afterMove initChessState (quiet 1 4 3 4)) = meta initChessState /\
  makeMove initChessState (quiet 1 4 3 4) None
    = Ok (afterMove initChessState (quiet 1 4 3 4), None).
Proof.
  apply (makeMove_frame initChessState (quiet 1 4 3 4) (Some undoLocal)
           (afterMove initChessState (quiet 1 4 3 4))
           (undoAfter initChessState (quiet 1 4 3 4) (Some undoLocal))).
  - reflexivity.
  - vm_compute. reflexivity.
Defined.

(** ** Material evaluation *)

Lemma PIECE_VALUES_range p : 0 <= PIECE_VALUES p <= 9.
Proof. destruct p; simpl; lia. Qed.

Lemma evalStep_Ok chess b value r c :
  wf chess -> onBoard r c ->
  exists d, evalStep chess b value (r, c) = Ok (value + d) /\
    Z.abs d <= 9 /\
    evalStep chess (negb b) (- value) (r, c) = Ok (- (value + d)).
Proof.
  intros Hwf Hb. unfold evalStep. rewrite (rd_get _ r c) by auto. cbn [bind].
  pose proof (PIECE_VALUES_range (get chess r c)) as Hv.
  destruct (peq _ _).
  - exists 0. rewrite Z.add_0_r. repeat split; auto. simpl. lia.
  - destruct (isWhite _), b; cbn [negb]; eexists; (split; [reflexivity|]);
      (split; [lia | f_equal; lia]).
Qed.

Lemma evalFold chess b l :
  wf chess -> (forall sq, In sq l -> In sq squares) ->
  forall value,
  exists d, foldM (evalStep chess b) l value = Ok (value + d) /\
    Z.abs d <= 9 * Z.of_nat (length l) /\
    foldM (evalStep chess (negb b)) l (- value) = Ok (- (value + d)).
Proof.
  intros Hwf. induction l as [|[r c] l IH]; intros Hl value.
  - exists 0. rewrite Z.add_0_r. simpl. repeat split; auto. lia.
  - assert (Hb : onBoard r c) by (apply in_squares, Hl; now left).
    destruct (evalStep_Ok chess b value r c Hwf Hb) as (d1 & H1 & Hd1 & H1').
    destruct (IH (fun sq Hsq => Hl sq (or_intror Hsq)) (value + d1))
      as (d2 & H2 & Hd2 & H2').
    exists (d1 + d2). cbn [foldM]. rewrite H1, H1'. cbn [bind].
    rewrite H2, H2'. rewrite Z.add_assoc.
    repeat split; auto. cbn [length]. lia.
Qed.

(** X3.  [evaluateMaterial] returns on every position with its 64 cells, its
    value lies between -576 and 576, and the value for Black's perspective is
    the negation of the value for White's. *)
Theorem evaluateMaterial_antisymmetric (chess : ChessState) :
  wf chess ->
  exists v,
    evaluateMaterial chess true = Ok v /\
    evaluateMaterial chess false = Ok (- v) /\
    -576 <= v <= 576.
Proof.
  intros Hwf. unfold evaluateMaterial.
  destruct (evalFold chess true squares Hwf (fun _ H => H) 0) as (d & H1 & Hd & H2).
  exists d. change (- 0) with 0 in H2. rewrite Z.add_0_l in H1, H2.
  cbn [negb] in H2. rewrite H1, H2.
  change (Z.of_nat (length squares)) with 64 in Hd.
  repeat split; auto; lia.
Qed.

Lemma evaluateMaterial_antisymmetric_witness :
  exists v,
    evaluateMaterial backRankMate true = Ok v /\
    evaluateMaterial backRankMate false = Ok (- v) /\
    -576 <= v <= 576.
Proof. apply evaluateMaterial_antisymmetric. reflexivity. Defined.

Lemma evaluateMaterial_bound chess b v :
  wf chess -> evaluateMaterial chess b = Ok v -> -576 <= v <= 576.
Proof.
  intros Hwf H. unfold evaluateMaterial in H.
  destruct (evalFold chess b squares Hwf (fun _ H => H) 0) as (d & H1 & Hd & _).
  rewrite H1 in H. injection H as <-.
  change (Z.of_nat (length squares)) with 64 in Hd. lia.
Qed.

(** ** Search *)

Lemma generated_step chess m :
  wf chess -> generated chess m ->
  exists c1 u1,
    makeMove chess m (Some undoLocal) = Ok (c1, Some u1) /\ wf c1 /\
    whiteToMove c1 = negb (whiteToMove chess) /\
    unmakeMove c1 m (Some u1) = Ok chess.
Proof.
  intros Hwf Hgen.
  destruct (generated_facts chess m Hwf Hgen)
    as [Hf Ht Hd Hpc Hcol Hep Hcap Hpro Hsafe Hcast].
  assert (Hrt : exists c1 u1,
            makeMove chess m (Some undoLocal) = Ok (c1, Some u1) /\
            unmakeMove c1 m (Some u1) = Ok chess).
  { destruct (isCastling m) eqn:Hc.
    - destruct (Hcast eq_refl) as (Hp & Hfc & Htr & Htc & _ & _ & _ & Hrto & Hto).
      now apply roundtrip_castle.
    - now apply roundtrip_plain. }
  destruct Hrt as (c1 & u1 & Hmk & Hun). exists c1, u1.
  destruct (makeMove_Ok_after _ _ _ _ _ Hwf Hmk) as [-> _].
  split; [exact Hmk|]. split; [now apply afterMove_wf|].
  split; [apply afterMove_whiteToMove | exact Hun].
Qed.

Lemma wrap32_range z : -2147483648 <= wrap32 z < 2147483648.
Proof. unfold wrap32. pose proof (Z.mod_pos_bound (z + 2147483648) 4294967296). lia. Qed.

Lemma wrap32_small z : -2147483648 <= z < 2147483648 -> wrap32 z = z.
Proof. intros H. unfold wrap32. rewrite Z.mod_small by lia. lia. Qed.

Lemma countNode_wraps e :
  nodesSearched e = 2147483647 -> nodesSearched (countNode e) = -2147483648.
Proof. intros H. unfold countNode. cbn [nodesSearched]. rewrite H. reflexivity. Qed.

Lemma minimaxStep_OK search better chess e0 best e m :
  (better = Z.gtb \/ better = Z.ltb) ->
  searchOK search -> wf chess -> generated chess m ->
  -10000 <= best <= 10000 ->
  engineRest e = engineRest e0 ->
  exists best' e',
    minimaxStep search better (best, chess, e) m = Ok (best', chess, e') /\
    -10000 <= best' <= 10000 /\ engineRest e' = engineRest e0.
Proof.
  intros Hb Hs Hwf Hgen Hbest Hr.
  destruct (generated_step chess m Hwf Hgen) as (c1 & u1 & Hmk & Hwf1 & _ & Hun).
  destruct (Hs c1 e Hwf1) as (v & e' & Hv & Hvb & Hr').
  unfold minimaxStep. rewrite Hmk. cbn [bind]. rewrite Hv. cbn [bind].
  rewrite Hun. cbn [bind].
  exists (if better v best then v else best), e'.
  split; [reflexivity|]. split; [destruct (better v best); lia|].
  congruence.
Qed.

Lemma minimax_fold search better chess e0 moves :
  (better = Z.gtb \/ better = Z.ltb) ->
  searchOK search -> wf chess -> (forall m, In m moves -> generated chess m) ->
  forall best e,
    -10000 <= best <= 10000 ->
    engineRest e = engineRest e0 ->
    exists best' e',
      foldM (minimaxStep search better) moves (best, chess, e) = Ok (best', chess, e') /\
      -10000 <= best' <= 10000 /\ engineRest e' = engineRest e0.
Proof.
  intros Hb Hs Hwf. induction moves as [|m moves IH]; intros Hgen best e Hbest Hr.
  - exists best, e. auto.
  - destruct (minimaxStep_OK search better chess e0 best e m)
      as (b1 & e1 & H1 & Hb1 & Hr1); auto.
    { apply Hgen. now left. }
    cbn [foldM]. rewrite H1. cbn [bind].
    apply IH; auto. intros m' Hm'. apply Hgen. now right.
Qed.

Lemma minimax_searchOK fuel depth b :
  0 <= depth < Z.of_nat fuel ->
  searchOK (fun c e => minimax fuel c depth b e).
Proof.
  revert depth b. induction fuel as [|fuel IH]; intros depth b Hd; [lia|].
  intros chess e Hwf. cbn [minimax].
  assert (Hc2 : engineRest (countNode e) = engineRest e) by reflexivity.
  destruct (Z.eqb_spec depth 0) as [->|Hne].
  - destruct (evaluateMaterial_total chess b Hwf) as (v & Hv).
    rewrite Hv. cbn [bind]. exists v, (countNode e). split; [reflexivity|].
    pose proof (evaluateMaterial_bound chess b v Hwf Hv). split; [lia | exact Hc2].
  - destruct (getAllMoves_spec chess Hwf) as (moves & Hmoves & Hgen).
    rewrite Hmoves. cbn [bind].
    destruct (Z.of_nat (length moves) =? 0).
    + destruct (isKingInCheck_total chess (whiteToMove chess) Hwf) as (chk & ->).
      cbn [bind]. destruct chk; [destruct b|]; eexists _, _;
        (split; [reflexivity|]); (split; [lia | exact Hc2]).
    + assert (Hs : searchOK (fun c e => minimax fuel c (depth - 1) (negb b) e)).
      { apply IH. lia. }
      destruct b.
      * destruct (minimax_fold _ Z.gtb chess (countNode e) moves (or_introl eq_refl)
                    Hs Hwf Hgen (-10000) (countNode e))
          as (v & e' & Hf & Hv & Hr); try lia; auto.
        exists v, e'. split; [exact Hf|]. split; [lia | congruence].
      * destruct (minimax_fold _ Z.ltb chess (countNode e) moves (or_intror eq_refl)
                    Hs Hwf Hgen 10000 (countNode e))
          as (v & e' & Hf & Hv & Hr); try lia; auto.
        exists v, e'. split; [exact Hf|]. split; [lia | congruence].
Qed.

(** X4.  With more fuel than the depth asked for, [minimax] returns on every
    position with its 64 cells; it hands the position back exactly as it got
    it, its score lies between -10000 and 10000, and it has written no engine
    field other than the node counter. *)
Theorem minimax_returns_and_restores (fuel : nat) (chess : ChessState) (depth : Z)
    (b : bool) (engine : Engine) :
  wf chess -> 0 <= depth < Z.of_nat fuel ->
  exists v engine',
    minimax fuel chess depth b engine = Ok (v, chess, engine') /\
    -10000 <= v <= 10000 /\
    engineRest engine' = engineRest engine.
Proof.
  intros Hwf Hd. exact (minimax_searchOK fuel depth b Hd chess engine Hwf).
Qed.

Lemma minimax_returns_and_restores_witness :
  exists v engine',
    minimax 3 initChessState 2 true engine0 = Ok (v, initChessState, engine') /\
    -10000 <= v <= 10000 /\
    engineRest engine' = engineRest engine0.
Proof.
  apply minimax_returns_and_restores; [reflexivity | simpl; lia].
Defined.

(** ** Choosing a move *)

Lemma foldM_prefix {A S} (f : S -> A -> res S) (I : list A -> S -> Prop) l :
  (forall P x s, I P s -> In x l -> exists s', f s x = Ok s' /\ I (P ++ [x]) s') ->
  forall P s, I P s -> exists s', foldM f l s = Ok s' /\ I (P ++ l) s'.
Proof.
  induction l as [|x l IH]; intros Hstep P s HI.
  - exists s. rewrite app_nil_r. auto.
  - destruct (Hstep P x s HI (or_introl eq_refl)) as (s1 & H1 & HI1).
    cbn [foldM]. rewrite H1. cbn [bind].
    destruct (IH (fun P y s H Hy => Hstep P y s H (or_intror Hy)) (P ++ [x]) s1 HI1)
      as (s' & H' & HI').
    exists s'. split; auto. now rewrite <- app_assoc in HI'.
Qed.

Lemma findBestStep_OK search better chess e0 bestEval bestMove e mv :
  searchOK search -> wf chess -> generated chess mv ->
  engineRest e = engineRest e0 ->
  exists v e',
    findBestStep search better (bestEval, bestMove, chess, e) mv
      = Ok (if better v bestEval then (v, mv, chess, e')
            else (bestEval, bestMove, chess, e')) /\
    seen search (afterMove chess mv) v /\ -10000 <= v <= 10000 /\
    engineRest e' = engineRest e0.
Proof.
  intros Hs Hwf Hgen Hr.
  destruct (generated_step chess mv Hwf Hgen) as (c1 & u1 & Hmk & Hwf1 & _ & Hun).
  destruct (makeMove_Ok_after _ _ _ _ _ Hwf Hmk) as [-> _].
  destruct (Hs _ e Hwf1) as (v & e' & Hv & Hvb & Hr').
  exists v, e'. unfold findBestStep. rewrite Hmk. cbn [bind]. rewrite Hv. cbn [bind].
  rewrite Hun. cbn [bind].
  split; [reflexivity|]. split; [now exists e, e'|].
  split; [exact Hvb | congruence].
Qed.

Lemma better_cases better :
  better = Z.gtb \/ better = Z.ltb ->
  (forall v, better v v = false) /\
  (forall a b c, better a b = false -> better c b = true -> better a c = false).
Proof.
  intros [-> | ->]; split; intros; rewrite ?Z.gtb_ltb in *;
    repeat match goal with
    | H : (_ <? _) = true |- _ => apply Z.ltb_lt in H
    | H : (_ <? _) = false |- _ => apply Z.ltb_ge in H
    end; try apply Z.ltb_ge; lia.
Qed.

Lemma findBest_fold search better chess e0 moves :
  (better = Z.gtb \/ better = Z.ltb) ->
  searchOK search -> wf chess -> (forall m, In m moves -> generated chess m) ->
  forall P acc, bestSoFar search better chess e0 P acc ->
    exists acc', foldM (findBestStep search better) moves acc = Ok acc' /\
      bestSoFar search better chess e0 (P ++ moves) acc'.
Proof.
  intros Hb Hs Hwf Hgen. apply foldM_prefix.
  intros P x [[[bestEval bestMove] c] e] (-> & Hr & Hin & Hseen & Hall) Hx.
  destruct (findBestStep_OK search better chess e0 bestEval bestMove e x)
    as (v & e' & Hstep & Hv & _ & Hr'); auto.
  destruct (better_cases better Hb) as [Hirr Htr].
  rewrite Hstep. destruct (better v bestEval) eqn:Hbt; eexists; (split; [reflexivity|]).
  - split; [reflexivity|]. split; [exact Hr'|].
    split; [apply in_or_app; right; now left|]. split; [exact Hv|].
    intros y Hy. apply in_app_or in Hy as [Hy | [<- | []]].
    + destruct (Hall y Hy) as (w & Hw & Hwb). exists w. split; [exact Hw|].
      now apply (Htr w bestEval v).
    + exists v. auto.
  - split; [reflexivity|]. split; [exact Hr'|].
    split; [apply in_or_app; now left|]. split; [exact Hseen|].
    intros y Hy. apply in_app_or in Hy as [Hy | [<- | []]]; [now apply Hall|].
    exists v. auto.
Qed.

Lemma findBest_first search better chess e0 init first :
  (better = Z.gtb /\ init = -10000 \/ better = Z.ltb /\ init = 10000) ->
  searchOK search -> wf chess -> generated chess first ->
  exists acc, findBestStep search better (init, first, chess, e0) first = Ok acc /\
    bestSoFar search better chess e0 [first] acc.
Proof.
  intros Hb Hs Hwf Hgen.
  destruct (findBestStep_OK search better chess e0 init first e0 first)
    as (v & e' & Hstep & Hv & Hvb & Hr'); auto.
  rewrite Hstep.
  assert (Hirr : forall v, better v v = false).
  { apply better_cases. destruct Hb as [[-> _] | [-> _]]; auto. }
  destruct (better v init) eqn:Hbt; eexists; (split; [reflexivity|]).
  - split; [reflexivity|]. split; [exact Hr'|].
    split; [now left|]. split; [exact Hv|].
    intros y [<- | []]. exists v. auto.
  - assert (v = init).
    { destruct Hb as [[-> ->] | [-> ->]]; rewrite ?Z.gtb_ltb in Hbt;
        apply Z.ltb_ge in Hbt; lia. }
    subst v.
    split; [reflexivity|]. split; [exact Hr'|].
    split; [now left|]. split; [exact Hv|].
    intros y [<- | []]. exists init. auto.
Qed.

Lemma findBestMove_spec fuel chess depth engine :
  wf chess -> 1 <= depth <= Z.of_nat fuel ->
  exists moves m engine',
    getAllMoves chess = Ok moves /\
    (forall x, In x moves -> generated chess x) /\
    findBestMove fuel chess depth engine = Ok (m, chess, engine') /\
    (moves = [] -> m = zeroMove /\ engine' = engine) /\
    (moves <> [] ->
     In m moves /\
     exists best, seen (rootSearch fuel depth chess) (afterMove chess m) best /\
       forall x, In x moves ->
         exists v, seen (rootSearch fuel depth chess) (afterMove chess x) v /\
           rootBetter chess v best = false) /\
    engineRest engine' = engineRest engine.
Proof.
  intros Hwf Hd.
  destruct (getAllMoves_spec chess Hwf) as (moves & Hmoves & Hgen).
  exists moves. unfold findBestMove. rewrite Hmoves. cbn [bind].
  destruct moves as [|first rest].
  - exists zeroMove, engine. split; [reflexivity|]. split; [exact Hgen|].
    split; [reflexivity|]. split; [auto|]. split; [intros Hne; now destruct Hne|].
    reflexivity.
  - assert (Hs : searchOK (rootSearch fuel depth chess)).
    { unfold rootSearch. apply minimax_searchOK. lia. }
    assert (Hsel : exists better init,
      (better = Z.gtb /\ init = -10000 \/ better = Z.ltb /\ init = 10000) /\
      better = rootBetter chess /\
      (if whiteToMove chess
       then foldM (findBestStep (fun c e => minimax fuel c (depth - 1) false e) Z.gtb)
              (first :: rest) (-10000, first, chess, engine)
       else foldM (findBestStep (fun c e => minimax fuel c (depth - 1) true e) Z.ltb)
              (first :: rest) (10000, first, chess, engine))
      = foldM (findBestStep (rootSearch fuel depth chess) better)
          (first :: rest) (init, first, chess, engine)).
    { unfold rootSearch, rootBetter. destruct (whiteToMove chess); cbn [negb].
      - exists Z.gtb, (-10000). auto.
      - exists Z.ltb, 10000. auto. }
    destruct Hsel as (better & init & Hb & Hbr & ->). rewrite <- Hbr.
    destruct (findBest_first (rootSearch fuel depth chess) better chess engine init
                first Hb Hs Hwf)
      as (acc1 & H1 & HJ1); [apply Hgen; now left|].
    cbn [foldM]. rewrite H1. cbn [bind].
    assert (Hbb : better = Z.gtb \/ better = Z.ltb).
    { destruct Hb as [[-> _] | [-> _]]; auto. }
    destruct (findBest_fold (rootSearch fuel depth chess) better chess engine rest
                Hbb Hs Hwf (fun m Hm => Hgen m (or_intror Hm)) [first] acc1 HJ1)
      as ([[[bestEval bestMove] c] e] & H2 & HJ2).
    rewrite H2. cbn [bind].
    destruct HJ2 as (-> & Hr & Hin & Hseen & Hall).
    exists bestMove, e. split; [reflexivity|]. split; [exact Hgen|].
    split; [reflexivity|]. split; [discriminate|].
    split; [|exact Hr]. intros _. split; [exact Hin|]. exists bestEval. auto.
Qed.

(** X5.  With at least as much fuel as the depth, [findBestMove] returns on
    every position with its 64 cells and hands the position back as it got
    it.  Without a move for the side to move it returns the all-zero move and
    leaves the engine record as it was; otherwise it returns one of the moves
    of [getAllMoves].  It writes no engine field other than the node
    counter. *)
Theorem findBestMove_returns_generated_move (fuel : nat) (chess : ChessState)
    (depth : Z) (engine : Engine) :
  wf chess -> 1 <= depth <= Z.of_nat fuel ->
  exists moves m engine',
    getAllMoves chess = Ok moves /\
    findBestMove fuel chess depth engine = Ok (m, chess, engine') /\
    (moves = [] -> m = zeroMove /\ engine' = engine) /\
    (moves <> [] -> In m moves) /\
    engineRest engine' = engineRest engine.
Proof.
  intros Hwf Hd.
  destruct (findBestMove_spec fuel chess depth engine Hwf Hd)
    as (moves & m & e' & Hm & _ & Hf & H0 & H1 & Hr).
  exists moves, m, e'. split; [exact Hm|]. split; [exact Hf|].
  split; [exact H0|]. split; [|exact Hr].
  intros Hne. now apply H1.
Qed.

Lemma findBestMove_returns_generated_move_witness :
  exists moves m engine',
    getAllMoves initChessState = Ok moves /\
    findBestMove 2 initChessState 2 engine0 = Ok (m, initChessState, engine') /\
    (moves = [] -> m = zeroMove /\ engine' = engine0) /\
    (moves <> [] -> In m moves) /\
    engineRest engine' = engineRest engine0.
Proof.
  apply findBestMove_returns_generated_move; [reflexivity | simpl; lia].
Defined.

Lemma evaluateMaterial_neg chess :
  wf chess ->
  exists w, evaluateMaterial chess true = Ok w /\ evaluateMaterial chess false = Ok (- w).
Proof.
  intros Hwf. unfold evaluateMaterial.
  destruct (evalFold chess true squares Hwf (fun _ H => H) 0) as (d & H1 & Hd & H2).
  exists d. change (- 0) with 0 in H2. rewrite Z.add_0_l in H1, H2.
  cbn [negb] in H2. rewrite H1, H2. auto.
Qed.

Lemma seen_leaf fuel chess c b v :
  seen (rootSearch (S fuel) 1 chess) c v ->
  b = negb (whiteToMove chess) -> evaluateMaterial c b = Ok v.
Proof.
  intros (e & e' & H) ->. unfold rootSearch in H. cbn [minimax] in H.
  change (1 - 1 =? 0) with true in H. cbv iota in H.
  destruct (evaluateMaterial c (negb (whiteToMove chess))) as [w| |];
    cbn [bind] in H; try discriminate.
  now injection H as ->.
Qed.

(** X6.  At depth 1 [findBestMove] scores each move by [evaluateMaterial] on
    the position after it, taken for the perspective of the side that is then
    to move.  Whichever side moves, the move it returns therefore leaves
    White's material balance no greater than any other move of
    [getAllMoves] would. *)
Theorem findBestMove_depth_one (fuel : nat) (chess : ChessState) (engine : Engine) :
  wf chess -> (1 <= fuel)%nat ->
  exists moves m engine',
    getAllMoves chess = Ok moves /\
    findBestMove fuel chess 1 engine = Ok (m, chess, engine') /\
    forall m', In m' moves ->
      exists v v',
        evaluateMaterial (afterMove chess m) true = Ok v /\
        evaluateMaterial (afterMove chess m') true = Ok v' /\
        v <= v'.
Proof.
  intros Hwf Hfuel. destruct fuel as [|fuel]; [lia|].
  destruct (findBestMove_spec (S fuel) chess 1 engine Hwf)
    as (moves & m & e' & Hm & _ & Hf & _ & H1 & _); [lia|].
  exists moves, m, e'. split; [exact Hm|]. split; [exact Hf|].
  intros m' Hin.
  destruct H1 as (_ & best & Hbest & Hall); [intros ->; destruct Hin|].
  destruct (Hall m' Hin) as (v' & Hv' & Hcmp).
  pose proof (seen_leaf _ _ _ _ _ Hbest eq_refl) as Hb.
  pose proof (seen_leaf _ _ _ _ _ Hv' eq_refl) as Hb'.
  destruct (evaluateMaterial_neg (afterMove chess m)) as (w & Hw & Hwn);
    [now apply afterMove_wf|].
  destruct (evaluateMaterial_neg (afterMove chess m')) as (w' & Hw' & Hwn');
    [now apply afterMove_wf|].
  exists w, w'. split; [exact Hw|]. split; [exact Hw'|].
  unfold rootBetter in Hcmp. destruct (whiteToMove chess); cbn [negb] in Hb, Hb'.
  - rewrite Hwn in Hb. rewrite Hwn' in Hb'. injection Hb as <-. injection Hb' as <-.
    rewrite Z.gtb_ltb in Hcmp. apply Z.ltb_ge in Hcmp. lia.
  - rewrite Hw in Hb. rewrite Hw' in Hb'. injection Hb as <-. injection Hb' as <-.
    apply Z.ltb_ge in Hcmp. lia.
Qed.

Lemma findBestMove_depth_one_witness :
  exists moves m engine',
    getAllMoves lonePawn = Ok moves /\
    findBestMove 1 lonePawn 1 engine0 = Ok (m, lonePawn, engine') /\
    forall m', In m' moves ->
      exists v v',
        evaluateMaterial (afterMove lonePawn m) true = Ok v /\
        evaluateMaterial (afterMove lonePawn m') true = Ok v' /\
        v <= v'.
Proof. apply findBestMove_depth_one; [reflexivity | lia]. Defined.

(** ** The engine's run *)

Lemma deepenStep_OK fuel chess moves d m0 e :
  wf chess -> getAllMoves chess = Ok moves -> 1 <= d <= Z.of_nat fuel ->
  exists m e',
    deepenStep fuel (m0, chess, e) d = Ok (m, chess, e') /\
    depthCompleted e' = d /\
    (moves = [] -> m = zeroMove) /\ (moves <> [] -> In m moves).
Proof.
  intros Hwf Hmoves Hd.
  destruct (findBestMove_spec fuel chess d e Hwf Hd)
    as (moves' & m & e' & Hm & _ & Hf & H0 & H1 & _).
  rewrite Hmoves in Hm. injection Hm as <-.
  exists m, (set_depthCompleted d e'). unfold deepenStep. rewrite Hf. cbn [bind].
  split; [reflexivity|]. split; [reflexivity|].
  split; [intros E; now apply H0 | intros E; now apply H1].
Qed.

(** X7.  Run to its end with fuel for depth 5, [engine_thread_func] returns on
    every position with its 64 cells.  It leaves [hasMove] set, [searching] at
    0 and [depthCompleted] at 5, and the move it publishes is the all-zero
    move when the side to move has no move and otherwise one of the moves of
    [getAllMoves] for the position it copied. *)
Theorem engine_thread_func_publishes (fuel : nat) (chess : ChessState) (engine : Engine) :
  wf chess -> (5 <= fuel)%nat ->
  exists moves engine',
    getAllMoves chess = Ok moves /\
    engine_thread_func fuel chess engine = Ok engine' /\
    hasMove engine' = true /\ searching engine' = 0 /\ depthCompleted engine' = 5 /\
    (moves = [] -> resultMove engine' = zeroMove) /\
    (moves <> [] -> In (resultMove engine') moves).
Proof.
  intros Hwf Hfuel.
  destruct (getAllMoves_spec chess Hwf) as (moves & Hmoves & _).
  exists moves. unfold engine_thread_func. cbn [foldM].
  set (e0 := set_searching 1 (set_depthCompleted 0 (set_nodesSearched 0 engine))).
  destruct (deepenStep_OK fuel chess moves 1 zeroMove e0 Hwf Hmoves)
    as (m1 & e1 & -> & _); [lia|]. cbn [bind].
  destruct (deepenStep_OK fuel chess moves 2 m1 e1 Hwf Hmoves)
    as (m2 & e2 & -> & _); [lia|]. cbn [bind].
  destruct (deepenStep_OK fuel chess moves 3 m2 e2 Hwf Hmoves)
    as (m3 & e3 & -> & _); [lia|]. cbn [bind].
  destruct (deepenStep_OK fuel chess moves 4 m3 e3 Hwf Hmoves)
    as (m4 & e4 & -> & _); [lia|]. cbn [bind].
  destruct (deepenStep_OK fuel chess moves 5 m4 e4 Hwf Hmoves)
    as (m5 & e5 & -> & Hd5 & H0 & H1); [lia|]. cbn [bind].
  eexists. split; [exact Hmoves|]. split; [reflexivity|].
  split; [reflexivity|]. split; [reflexivity|]. split; [exact Hd5|].
  split; [exact H0 | exact H1].
Qed.

Lemma engine_thread_func_publishes_witness :
  exists moves engine',
    getAllMoves initChessState = Ok moves /\
    engine_thread_func 5 initChessState engine0 = Ok engine' /\
    hasMove engine' = true /\ searching engine' = 0 /\ depthCompleted engine' = 5 /\
    (moves = [] -> resultMove engine' = zeroMove) /\
    (moves <> [] -> In (resultMove engine') moves).
Proof. apply engine_thread_func_publishes; [reflexivity | lia]. Defined.

(** ** The list of moves *)

Lemma take_snoc_cap (L : list Move) (x : Move) :
  (if Z.of_nat (length (take 256 L)) >=? 256 then take 256 L else take 256 L ++ [x])
  = take 256 (L ++ [x]).
Proof.
  destruct (Z.geb_spec (Z.of_nat (length (take 256 L))) 256) as [H|H];
    rewrite length_take in H.
  - rewrite take_app_le by lia. reflexivity.
  - rewrite (take_ge L) by lia. rewrite take_ge; [reflexivity|].
    rewrite length_app. simpl. lia.
Qed.

Lemma genMove_closed chess r c L r2 c2 :
  wf chess -> onBoard r c -> onBoard r2 c2 ->
  genMove chess r c (get chess r c) (take 256 L) (r2, c2)
  = Ok (take 256 (L ++ candidatesTo chess r c (r2, c2))).
Proof.
  intros Hwf Hf Ht. unfold genMove, candidatesTo, legal. cbn [fst snd].
  destruct (isLegalMove_total chess r c r2 c2) as (ok & Hok); auto.
  rewrite Hok. cbn [bind]. destruct ok; [|now rewrite app_nil_r].
  rewrite <- take_snoc_cap.
  destruct (_ >=? _); [reflexivity|].
  rewrite (rd_get _ r2 c2) by auto. cbn [bind].
  assert (Hep : andM ((peq (get chess r c) WHITE_PAWN || peq (get chess r c) BLACK_PAWN)
                      && negb (c =? c2))
                 (Ok (peq (get chess r2 c2) EMPTY)) = Ok false).
  { destruct (_ && _) eqn:E; [|reflexivity]. cbn [andM]. f_equal.
    apply peq_false.
    apply andb_true_iff in E as [Epawn Ecol].
    apply negb_true_iff, Z.eqb_neq in Ecol.
    apply (pawn_capture_needs_target chess r c r2 c2); auto.
    apply isLegalMove_true in Hok as (_ & _ & _ & Hpm & _); auto.
    apply orb_true_iff in Epawn. rewrite !peq_true in Epawn.
    destruct Epawn as [E|E]; rewrite E in Hpm; exact Hpm. }
  rewrite Hep. cbn [bind]. reflexivity.
Qed.

Lemma genMove_fold chess r c l :
  wf chess -> onBoard r c -> (forall sq, In sq l -> In sq squares) ->
  forall L,
    foldM (genMove chess r c (get chess r c)) l (take 256 L)
    = Ok (take 256 (L ++ flat_map (candidatesTo chess r c) l)).
Proof.
  intros Hwf Hf. induction l as [|[r2 c2] l IH]; intros Hl L.
  - simpl. now rewrite app_nil_r.
  - cbn [foldM flat_map]. rewrite genMove_closed; auto.
    + cbn [bind]. rewrite IH by (intros sq Hsq; apply Hl; now right).
      now rewrite <- app_assoc.
    + apply in_squares, Hl. now left.
Qed.

Lemma genFrom_closed chess L r c :
  wf chess -> onBoard r c ->
  genFrom chess (take 256 L) (r, c) = Ok (take 256 (L ++ candidatesFrom chess (r, c))).
Proof.
  intros Hwf Hf. unfold genFrom, candidatesFrom, mover. cbn [fst snd].
  rewrite (rd_get _ r c) by auto. cbn [bind].
  destruct (peq _ _); cbn [negb andb]; [now rewrite app_nil_r|].
  destruct (whiteToMove chess && _); cbn [negb andb]; [now rewrite app_nil_r|].
  destruct (negb (whiteToMove chess) && _); cbn [negb andb]; [now rewrite app_nil_r|].
  apply genMove_fold; auto.
Qed.

Lemma genFrom_fold chess l :
  wf chess -> (forall sq, In sq l -> In sq squares) ->
  forall L,
    foldM (genFrom chess) l (take 256 L)
    = Ok (take 256 (L ++ flat_map (candidatesFrom chess) l)).
Proof.
  intros Hwf. induction l as [|[r c] l IH]; intros Hl L.
  - simpl. now rewrite app_nil_r.
  - cbn [foldM flat_map]. rewrite genFrom_closed; auto.
    + cbn [bind]. rewrite IH by (intros sq Hsq; apply Hl; now right).
      now rewrite <- app_assoc.
    + apply in_squares, Hl. now left.
Qed.

Lemma getAllMoves_closed chess :
  wf chess -> getAllMoves chess = Ok (take 256 (candidates chess)).
Proof.
  intros Hwf. unfold getAllMoves, candidates.
  change (@nil Move) with (take 256 (@nil Move)) at 1.
  rewrite genFrom_fold; auto.
Qed.

Lemma mover_colour chess p :
  mover chess p = true <-> p <> EMPTY /\ isWhite p = whiteToMove chess.
Proof.
  unfold mover. rewrite !andb_true_iff, !negb_true_iff, peq_false.
  destruct (whiteToMove chess), p; cbv; intuition congruence.
Qed.

Lemma candidates_generated chess m :
  wf chess -> In m (candidates chess) <-> generated chess m.
Proof.
  intros Hwf. unfold candidates, candidatesFrom, candidatesTo, legal. split.
  - intros H. apply in_flat_map in H as ([r c] & Hsrc & H). cbn [fst snd] in H.
    destruct (mover chess (get chess r c)) eqn:Hm; [|destruct H].
    apply in_flat_map in H as ([r2 c2] & Hdst & H). cbn [fst snd] in H.
    destruct (isLegalMove chess r c r2 c2) as [[|]| |] eqn:Hl; try destruct H.
    + subst m. apply mover_colour in Hm as [_ Hcol].
      apply in_squares in Hsrc, Hdst. exists r, c, r2, c2. auto.
    + destruct H.
  - intros (r & c & r2 & c2 & Hf & Ht & Hcol & Hl & ->).
    apply in_flat_map. exists (r, c). split; [now apply in_squares|]. cbn [fst snd].
    assert (Hm : mover chess (get chess r c) = true).
    { apply mover_colour. split; [|exact Hcol].
      now apply isLegalMove_true in Hl as (Hne & _). }
    rewrite Hm. apply in_flat_map. exists (r2, c2). split; [now apply in_squares|].
    cbn [fst snd]. rewrite Hl. now left.
Qed.

(** X8.  On every position with its 64 cells [getAllMoves] returns at most
    256 moves, each of them a move of a piece of the side to move that
    [isLegalMove] accepts, recorded with the piece on its target square and
    never flagged en passant.  When it returns fewer than 256 moves, it
    returns every such move. *)
Theorem getAllMoves_sound_and_complete (chess : ChessState) :
  wf chess ->
  exists moves,
    getAllMoves chess = Ok moves /\
    (length moves <= 256)%nat /\
    (forall m, In m moves -> generated chess m) /\
    ((length moves < 256)%nat -> forall m, generated chess m -> In m moves).
Proof.
  intros Hwf. exists (take 256 (candidates chess)).
  split; [now apply getAllMoves_closed|].
  split; [rewrite length_take; lia|].
  split.
  - intros m Hm. apply candidates_generated; [exact Hwf|].
    rewrite <- (take_drop 256 (candidates chess)). apply in_or_app. now left.
  - intros Hlen m Hm. rewrite length_take in Hlen.
    rewrite take_ge by lia. now apply candidates_generated.
Qed.

Lemma getAllMoves_sound_and_complete_witness :
  exists moves,
    getAllMoves initChessState = Ok moves /\
    (length moves <= 256)%nat /\
    (forall m, In m moves -> generated initChessState m) /\
    ((length moves < 256)%nat -> forall m, generated initChessState m -> In m moves).
Proof. apply getAllMoves_sound_and_complete. reflexivity. Defined.

(** ** End of the game *)

Lemma no_moves_iff chess moves :
  wf chess -> getAllMoves chess = Ok moves ->
  (Z.of_nat (length moves) =? 0) = true <-> forall m, ~ generated chess m.
Proof.
  intros Hwf Hmoves. rewrite getAllMoves_closed in Hmoves by auto.
  injection Hmoves as <-. rewrite Z.eqb_eq. split.
  - intros Hlen m Hm. apply candidates_generated in Hm; [|exact Hwf].
    rewrite length_take in Hlen.
    destruct (candidates chess); [destruct Hm | simpl in Hlen; lia].
  - intros Hno. destruct (candidates chess) as [|m l] eqn:E; [reflexivity|].
    exfalso. apply (Hno m). apply candidates_generated; [exact Hwf|].
    rewrite E. now left.
Qed.

Lemma game_end_spec chess :
  wf chess ->
  exists chk moves,
    isKingInCheck chess (whiteToMove chess) = Ok chk /\
    getAllMoves chess = Ok moves /\
    isCheckmate chess = Ok (chk && (Z.of_nat (length moves) =? 0)) /\
    isStalemate chess = Ok (negb chk && (Z.of_nat (length moves) =? 0)) /\
    exists lines, announce chess = Ok lines /\ (length lines <= 1)%nat /\
      (lines = [] <-> chk = false /\ (Z.of_nat (length moves) =? 0) = false).
Proof.
  intros Hwf.
  destruct (isKingInCheck_total chess (whiteToMove chess) Hwf) as (chk & Hchk).
  destruct (getAllMoves_spec chess Hwf) as (moves & Hmoves & _).
  exists chk, moves. split; [exact Hchk|]. split; [exact Hmoves|].
  assert (Hmate : isCheckmate chess = Ok (chk && (Z.of_nat (length moves) =? 0))).
  { unfold isCheckmate. rewrite Hchk. cbn [bind]. destruct chk; cbn [negb andb].
    - rewrite Hmoves. reflexivity.
    - reflexivity. }
  assert (Hstale : isStalemate chess = Ok (negb chk && (Z.of_nat (length moves) =? 0))).
  { unfold isStalemate. rewrite Hchk. cbn [bind]. destruct chk; cbn [negb andb].
    - reflexivity.
    - rewrite Hmoves. reflexivity. }
  split; [exact Hmate|]. split; [exact Hstale|].
  unfold announce. rewrite Hmate, Hstale, Hchk. cbn [bind].
  destruct chk, (Z.of_nat (length moves) =? 0); cbn [negb andb bind];
    eexists; (split; [reflexivity|]); (split; [simpl; lia|]);
    (split; [intros E; try discriminate E; auto
            | intros [E1 E2]; try discriminate E1; try discriminate E2; reflexivity]).
Qed.

(** X9.  On every position with its 64 cells [isCheckmate], [isStalemate] and
    the status chain built on them return.  [isCheckmate] answers true
    exactly when [isKingInCheck] does for the side to move and [isLegalMove]
    accepts no move of a piece of that side; [isStalemate] exactly when
    [isKingInCheck] answers false and no such move is accepted.  The chain
    prints at most one line, and none exactly when the side to move is not
    in check and has a move. *)
Theorem game_end_tests (chess : ChessState) :
  wf chess ->
  exists chk mate stale lines,
    isKingInCheck chess (whiteToMove chess) = Ok chk /\
    isCheckmate chess = Ok mate /\ isStalemate chess = Ok stale /\
    announce chess = Ok lines /\
    (mate = true <-> chk = true /\ forall m, ~ generated chess m) /\
    (stale = true <-> chk = false /\ forall m, ~ generated chess m) /\
    (length lines <= 1)%nat /\
    (lines = [] <-> chk = false /\ exists m, generated chess m).
Proof.
  intros Hwf.
  destruct (game_end_spec chess Hwf)
    as (chk & moves & Hchk & Hmoves & Hmate & Hstale & lines & Hann & Hlen & Hnil).
  pose proof (no_moves_iff chess moves Hwf Hmoves) as Hno.
  exists chk, (chk && (Z.of_nat (length moves) =? 0)),
    (negb chk && (Z.of_nat (length moves) =? 0)), lines.
  split; [exact Hchk|]. split; [exact Hmate|].
  split; [exact Hstale|]. split; [exact Hann|].
  split; [rewrite andb_true_iff, Hno; tauto|].
  split; [rewrite andb_true_iff, negb_true_iff, Hno; tauto|].
  split; [exact Hlen|].
  rewrite Hnil. split; intros [Hc Hm]; (split; [exact Hc|]).
  - rewrite getAllMoves_closed in Hmoves by auto. injection Hmoves as <-.
    destruct (candidates chess) as [|m l] eqn:E; [discriminate|].
    exists m. apply candidates_generated; [exact Hwf|]. rewrite E. now left.
  - destruct (Z.of_nat (length moves) =? 0) eqn:E; [|reflexivity].
    destruct Hm as (m & Hm). apply Hno in Hm; [destruct Hm | reflexivity].
Qed.

Lemma game_end_tests_witness :
  exists chk mate stale lines,
    isKingInCheck cornerStalemate (whiteToMove cornerStalemate) = Ok chk /\
    isCheckmate cornerStalemate = Ok mate /\ isStalemate cornerStalemate = Ok stale /\
    announce cornerStalemate = Ok lines /\
    (mate = true <-> chk = true /\ forall m, ~ generated cornerStalemate m) /\
    (stale = true <-> chk = false /\ forall m, ~ generated cornerStalemate m) /\
    (length lines <= 1)%nat /\
    (lines = [] <-> chk = false /\ exists m, generated cornerStalemate m).
Proof. apply game_end_tests. reflexivity. Defined.

(** ** The engine's reply *)

Lemma announce_total chess :
  wf chess -> exists lines, announce chess = Ok lines /\ (length lines <= 1)%nat.
Proof.
  intros Hwf.
  destruct (game_end_spec chess Hwf) as (_ & _ & _ & _ & _ & _ & lines & H & Hl & _).
  eauto.
Qed.

Lemma pollEngine_spec chess engine :
  wf chess -> hasMove engine = true -> playable chess (resultMove engine) ->
  exists lines,
    pollEngine chess engine
    = Ok (afterMove chess (resultMove engine), set_hasMove false engine,
          ("Engine move: " +:+ move2chars (resultMove engine)) :: lines) /\
    (length lines <= 1)%nat.
Proof.
  intros Hwf Hh Hp. unfold pollEngine. rewrite Hh.
  rewrite (makeMove_closed chess _ _ Hwf Hp). cbn [bind].
  destruct (announce_total (afterMove chess (resultMove engine))) as (lines & Ha & Hl).
  { now apply afterMove_wf. }
  rewrite Ha. cbn [bind]. eauto.
Qed.

Lemma generated_playable chess m : wf chess -> generated chess m -> playable chess m.
Proof.
  intros Hwf Hg. destruct (generated_facts chess m Hwf Hg) as [Hf Ht _ _ _ Hep _ _ _ _].
  split; [exact Hf|]. split; [exact Ht|]. rewrite Hep. discriminate.
Qed.

Lemma zeroMove_playable chess : playable chess zeroMove.
Proof.
  unfold playable, onBoard. simpl.
  split; [lia|]. split; [lia|]. discriminate.
Qed.

Lemma engine_reply_spec fuel chess engine :
  wf chess -> (5 <= fuel)%nat ->
  exists moves engine' lines,
    getAllMoves chess = Ok moves /\
    engine_thread_func fuel chess engine = Ok engine' /\
    pollEngine chess engine'
    = Ok (afterMove chess (resultMove engine'), set_hasMove false engine',
          ("Engine move: " +:+ move2chars (resultMove engine')) :: lines) /\
    (length lines <= 1)%nat /\ hasMove engine' = true /\
    (moves = [] -> resultMove engine' = zeroMove) /\
    (moves <> [] -> generated chess (resultMove engine')).
Proof.
  intros Hwf Hfuel.
  destruct (getAllMoves_spec chess Hwf) as (moves & Hmoves & Hgen).
  exists moves. unfold engine_thread_func. cbn [foldM].
  set (e0 := set_searching 1 (set_depthCompleted 0 (set_nodesSearched 0 engine))).
  destruct (deepenStep_OK fuel chess moves 1 zeroMove e0 Hwf Hmoves)
    as (m1 & e1 & -> & _); [lia|]. cbn [bind].
  destruct (deepenStep_OK fuel chess moves 2 m1 e1 Hwf Hmoves)
    as (m2 & e2 & -> & _); [lia|]. cbn [bind].
  destruct (deepenStep_OK fuel chess moves 3 m2 e2 Hwf Hmoves)
    as (m3 & e3 & -> & _); [lia|]. cbn [bind].
  destruct (deepenStep_OK fuel chess moves 4 m3 e3 Hwf Hmoves)
    as (m4 & e4 & -> & _); [lia|]. cbn [bind].
  destruct (deepenStep_OK fuel chess moves 5 m4 e4 Hwf Hmoves)
    as (m5 & e5 & -> & _ & H0 & H1); [lia|]. cbn [bind].
  set (e' := set_searching 0 (set_hasMove true (set_resultMove m5 e5))).
  assert (Hp : playable chess (resultMove e')).
  { change (resultMove e') with m5. destruct moves as [|x l].
    - rewrite H0 by reflexivity. apply zeroMove_playable.
    - apply generated_playable; [exact Hwf|]. apply Hgen, H1. discriminate. }
  destruct (pollEngine_spec chess e' Hwf eq_refl Hp) as (lines & Hpoll & Hl).
  exists e', lines. split; [exact Hmoves|]. split; [reflexivity|].
  split; [exact Hpoll|]. split; [exact Hl|]. split; [reflexivity|].
  split; [exact H0|]. intros Hne. apply Hgen. now apply H1.
Qed.

(** X10.  When the engine has run on a position with its 64 cells and its
    result is collected while the position is still the one it copied, the
    poll clears [hasMove], plays the published move with [makeMove], and
    prints the move followed by at most one status line.  If the side to
    move had a move, the move played is one that [isLegalMove] accepts for a
    piece of that side, and the turn passes to the other side. *)
Theorem engine_reply_is_accepted_move (fuel : nat) (chess : ChessState)
    (engine : Engine) :
  wf chess -> (5 <= fuel)%nat ->
  exists moves engine' chess' engine'' lines,
    getAllMoves chess = Ok moves /\
    engine_thread_func fuel chess engine = Ok engine' /\
    pollEngine chess engine' = Ok (chess', engine'', lines) /\
    hasMove engine'' = false /\
    chess' = afterMove chess (resultMove engine') /\
    wf chess' /\ whiteToMove chess' = negb (whiteToMove chess) /\
    (1 <= length lines <= 2)%nat /\
    hd_error lines = Some ("Engine move: " +:+ move2chars (resultMove engine')) /\
    (moves <> [] -> generated chess (resultMove engine')).
Proof.
  intros Hwf Hfuel.
  destruct (engine_reply_spec fuel chess engine Hwf Hfuel)
    as (moves & e' & lines & Hm & He & Hp & Hl & _ & _ & H1).
  eexists moves, e', _, _, _. split; [exact Hm|]. split; [exact He|].
  split; [exact Hp|]. split; [reflexivity|]. split; [reflexivity|].
  split; [now apply afterMove_wf|]. split; [apply afterMove_whiteToMove|].
  split; [cbn [length]; lia|]. split; [reflexivity | exact H1].
Qed.

Lemma engine_reply_is_accepted_move_witness :
  exists moves engine' chess' engine'' lines,
    getAllMoves afterPush = Ok moves /\
    engine_thread_func 5 afterPush engine0 = Ok engine' /\
    pollEngine afterPush engine' = Ok (chess', engine'', lines) /\
    hasMove engine'' = false /\
    chess' = afterMove afterPush (resultMove engine') /\
    wf chess' /\ whiteToMove chess' = negb (whiteToMove afterPush) /\
    (1 <= length lines <= 2)%nat /\
    hd_error lines = Some ("Engine move: " +:+ move2chars (resultMove engine')) /\
    (moves <> [] -> generated afterPush (resultMove engine')).
Proof. apply engine_reply_is_accepted_move; [reflexivity | lia]. Defined.

(** X11.  When the side to move has no move (it is mated or stalemated), the
    engine publishes the all-zero move, and the poll plays it like any other:
    it is printed as a1-a1, whatever stood on a1 is removed, and the turn
    passes to the other side. *)
Theorem engine_without_moves_plays_a1a1 (fuel : nat) (chess : ChessState)
    (engine : Engine) :
  wf chess -> (5 <= fuel)%nat -> getAllMoves chess = Ok [] ->
  exists engine' chess' engine'' lines,
    engine_thread_func fuel chess engine = Ok engine' /\
    resultMove engine' = zeroMove /\ hasMove engine' = true /\
    pollEngine chess engine' = Ok (chess', engine'', "Engine move: a1-a1" :: lines) /\
    get chess' 0 0 = EMPTY /\
    (forall r c, onBoard r c -> (r, c) <> (0, 0) -> get chess' r c = get chess r c) /\
    whiteToMove chess' = negb (whiteToMove chess).
Proof.
  intros Hwf Hfuel Hnone.
  destruct (engine_reply_spec fuel chess engine Hwf Hfuel)
    as (moves & e' & lines & Hm & He & Hp & Hl & Hh & H0 & _).
  rewrite Hnone in Hm. injection Hm as <-. specialize (H0 eq_refl).
  rewrite H0 in Hp.
  eexists e', _, _, lines. split; [exact He|]. split; [exact H0|]. split; [exact Hh|].
  split; [exact Hp|].
  split; [|split; [|apply afterMove_whiteToMove]].
  - change (afterMove chess zeroMove) with (afterPlain chess zeroMove).
    rewrite afterPlain_get by (auto; unfold onBoard; simpl; lia).
    rewrite bool_decide_eq_true_2; auto.
  - intros r c Hb Hne.
    change (afterMove chess zeroMove) with (afterPlain chess zeroMove).
    rewrite afterPlain_get by (auto; unfold onBoard; simpl; lia).
    cbn [zeroMove fromRow fromCol toRow toCol].
    rewrite !bool_decide_eq_false_2; try reflexivity; intros [<- <-]; now apply Hne.
Qed.

Lemma engine_without_moves_plays_a1a1_witness :
  exists engine' chess' engine'' lines,
    engine_thread_func 5 backRankMate engine0 = Ok engine' /\
    resultMove engine' = zeroMove /\ hasMove engine' = true /\
    pollEngine backRankMate engine' = Ok (chess', engine'', "Engine move: a1-a1" :: lines) /\
    get chess' 0 0 = EMPTY /\
    (forall r c, onBoard r c -> (r, c) <> (0, 0) -> get chess' r c = get backRankMate r c) /\
    whiteToMove chess' = negb (whiteToMove backRankMate).
Proof.
  apply engine_without_moves_plays_a1a1; [reflexivity | lia | vm_compute; reflexivity].
Defined.

(** ** Move notation *)

Lemma asc_inj a b :
  0 <= a < 256 -> 0 <= b < 256 ->
  Ascii.ascii_of_N (Z.to_N (a mod 256)) = Ascii.ascii_of_N (Z.to_N (b mod 256)) ->
  a = b.
Proof.
  intros Ha Hb H. rewrite !Z.mod_small in H by lia.
  apply (f_equal Ascii.N_of_ascii) in H.
  rewrite !Ascii.N_ascii_embedding in H by lia. lia.
Qed.

Lemma asc_const a (x : Ascii.ascii) :
  0 <= a < 256 ->
  Ascii.ascii_of_N (Z.to_N (a mod 256)) = x -> a = Z.of_N (Ascii.N_of_ascii x).
Proof.
  intros Ha H. rewrite Z.mod_small in H by lia.
  apply (f_equal Ascii.N_of_ascii) in H.
  rewrite Ascii.N_ascii_embedding in H by lia. lia.
Qed.

Lemma asc_nonzero a :
  0 < a < 256 ->
  Ascii.eqb (Ascii.ascii_of_N (Z.to_N (a mod 256))) Ascii.zero = false.
Proof.
  intros Ha. apply Ascii.eqb_neq. intros H.
  apply asc_const in H; [|lia]. simpl in H. lia.
Qed.

Lemma cstring_cons a s :
  Ascii.eqb a Ascii.zero = false -> cstring (String a s) = String a (cstring s).
Proof. intros H. cbn [cstring]. now rewrite H. Qed.

Lemma cstring_length s : (String.length (cstring s) <= String.length s)%nat.
Proof.
  induction s as [|a s IH]; cbn [cstring String.length]; [lia|].
  destruct (Ascii.eqb a Ascii.zero); cbn [String.length]; lia.
Qed.

Ltac forms :=
  repeat match goal with
  | |- context [if ?b then _ else _] => destruct b eqn:?
  | H : context [if ?b then _ else _] |- _ => destruct b eqn:?
  end.

Ltac strings H :=
  unfold chr in H; cbv [String.append] in H;
  rewrite !cstring_cons in H by (first [apply asc_nonzero; lia | reflexivity]);
  cbn [cstring] in H;
  repeat first
    [ discriminate H
    | let E := fresh "E" in injection H as E H ].

(** X12.  The text of a move is at most 12 characters long, so the 32-byte
    buffer of [move2chars] never cuts it.  For moves between squares of the
    board the text tells castling from every other move and king-side from
    queen-side castling, and for a move that is not castling it determines
    both squares and whether the move is a promotion; the capture and
    en-passant marks show only on moves that are not promotions. *)
Theorem move2chars_determines_move (m1 m2 : Move) :
  onBoardMove m1 -> onBoardMove m2 ->
  (String.length (move2chars m1) <= 12)%nat /\
  (move2chars m1 = move2chars m2 ->
   isCastling m1 = isCastling m2 /\
   (isCastling m1 = true -> (toCol m1 = 6 <-> toCol m2 = 6)) /\
   (isCastling m1 = false ->
    fromRow m1 = fromRow m2 /\ fromCol m1 = fromCol m2 /\
    toRow m1 = toRow m2 /\ toCol m1 = toCol m2 /\
    isPromotion m1 = isPromotion m2 /\
    (isPromotion m1 = false ->
     isEnPassant m1 = isEnPassant m2 /\
     (isEnPassant m1 = false -> (captured m1 = EMPTY <-> captured m2 = EMPTY))))).
Proof.
  intros [[Hfr1 Hfc1] [Htr1 Htc1]] [[Hfr2 Hfc2] [Htr2 Htc2]]. split.
  - unfold move2chars, chr.
    forms; (etransitivity; [apply cstring_length|]);
      cbv [String.append String.length]; lia.
  - intros H. unfold move2chars in H. forms; strings H.
    all: repeat match goal with
         | E : Ascii.ascii_of_N _ = Ascii.ascii_of_N _ |- _ =>
             apply asc_inj in E; [|lia|lia]
         | E : Ascii.ascii_of_N _ = _ |- _ => apply asc_const in E; [|lia]; simpl in E
         | E : _ = Ascii.ascii_of_N _ |- _ =>
             symmetry in E; apply asc_const in E; [|lia]; simpl in E
         end; try lia.
    all: repeat match goal with
         | E : (_ =? _) = true |- _ => apply Z.eqb_eq in E
         | E : (_ =? _) = false |- _ => apply Z.eqb_neq in E
         | E : negb _ = true |- _ => apply negb_true_iff in E
         | E : negb _ = false |- _ => apply negb_false_iff in E
         | E : peq _ _ = true |- _ => apply peq_true in E
         | E : peq _ _ = false |- _ => apply peq_false in E
         end.
    all: (split; [reflexivity|]); split; intros; try discriminate; try tauto.
    all: repeat split; try lia; try congruence; intros; try discriminate; try tauto.
Qed.

Lemma move2chars_determines_move_witness :
  (String.length (move2chars (quiet 1 4 3 4)) <= 12)%nat /\
  (move2chars (quiet 1 4 3 4) = move2chars (mkMove 1 4 3 4 EMPTY false false false) ->
   isCastling (quiet 1 4 3 4) = false /\
   (isCastling (quiet 1 4 3 4) = true -> (4 = 6 <-> 4 = 6)) /\
   (isCastling (quiet 1 4 3 4) = false ->
    1 = 1 /\ 4 = 4 /\ 3 = 3 /\ 4 = 4 /\ false = false /\
    (false = false ->
     false = false /\ (false = false -> (EMPTY = EMPTY <-> EMPTY = EMPTY))))).
Proof.
  apply (move2chars_determines_move (quiet 1 4 3 4) (mkMove 1 4 3 4 EMPTY false false false));
    unfold onBoardMove, onBoard; simpl; lia.
Defined.

(** ** Clicks on the board *)

Lemma selectable_colour chess p :
  selectable chess p = true <-> p <> EMPTY /\ isWhite p = whiteToMove chess.
Proof.
  unfold selectable. rewrite andb_true_iff, negb_true_iff, peq_false.
  destruct (whiteToMove chess), p; cbv; intuition congruence.
Qed.

Lemma set_selected_same s : set_selected (selectedRow s) (selectedCol s) s = s.
Proof. now destruct s. Qed.

Lemma set_selected_twice a b x y s :
  set_selected a b (set_selected x y s) = set_selected a b s.
Proof. reflexivity. Qed.

Lemma selOK_none chess : selOK (set_selected (-1) (-1) chess).
Proof. left. split; reflexivity. Qed.

Lemma click_move chess selR selC row col :
  wf chess -> onBoard selR selC -> onBoard row col ->
  isLegalMove chess selR selC row col = Ok true ->
  (let* moving := rd chess selR selC in
   let* target := rd chess row col in
   let castling :=
     (peq moving WHITE_KING || peq moving BLACK_KING) && (selC =? 4)
     && (Z.abs (col - selC) =? 2) in
   let promotion :=
     (peq moving WHITE_PAWN && (row =? 7)) || (peq moving BLACK_PAWN && (row =? 0)) in
   let* ep := andM ((peq moving WHITE_PAWN || peq moving BLACK_PAWN)
                    && negb (selC =? col))
                (let* t := rd chess row col in Ok (peq t EMPTY)) in
   let* move :=
     if (ep : bool) then
       let capRow := if isWhite moving then row - 1 else row + 1 in
       let* cap := rd chess capRow col in
       Ok (mkMove selR selC row col cap promotion true castling)
     else Ok (mkMove selR selC row col target promotion false castling) in
   let* '(chess, _) := makeMove chess move (Some undoLocal) in
   let chess := set_selected (-1) (-1) chess in
   let* lines := announce chess in
   Ok (chess, true, lines))
  = (let chess' := set_selected (-1) (-1) (afterMove chess (plainMove chess selR selC row col)) in
     let* lines := announce chess' in Ok (chess', true, lines)).
Proof.
  intros Hwf Hf Ht Hok.
  rewrite !(rd_get _ selR selC), !(rd_get _ row col) by auto. cbn [bind]. cbv zeta.
  assert (Hep : andM ((peq (get chess selR selC) WHITE_PAWN
                       || peq (get chess selR selC) BLACK_PAWN)
                      && negb (selC =? col))
                 (Ok (peq (get chess row col) EMPTY)) = Ok false).
  { destruct (_ && _) eqn:E; [|reflexivity]. cbn [andM]. f_equal.
    apply peq_false.
    apply andb_true_iff in E as [Epawn Ecol].
    apply negb_true_iff, Z.eqb_neq in Ecol.
    apply (pawn_capture_needs_target chess selR selC row col); auto.
    apply isLegalMove_true in Hok as (_ & _ & _ & Hpm & _); auto.
    apply orb_true_iff in Epawn. rewrite !peq_true in Epawn.
    destruct Epawn as [E|E]; rewrite E in Hpm; exact Hpm. }
  rewrite Hep. cbn [bind]. fold (plainMove chess selR selC row col).
  rewrite makeMove_closed; auto.
  split; [exact Hf|]. split; [exact Ht|]. discriminate.
Qed.

(** X13.  A left click on a square of the board, with the selection empty or
    on a piece of the side to move, reads no cell outside the board and
    leaves the selection empty or on a piece of the side to move.  It either
    changes nothing but the selection and prints nothing, or it plays a
    move: then it is not the engine's turn, [isLegalMove] accepts the move
    from the selected square to the clicked one, the move is built with the
    flags [getAllMoves] would give it (never en passant), it is played with
    [makeMove], and the selection is cleared. *)
Theorem clickSquare_outcome (chess : ChessState) (row col : Z) :
  wf chess -> onBoard row col -> selOK chess ->
  exists chess' moved lines,
    clickSquare chess row col = Ok (chess', moved, lines) /\
    wf chess' /\ selOK chess' /\
    (moved = false ->
     lines = [] /\
     set_selected (selectedRow chess) (selectedCol chess) chess' = chess) /\
    (moved = true ->
     whiteToMove chess <> engineWhite chess /\
     generated chess (plainMove chess (selectedRow chess) (selectedCol chess) row col) /\
     chess' = set_selected (-1) (-1)
                (afterMove chess
                   (plainMove chess (selectedRow chess) (selectedCol chess) row col)) /\
     announce chess' = Ok lines).
Proof.
  intros Hwf Hb Hsel. unfold clickSquare.
  destruct (eqb (whiteToMove chess) (engineWhite chess)) eqn:Eturn.
  { exists chess, false, []. split; [reflexivity|]. split; [exact Hwf|].
    split; [exact Hsel|]. split; [|discriminate].
    intros _. split; [reflexivity | exact (set_selected_same chess)]. }
  rewrite (rd_get _ row col) by auto. cbn [bind]. cbv zeta.
  assert (Hpick : selectable chess (get chess row col) = true ->
                  selOK (set_selected row col chess)).
  { intros Es. apply selectable_colour in Es as [Hne Hcol]. right. auto. }
  destruct Hsel as [[Hr Hc] | (Hs & Hne & Hcol)].
  - assert (Hhas : (selectedRow chess >=? 0) && (selectedCol chess >=? 0) = false).
    { rewrite Hr, Hc. reflexivity. }
    rewrite Hhas.
    destruct (selectable chess (get chess row col)) eqn:Es.
    + exists (set_selected row col chess), false, []. split; [reflexivity|].
      split; [exact Hwf|]. split; [now apply Hpick|]. split; [|discriminate].
      intros _. split; [reflexivity | exact (set_selected_same chess)].
    + exists chess, false, []. split; [reflexivity|]. split; [exact Hwf|].
      split; [left; auto|]. split; [|discriminate].
      intros _. split; [reflexivity | exact (set_selected_same chess)].
  - assert (Hhas : (selectedRow chess >=? 0) && (selectedCol chess >=? 0) = true).
    { destruct Hs as [? ?]. apply andb_true_iff. split; apply Z.geb_le; lia. }
    rewrite Hhas.
    destruct ((selectedRow chess =? row) && (selectedCol chess =? col)).
    { exists (set_selected (-1) (-1) chess), false, []. split; [reflexivity|].
      split; [exact Hwf|]. split; [apply selOK_none|]. split; [|discriminate].
      intros _. split; [reflexivity | exact (set_selected_same chess)]. }
    destruct (isLegalMove_total chess (selectedRow chess) (selectedCol chess) row col)
      as ([|] & Hl); auto; rewrite Hl; cbn [bind].
    + pose proof (click_move chess _ _ row col Hwf Hs Hb Hl) as Hcm.
      rewrite (rd_get _ row col) in Hcm by auto. cbn [bind] in Hcm. cbv zeta in Hcm.
      rewrite Hcm. clear Hcm.
      set (m := plainMove chess (selectedRow chess) (selectedCol chess) row col).
      assert (Hwf' : wf (set_selected (-1) (-1) (afterMove chess m))).
      { apply (afterMove_wf chess m Hwf). }
      destruct (announce_total _ Hwf') as (lines & Ha & _).
      rewrite Ha. cbn [bind].
      exists (set_selected (-1) (-1) (afterMove chess m)), true, lines.
      split; [reflexivity|]. split; [exact Hwf'|]. split; [apply selOK_none|].
      split; [discriminate|]. intros _.
      split; [now apply eqb_false_iff in Eturn|].
      split; [|split; [reflexivity | exact Ha]].
      exists (selectedRow chess), (selectedCol chess), row, col. auto.
    + destruct (selectable chess (get chess row col)) eqn:Es.
      * exists (set_selected row col chess), false, []. split; [reflexivity|].
        split; [exact Hwf|]. split; [now apply Hpick|]. split; [|discriminate].
        intros _. split; [reflexivity | exact (set_selected_same chess)].
      * exists (set_selected (-1) (-1) chess), false, []. split; [reflexivity|].
        split; [exact Hwf|]. split; [apply selOK_none|]. split; [|discriminate].
        intros _. split; [reflexivity | exact (set_selected_same chess)].
Qed.

Lemma clickSquare_outcome_witness :
  exists chess' moved lines,
    clickSquare (set_selected 1 4 initChessState) 3 4 = Ok (chess', moved, lines) /\
    wf chess' /\ selOK chess' /\
    (moved = false ->
     lines = [] /\ set_selected 1 4 chess' = set_selected 1 4 initChessState) /\
    (moved = true ->
     whiteToMove (set_selected 1 4 initChessState)
       <> engineWhite (set_selected 1 4 initChessState) /\
     generated (set_selected 1 4 initChessState)
       (plainMove (set_selected 1 4 initChessState) 1 4 3 4) /\
     chess' = set_selected (-1) (-1)
                (afterMove (set_selected 1 4 initChessState)
                   (plainMove (set_selected 1 4 initChessState) 1 4 3 4)) /\
     announce chess' = Ok lines).
Proof.
  apply (clickSquare_outcome (set_selected 1 4 initChessState) 3 4).
  - reflexivity.
  - unfold onBoard; lia.
  - right. split; [unfold onBoard; simpl; lia|]. split; [discriminate | reflexivity].
Defined.

(** ** The en-passant branches of make and unmake *)

Lemma afterMove_get chess m r c :
  wf chess -> playable chess m -> isCastling m = false -> onBoard r c ->
  get (afterMove chess m) r c =
    if bool_decide (fromRow m = r /\ fromCol m = c) then EMPTY
    else if bool_decide (toRow m = r /\ toCol m = c)
         then promoted m (get chess (fromRow m) (fromCol m))
         else if isEnPassant m && bool_decide (victimRow chess m = r /\ toCol m = c)
              then EMPTY else get chess r c.
Proof.
  intros Hwf (Hf & Ht & Hv) Hc Hb. unfold afterMove. rewrite Hc. cbv zeta.
  rewrite get_set_whiteToMove.
  destruct (isEnPassant m).
  - specialize (Hv eq_refl).
    rewrite !get_upd by auto 10 with wfdb. rewrite get_marks.
    rewrite get_upd by auto. reflexivity.
  - rewrite !get_upd by auto 10 with wfdb. now rewrite get_marks.
Qed.

(** X14.  The en-passant branches of [makeMove] and [unmakeMove] undo each
    other: for a move flagged en passant, neither castling nor promotion,
    whose squares are on the board, whose from-square is neither the target
    nor the square beside it, whose target square is empty and whose
    [captured] field holds the piece on the square beside the target (one row
    back for the mover), [makeMove] empties that square and [unmakeMove] with
    the same undo record gives back the position as it was. *)
Theorem en_passant_roundtrip (chess : ChessState) (m : Move) (u0 : UndoInfo) :
  wf chess -> playable chess m ->
  isEnPassant m = true -> isCastling m = false -> isPromotion m = false ->
  (fromRow m <> toRow m \/ fromCol m <> toCol m) ->
  (fromRow m <> victimRow chess m \/ fromCol m <> toCol m) ->
  get chess (toRow m) (toCol m) = EMPTY ->
  captured m = get chess (victimRow chess m) (toCol m) ->
  exists chess' u',
    makeMove chess m (Some u0) = Ok (chess', Some u') /\
    get chess' (victimRow chess m) (toCol m) = EMPTY /\
    get chess' (toRow m) (toCol m) = get chess (fromRow m) (fromCol m) /\
    unmakeMove chess' m (Some u') = Ok chess.
Proof.
  intros Hwf Hp He Hc Hpro Hne Hnv Hto Hcap.
  pose proof Hp as (Hf & Ht & Hv). specialize (Hv He).
  pose proof (afterMove_wf chess m Hwf) as Hwf'.
  assert (Hvr : victimRow chess m <> toRow m).
  { unfold victimRow. destruct (isWhite _); lia. }
  eexists (afterMove chess m), _.
  split; [now apply (makeMove_closed chess m (Some u0))|].
  split.
  { rewrite afterMove_get by auto. rewrite He. cbn [andb].
    repeat case_bool_decide; try reflexivity; try tauto; lia. }
  split.
  { rewrite afterMove_get by auto. unfold promoted. rewrite Hpro.
    repeat case_bool_decide; try reflexivity; try tauto; lia. }
  unfold unmakeMove. rewrite Hc, He, Hpro. cbv zeta.
  cbn [capturedPiece capturedRow capturedCol u_hasCastledWhite u_hasCastledBlack
       u_enPassantCol].
  mstep. rewrite get_set_whiteToMove.
  rewrite afterMove_get by auto.
  rewrite bool_decide_eq_false_2 by lia.
  rewrite bool_decide_eq_true_2 by auto.
  unfold promoted. rewrite Hpro.
  repeat mstep. f_equal.
  apply chess_eq_meta; autorewrite with framedb.
  - apply board_ext; [auto 10 with wfdb | assumption |].
    intros r c Hb. rewrite !get_upd by auto 10 with wfdb.
    rewrite get_set_whiteToMove, afterMove_get by auto.
    rewrite He, Hcap. cbn [andb].
    repeat case_bool_decide; try reflexivity; try lia;
      repeat match goal with H : _ /\ _ |- _ => destruct H end; subst;
      try reflexivity; try tauto; try lia; auto.
  - rewrite afterMove_whiteToMove. apply negb_involutive.
  - apply afterMove_meta.
  - reflexivity.
  - reflexivity.
  - reflexivity.
Qed.

Lemma en_passant_roundtrip_witness :
  exists chess' u',
    makeMove pawnsAbreast (mkMove 4 4 5 3 BLACK_PAWN false true false) (Some undoLocal)
      = Ok (chess', Some u') /\
    get chess' 4 3 = EMPTY /\
    get chess' 5 3 = WHITE_PAWN /\
    unmakeMove chess' (mkMove 4 4 5 3 BLACK_PAWN false true false) (Some u')
      = Ok pawnsAbreast.
Proof.
  apply (en_passant_roundtrip pawnsAbreast (mkMove 4 4 5 3 BLACK_PAWN false true false)
           undoLocal); try reflexivity.
  - unfold playable, onBoard. cbn [fromRow fromCol toRow toCol isEnPassant].
    split; [lia|]. split; [lia|]. intros _.
    change (victimRow pawnsAbreast (mkMove 4 4 5 3 BLACK_PAWN false true false)) with 4.
    lia.
  - cbn [fromRow fromCol toRow toCol]. lia.
  - right. cbn [fromCol toCol]. lia.
Defined.

(** ** The piece predicates *)

(** X15.  For two squares of the board, [rookMove] answers true exactly when
    they share a row or a column and every square strictly between them is
    empty, [bishopMove] exactly when they lie on a common diagonal and every
    square strictly between them is empty, and [queenMove] when either does.
    None of them reads a cell outside the board. *)
Theorem sliding_moves (chess : ChessState) (fr fc tr tc : Z) :
  wf chess -> onBoard fr fc -> onBoard tr tc ->
  let clear :=
    forall k, 0 < k < dist fr fc tr tc ->
      get chess (fr + k * sgn tr fr) (fc + k * sgn tc fc) = EMPTY in
  exists rook bishop,
    rookMove chess fr fc tr tc = Ok rook /\
    bishopMove chess fr fc tr tc = Ok bishop /\
    queenMove chess fr fc tr tc = Ok (rook || bishop) /\
    (rook = true <-> (fr = tr \/ fc = tc) /\ clear) /\
    (bishop = true <-> Z.abs (fr - tr) = Z.abs (fc - tc) /\ clear).
Proof.
  intros Hwf Hf Ht clear.
  assert (Hr : exists rook, rookMove chess fr fc tr tc = Ok rook /\
                 (rook = true <-> (fr = tr \/ fc = tc) /\ clear)).
  { unfold rookMove. destruct (negb (fr =? tr) && negb (fc =? tc)) eqn:E.
    - exists false. split; [reflexivity|]. split; [discriminate|].
      apply andb_true_iff in E. rewrite !negb_true_iff, !Z.eqb_neq in E. lia.
    - apply andb_false_iff in E. rewrite !negb_false_iff, !Z.eqb_eq in E.
      destruct (pathClear_spec chess fr fc tr tc) as (b & Hb & Hiff); auto.
      { unfold aligned. lia. }
      exists b. split; [exact Hb|]. rewrite Hiff. tauto. }
  assert (Hbi : exists bishop, bishopMove chess fr fc tr tc = Ok bishop /\
                  (bishop = true <-> Z.abs (fr - tr) = Z.abs (fc - tc) /\ clear)).
  { unfold bishopMove. destruct (Z.eqb_spec (Z.abs (fr - tr)) (Z.abs (fc - tc))) as [E|E];
      cbn [negb].
    - destruct (pathClear_spec chess fr fc tr tc) as (b & Hb & Hiff); auto.
      { unfold aligned. auto. }
      exists b. split; [exact Hb|]. rewrite Hiff. tauto.
    - exists false. split; [reflexivity|]. split; [discriminate | tauto]. }
  destruct Hr as (rook & Hr & Hri), Hbi as (bishop & Hbi & Hbii).
  exists rook, bishop. split; [exact Hr|]. split; [exact Hbi|].
  split; [|split; [exact Hri | exact Hbii]].
  unfold queenMove. rewrite Hr. cbn [bind]. destruct rook; [reflexivity | exact Hbi].
Qed.

Lemma sliding_moves_witness :
  exists rook bishop,
    rookMove initChessState 0 0 3 0 = Ok rook /\
    bishopMove initChessState 0 0 3 0 = Ok bishop /\
    queenMove initChessState 0 0 3 0 = Ok (rook || bishop) /\
    (rook = true <->
     (0 = 3 \/ 0 = 0) /\
     forall k, 0 < k < dist 0 0 3 0 ->
       get initChessState (0 + k * sgn 3 0) (0 + k * sgn 0 0) = EMPTY) /\
    (bishop = true <->
     Z.abs (0 - 3) = Z.abs (0 - 0) /\
     forall k, 0 < k < dist 0 0 3 0 ->
       get initChessState (0 + k * sgn 3 0) (0 + k * sgn 0 0) = EMPTY).
Proof.
  apply (sliding_moves initChessState 0 0 3 0); [reflexivity | | ]; unfold onBoard; lia.
Defined.

(** X16.  For a from-square of the board, [kingMove] answers true exactly
    when the target is at most one row and one column away, or is on the
    same row in column 6 or 2 and the castling conditions hold: the piece
    stands on column 4 of its home row, the flag for that side is not set,
    the rook of its colour is in the corner, the squares between them are
    empty, [isKingInCheck] answers false and [isSquareAttacked] answers false
    for every square from the king's to the target. *)
Theorem kingMove_accepts_iff (chess : ChessState) (fr fc tr tc : Z) :
  wf chess -> onBoard fr fc ->
  exists b, kingMove chess fr fc tr tc = Ok b /\
    (b = true <->
     (Z.abs (fr - tr) <= 1 /\ Z.abs (fc - tc) <= 1) \/
     (fr = tr /\ (tc = 6 \/ tc = 2) /\ castleOK chess fr fc tc)).
Proof.
  intros Hwf Hf. unfold kingMove.
  destruct ((Z.abs (fr - tr) <=? 1) && (Z.abs (fc - tc) <=? 1)) eqn:E1.
  { apply andb_true_iff in E1. rewrite !Z.leb_le in E1.
    exists true. split; [reflexivity|]. tauto. }
  apply andb_false_iff in E1. rewrite !Z.leb_gt in E1.
  destruct ((fr =? tr) && ((tc =? 6) || (tc =? 2))) eqn:E2.
  - rewrite andb_true_iff, orb_true_iff, !Z.eqb_eq in E2. destruct E2 as [E2 E3].
    destruct (canCastle_spec chess fr fc tr tc Hwf Hf E3) as (b & Hb & Hiff).
    exists b. split; [exact Hb|]. rewrite Hiff. split; [auto|].
    intros [H | (_ & _ & H)]; [lia | exact H].
  - exists false. split; [reflexivity|]. split; [discriminate|].
    rewrite andb_false_iff, orb_false_iff, !Z.eqb_neq in E2.
    intros [H | (H1 & H2 & _)]; lia.
Qed.

Lemma kingMove_accepts_iff_witness :
  exists b, kingMove pawnCoversF1 0 4 0 6 = Ok b /\
    (b = true <->
     (Z.abs (0 - 0) <= 1 /\ Z.abs (4 - 6) <= 1) \/
     (0 = 0 /\ (6 = 6 \/ 6 = 2) /\ castleOK pawnCoversF1 0 4 6)).
Proof.
  apply (kingMove_accepts_iff pawnCoversF1 0 4 0 6); [reflexivity | unfold onBoard; lia].
Defined.

(** ** Legality *)

(** X17.  For a from-square of the board, [isLegalMove] reads no cell outside
    the board, and it answers true exactly when the target is on the board,
    the from-square is not empty, the target does not hold a piece of the
    same colour, the predicate of the piece accepts the two squares, and
    [isKingInCheck] answers false for the mover's colour on the copy where
    the piece has been put on the target. *)
Theorem isLegalMove_accepts_iff (chess : ChessState) (fr fc tr tc : Z) :
  wf chess -> onBoard fr fc ->
  exists b, isLegalMove chess fr fc tr tc = Ok b /\
    (b = true <->
     onBoard tr tc /\
     get chess fr fc <> EMPTY /\
     sameColor (get chess fr fc) (get chess tr tc) = false /\
     pieceMove chess (get chess fr fc) fr fc tr tc = Ok true /\
     isKingInCheck (scratch chess fr fc tr tc) (isWhite (get chess fr fc)) = Ok false).
Proof.
  intros Hwf Hf.
  destruct (isLegalMove_total chess fr fc tr tc Hwf Hf) as (b & Hb).
  exists b. split; [exact Hb|].
  destruct (onBoard_dec tr tc) as [Ht | Hnt].
  - split.
    + intros ->. apply isLegalMove_true in Hb as (H1 & H2 & _ & H3 & H4); auto.
    + intros (_ & Hne & Hsc & Hpm & Hsafe).
      rewrite isLegalMove_unfold in Hb by auto. cbv zeta in Hb.
      apply peq_false in Hne. rewrite Hne, Hsc, Hpm in Hb. cbn [bind negb] in Hb.
      assert (Hq : get (scratch chess fr fc tr tc) tr tc = get chess fr fc).
      { assert (fr <> tr \/ fc <> tc).
        { destruct (Z.eq_dec fr tr) as [->|]; [|auto].
          destruct (Z.eq_dec fc tc) as [->|]; [|auto].
          apply peq_false in Hne. rewrite sameColor_refl in Hsc by auto. discriminate. }
        unfold scratch. rewrite get_upd_other by auto. now apply get_upd_same. }
      rewrite Hq, Hsafe in Hb. cbn [bind negb] in Hb. now injection Hb as <-.
  - apply inBounds_false in Hnt as Hnb. unfold isLegalMove in Hb. rewrite Hnb in Hb.
    cbn [negb] in Hb. injection Hb as <-. split; [discriminate | tauto].
Qed.

Lemma isLegalMove_accepts_iff_witness :
  exists b, isLegalMove initChessState 1 4 3 4 = Ok b /\
    (b = true <->
     onBoard 3 4 /\
     get initChessState 1 4 <> EMPTY /\
     sameColor (get initChessState 1 4) (get initChessState 3 4) = false /\
     pieceMove initChessState (get initChessState 1 4) 1 4 3 4 = Ok true /\
     isKingInCheck (scratch initChessState 1 4 3 4)
       (isWhite (get initChessState 1 4)) = Ok false).
Proof.
  apply (isLegalMove_accepts_iff initChessState 1 4 3 4);
    [reflexivity | unfold onBoard; lia].
Defined.

(** ** Attack queries *)

(** X18.  On a position with its 64 cells [isSquareAttacked] returns for
    every pair of coordinates, and it answers true exactly when some square
    of the board holds a piece of the asked colour for which
    [canPieceAttackSquare] answers true. *)
Theorem isSquareAttacked_iff (chess : ChessState) (r c : Z) (byWhite : bool) :
  wf chess ->
  exists b, isSquareAttacked chess r c byWhite = Ok b /\
    (b = true <->
     exists fr fc, onBoard fr fc /\ attacker byWhite (get chess fr fc) /\
       canPieceAttackSquare chess fr fc r c = Ok true).
Proof.
  intros Hwf. destruct (isSquareAttacked_total chess r c byWhite Hwf) as (b & Hb).
  exists b. split; [exact Hb|].
  assert (Hiff : isSquareAttacked chess r c byWhite = Ok true <->
                 exists fr fc, onBoard fr fc /\ attacker byWhite (get chess fr fc) /\
                   canPieceAttackSquare chess fr fc r c = Ok true).
  { unfold isSquareAttacked. rewrite anyM_true.
    - split.
      + intros ([fr fc] & Hin & H). apply in_squares in Hin.
        apply attackedFrom_true in H; auto. exists fr, fc. tauto.
      + intros (fr & fc & Hin & H). exists (fr, fc).
        split; [now apply in_squares|]. apply attackedFrom_true; auto.
    - intros sq Hin. now apply attackedFrom_total. }
  rewrite <- Hiff, Hb. split; [now intros -> | now intros [= ->]].
Qed.

Lemma isSquareAttacked_iff_witness :
  exists b, isSquareAttacked backRankMate 0 6 false = Ok b /\
    (b = true <->
     exists fr fc, onBoard fr fc /\ attacker false (get backRankMate fr fc) /\
       canPieceAttackSquare backRankMate fr fc 0 6 = Ok true).
Proof. apply isSquareAttacked_iff. reflexivity. Defined.

Lemma isKingInCheck_loop_no_king chess white l :
  wf chess -> (forall sq, In sq l -> In sq squares) ->
  (forall r c, In (r, c) l -> get chess r c <> kingOf white) ->
  isKingInCheck_loop chess white l = Ok false.
Proof.
  intros Hwf. induction l as [|[r c] l IH]; intros Hl Hno; [reflexivity|].
  assert (Hb : onBoard r c) by (apply in_squares, Hl; now left).
  cbn [isKingInCheck_loop]. rewrite (rd_get _ r c) by auto. cbn [bind].
  destruct (_ || _) eqn:E.
  - apply king_test in E. exfalso. apply (Hno r c); [now left | exact E].
  - apply IH.
    + intros sq Hsq. apply Hl. now right.
    + intros r' c' Hin. apply Hno. now right.
Qed.

Lemma isKingInCheck_loop_king chess white kr kc l :
  wf chess -> (forall sq, In sq l -> In sq squares) ->
  In (kr, kc) l -> get chess kr kc = kingOf white ->
  (forall r c, In (r, c) l -> get chess r c = kingOf white -> r = kr /\ c = kc) ->
  isKingInCheck_loop chess white l = isSquareAttacked chess kr kc (negb white).
Proof.
  intros Hwf. induction l as [|[r c] l IH]; intros Hl Hin Hk Huniq; [destruct Hin|].
  assert (Hb : onBoard r c) by (apply in_squares, Hl; now left).
  cbn [isKingInCheck_loop]. rewrite (rd_get _ r c) by auto. cbn [bind].
  destruct (_ || _) eqn:E.
  - apply king_test in E. destruct (Huniq r c) as [-> ->]; [now left | exact E |].
    reflexivity.
  - apply IH.
    + intros sq Hsq. apply Hl. now right.
    + destruct Hin as [[= <- <-] | Hin]; [|exact Hin].
      exfalso. apply king_test in Hk. congruence.
    + exact Hk.
    + intros r' c' Hin'. apply Huniq. now right.
Qed.

(** X19.  [isKingInCheck] answers false when no square of the board holds the
    king of the asked colour; and when exactly one square holds it, the
    answer is that of [isSquareAttacked] for that square and the other
    colour. *)
Theorem isKingInCheck_by_king (chess : ChessState) (white : bool) :
  wf chess ->
  ((forall r c, onBoard r c -> get chess r c <> kingOf white) ->
   isKingInCheck chess white = Ok false) /\
  (forall kr kc,
     onBoard kr kc -> get chess kr kc = kingOf white ->
     (forall r c, onBoard r c -> get chess r c = kingOf white -> r = kr /\ c = kc) ->
     isKingInCheck chess white = isSquareAttacked chess kr kc (negb white)).
Proof.
  intros Hwf. unfold isKingInCheck. split.
  - intros Hno. apply isKingInCheck_loop_no_king; auto.
    intros r c Hin. apply Hno. now apply in_squares.
  - intros kr kc Hb Hk Huniq. apply isKingInCheck_loop_king; auto.
    + now apply in_squares.
    + intros r c Hin. apply Huniq. now apply in_squares.
Qed.

Lemma isKingInCheck_by_king_witness :
  ((forall r c, onBoard r c -> get backRankMate r c <> kingOf true) ->
   isKingInCheck backRankMate true = Ok false) /\
  (forall kr kc,
     onBoard kr kc -> get backRankMate kr kc = kingOf true ->
     (forall r c, onBoard r c -> get backRankMate r c = kingOf true ->
        r = kr /\ c = kc) ->
     isKingInCheck backRankMate true = isSquareAttacked backRankMate kr kc (negb true)).
Proof. apply isKingInCheck_by_king. reflexivity. Defined.

(** ** Castling rights and the en-passant file after a move *)

Lemma flagsLe_refl f : flagsLe f f.
Proof. split; auto. Qed.

Lemma flagsLe_set f i : flagsLe f (flag_set f i true).
Proof. unfold flagsLe, flag_set. destruct (i =? 0); simpl; auto. Qed.

Lemma flagsLe_trans f g h : flagsLe f g -> flagsLe g h -> flagsLe f h.
Proof. unfold flagsLe. tauto. Qed.

Lemma flagsLe_top f : flagsLe f (true, true).
Proof. split; auto. Qed.

Lemma markRights_flags moving m s :
  flagsLe (hasCastledWhite s) (hasCastledWhite (markRights moving m s)) /\
  flagsLe (hasCastledBlack s) (hasCastledBlack (markRights moving m s)) /\
  enPassantCol (markRights moving m s) = enPassantCol s.
Proof.
  unfold markRights.
  destruct (peq moving WHITE_KING);
    [split; [apply flagsLe_top|split; [apply flagsLe_refl|reflexivity]]|].
  destruct (peq moving BLACK_KING);
    [split; [apply flagsLe_refl|split; [apply flagsLe_top|reflexivity]]|].
  destruct (peq moving WHITE_ROOK).
  { cbv zeta. destruct (_ && _), (_ && _); cbn [hasCastledWhite hasCastledBlack
      enPassantCol set_hasCastledWhite];
      (split; [|split; [apply flagsLe_refl|reflexivity]]);
      eauto using flagsLe_refl, flagsLe_set, flagsLe_trans. }
  destruct (peq moving BLACK_ROOK).
  { cbv zeta. destruct (_ && _), (_ && _); cbn [hasCastledWhite hasCastledBlack
      enPassantCol set_hasCastledBlack];
      (split; [apply flagsLe_refl|split; [|reflexivity]]);
      eauto using flagsLe_refl, flagsLe_set, flagsLe_trans. }
  split; [apply flagsLe_refl|split; [apply flagsLe_refl|reflexivity]].
Qed.

Lemma markEnPassant_flags moving m s :
  hasCastledWhite (markEnPassant moving m s) = hasCastledWhite s /\
  hasCastledBlack (markEnPassant moving m s) = hasCastledBlack s /\
  (enPassantCol (markEnPassant moving m s) = -1 \/
   enPassantCol (markEnPassant moving m s) = fromCol m).
Proof. unfold markEnPassant. cbv zeta. destruct (_ && _); simpl; auto. Qed.

Lemma castleFlag_flags moving m s :
  flagsLe (hasCastledWhite s) (hasCastledWhite (castleFlag moving m s)) /\
  flagsLe (hasCastledBlack s) (hasCastledBlack (castleFlag moving m s)).
Proof.
  unfold castleFlag. destruct (peq moving WHITE_KING); simpl;
    split; auto using flagsLe_refl, flagsLe_set.
Qed.

(** X20.  [makeMove] never clears a castling flag: every flag that is set
    before the call is set after it.  The en-passant file it leaves is -1 or
    the file the moved piece came from. *)
Theorem makeMove_only_sets_flags (chess : ChessState) (m : Move)
    (_undo : option UndoInfo) (chess' : ChessState) (u' : option UndoInfo) :
  wf chess -> makeMove chess m _undo = Ok (chess', u') ->
  flagsLe (hasCastledWhite chess) (hasCastledWhite chess') /\
  flagsLe (hasCastledBlack chess) (hasCastledBlack chess') /\
  (enPassantCol chess' = -1 \/ enPassantCol chess' = fromCol m).
Proof.
  intros Hwf H. destruct (makeMove_Ok_after _ _ _ _ _ Hwf H) as [-> _].
  unfold afterMove. cbv zeta.
  set (moving := get chess (fromRow m) (fromCol m)).
  set (castled := if isCastling m then _ else chess).
  set (taken := if isEnPassant m then _ else castled).
  assert (Hc : flagsLe (hasCastledWhite chess) (hasCastledWhite castled) /\
               flagsLe (hasCastledBlack chess) (hasCastledBlack castled)).
  { unfold castled. destruct (isCastling m).
    - apply (castleFlag_flags moving m
               (upd (upd chess (fromRow m) (rookToCol m)
                       (get chess (fromRow m) (rookFromCol m)))
                  (fromRow m) (rookFromCol m) EMPTY)).
    - split; apply flagsLe_refl. }
  assert (Ht : hasCastledWhite taken = hasCastledWhite castled /\
               hasCastledBlack taken = hasCastledBlack castled).
  { unfold taken. destruct (isEnPassant m); split; reflexivity. }
  destruct (markEnPassant_flags (promoted m moving) m taken) as (He1 & He2 & He3).
  destruct (markRights_flags (promoted m moving) m
              (markEnPassant (promoted m moving) m taken)) as (Hr1 & Hr2 & Hr3).
  change (hasCastledWhite (set_whiteToMove _ (upd (upd ?s _ _ _) _ _ _)))
    with (hasCastledWhite s).
  change (hasCastledBlack (set_whiteToMove _ (upd (upd ?s _ _ _) _ _ _)))
    with (hasCastledBlack s).
  change (enPassantCol (set_whiteToMove _ (upd (upd ?s _ _ _) _ _ _)))
    with (enPassantCol s).
  rewrite He1 in Hr1. rewrite He2 in Hr2. rewrite Hr3.
  destruct Hc as [Hc1 Hc2], Ht as [Ht1 Ht2]. rewrite Ht1 in Hr1. rewrite Ht2 in Hr2.
  split; [eapply flagsLe_trans; eauto|]. split; [eapply flagsLe_trans; eauto|].
  exact He3.
Qed.

Lemma makeMove_only_sets_flags_witness :
  flagsLe (hasCastledWhite initChessState)
    (hasCastledWhite (afterMove initChessState (quiet 1 4 3 4))) /\
  flagsLe (hasCastledBlack initChessState)
    (hasCastledBlack (afterMove initChessState (quiet 1 4 3 4))) /\
  (enPassantCol (afterMove initChessState (quiet 1 4 3 4)) = -1 \/
   enPassantCol (afterMove initChessState (quiet 1 4 3 4)) = fromCol (quiet 1 4 3 4)).
Proof.
  apply (makeMove_only_sets_flags initChessState (quiet 1 4 3 4) None
           (afterMove initChessState (quiet 1 4 3 4)) None).
  - reflexivity.
  - vm_compute. reflexivity.
Defined.

(** ** Pawn moves *)

(** X21.  For two squares of the board [pawnMove] reads no cell outside the
    board.  With the direction and the start row taken from the colour of the
    piece on the from-square, it answers true exactly for one step straight
    ahead onto an empty square, two steps straight ahead from the start row
    over an empty square onto an empty square, and one step diagonally ahead
    onto a square that is not empty, whatever the colour of the piece
    there. *)
Theorem pawnMove_accepts_iff (chess : ChessState) (fr fc tr tc : Z) :
  wf chess -> onBoard fr fc -> onBoard tr tc ->
  let dir := if isWhite (get chess fr fc) then 1 else -1 in
  let startRow := if isWhite (get chess fr fc) then 1 else 6 in
  exists b, pawnMove chess fr fc tr tc = Ok b /\
    (b = true <->
     (fc = tc /\ tr = fr + dir /\ get chess tr tc = EMPTY) \/
     (fc = tc /\ fr = startRow /\ tr = fr + 2 * dir /\
      get chess (fr + dir) fc = EMPTY /\ get chess tr tc = EMPTY) \/
     (Z.abs (tc - fc) = 1 /\ tr = fr + dir /\ get chess tr tc <> EMPTY)).
Proof.
  intros Hwf Hf Ht dir startRow.
  exists (pawnMove_val chess fr fc tr tc). split; [now apply pawnMove_get|].
  unfold pawnMove_val. fold dir startRow.
  rewrite !orb_true_iff, !andb_true_iff, negb_true_iff, !Z.eqb_eq, !peq_true, peq_false.
  tauto.
Qed.

Lemma pawnMove_accepts_iff_witness :
  exists b, pawnMove initChessState 1 4 3 4 = Ok b /\
    (b = true <->
     (4 = 4 /\ 3 = 1 + 1 /\ get initChessState 3 4 = EMPTY) \/
     (4 = 4 /\ 1 = 1 /\ 3 = 1 + 2 * 1 /\
      get initChessState (1 + 1) 4 = EMPTY /\ get initChessState 3 4 = EMPTY) \/
     (Z.abs (4 - 4) = 1 /\ 3 = 1 + 1 /\ get initChessState 3 4 <> EMPTY)).
Proof.
  apply (pawnMove_accepts_iff initChessState 1 4 3 4);
    [reflexivity | | ]; unfold onBoard; lia.
Defined.

(** ** No move is listed twice *)

Lemma NoDup_flat_map {A B} (f : A -> list B) (l : list A) :
  NoDup l -> (forall x, In x l -> NoDup (f x)) ->
  (forall x y z, In x l -> In y l -> In z (f x) -> In z (f y) -> x = y) ->
  NoDup (flat_map f l).
Proof.
  induction l as [|x l IH]; intros Hl Hf Hdis; cbn [flat_map]; [constructor|].
  apply NoDup_cons in Hl as [Hx Hl].
  apply NoDup_app. split; [apply Hf; now left|]. split.
  - intros z Hz Hz'. apply list_elem_of_In in Hz, Hz'.
    apply in_flat_map in Hz' as (y & Hy & Hzy).
    assert (x = y) by (apply (Hdis x y z); auto; [now left | now right]).
    subst y. apply Hx. now apply list_elem_of_In.
  - apply IH; auto.
    + intros y Hy. apply Hf. now right.
    + intros a b z Ha Hb. apply Hdis; now right.
Qed.

Lemma NoDup_squares : NoDup squares.
Proof. apply (bool_decide_unpack _). vm_compute. exact I. Qed.

Lemma in_candidatesTo chess r c dst z :
  In z (candidatesTo chess r c dst) -> z = plainMove chess r c (fst dst) (snd dst).
Proof.
  unfold candidatesTo. destruct (legal _ _ _ _ _); [|intros []].
  intros [<- | []]. reflexivity.
Qed.

Lemma in_candidatesFrom chess src z :
  In z (candidatesFrom chess src) -> fromRow z = fst src /\ fromCol z = snd src.
Proof.
  unfold candidatesFrom. destruct (mover _ _); [|intros []].
  intros H. apply in_flat_map in H as (dst & _ & H).
  apply in_candidatesTo in H. subst z. split; reflexivity.
Qed.

Lemma NoDup_candidates chess : NoDup (candidates chess).
Proof.
  unfold candidates. apply NoDup_flat_map; [apply NoDup_squares| |].
  - intros [r c] _. unfold candidatesFrom. cbn [fst snd].
    destruct (mover _ _); [|constructor].
    apply NoDup_flat_map; [apply NoDup_squares| |].
    + intros dst _. unfold candidatesTo. destruct (legal _ _ _ _ _).
      * apply NoDup_singleton.
      * constructor.
    + intros [a b] [a' b'] z _ _ H1 H2.
      apply in_candidatesTo in H1, H2. subst z. cbn [fst snd] in H2.
      unfold plainMove in H2. now injection H2 as -> ->.
  - intros [a b] [a' b'] z _ _ H1 H2.
    apply in_candidatesFrom in H1 as [H1 H1'], H2 as [H2 H2'].
    cbn [fst snd] in *. congruence.
Qed.

(** X22.  [getAllMoves] lists no move twice, and it lists at most one move
    for each pair of a from-square and a to-square. *)
Theorem getAllMoves_no_duplicates (chess : ChessState) :
  wf chess ->
  exists moves,
    getAllMoves chess = Ok moves /\ NoDup moves /\
    forall m1 m2, In m1 moves -> In m2 moves ->
      fromRow m1 = fromRow m2 -> fromCol m1 = fromCol m2 ->
      toRow m1 = toRow m2 -> toCol m1 = toCol m2 -> m1 = m2.
Proof.
  intros Hwf. exists (take 256 (candidates chess)).
  split; [now apply getAllMoves_closed|]. split.
  - pose proof (NoDup_candidates chess) as H.
    rewrite <- (take_drop 256 (candidates chess)) in H.
    now apply NoDup_app in H as [H _].
  - assert (Hin : forall m, In m (take 256 (candidates chess)) ->
                    m = plainMove chess (fromRow m) (fromCol m) (toRow m) (toCol m)).
    { intros m Hm.
      assert (Hc : In m (candidates chess)).
      { rewrite <- (take_drop 256 (candidates chess)). apply in_or_app. now left. }
      apply candidates_generated in Hc; [|exact Hwf].
      destruct Hc as (r & c & r2 & c2 & _ & _ & _ & _ & ->). reflexivity. }
    intros m1 m2 H1 H2 E1 E2 E3 E4.
    rewrite (Hin m1 H1), (Hin m2 H2). rewrite E1, E2, E3, E4. reflexivity.
Qed.

Lemma getAllMoves_no_duplicates_witness :
  exists moves,
    getAllMoves initChessState = Ok moves /\ NoDup moves /\
    forall m1 m2, In m1 moves -> In m2 moves ->
      fromRow m1 = fromRow m2 -> fromCol m1 = fromCol m2 ->
      toRow m1 = toRow m2 -> toCol m1 = toCol m2 -> m1 = m2.
Proof. apply getAllMoves_no_duplicates. reflexivity. Defined.
